(** * NodeBB admin search dictionary ([src/admin/search.ts])

    A shallow embedding of the admin control panel's search dictionary
    builder and the properties of its specification.

    Layout:
    - [JsString]: JavaScript strings as sequences of UTF-16 code units and
      the [String.prototype] methods the module calls;
    - [Regex]: a backtracking matcher for the fragment of ECMAScript regular
      expressions the module uses, with [test], [exec] and [replace];
    - [AdminSearch]: the functions of [search.ts], the pure ones first, then the
      asynchronous ones, as calls that are suspended and resumed, over a
      state that holds the two caches;
    - the auxiliary definitions, the lemmas, one theorem for each claim of
      the specification and, last, further properties of the code. *)

From Stdlib Require Import NArith String Ascii.
From stdpp Require Import base option list gmap.

Set Default Proof Using "Type".
Local Open Scope N_scope.

(** ** JavaScript strings *)

Module JsString.

(** A string is a sequence of 16-bit code units.  The functions below never
    rely on the bound, so a code unit is simply an [N]. *)
Abbreviation jsstring := (list N) (only parsing).

(** Literals are written as Rocq strings: [js "admin/"]. *)
Fixpoint js (s : string) : jsstring :=
  match s with
  | EmptyString => []
  | String c s' => N_of_ascii c :: js s'
  end.

Definition TAB : N := 9.
Definition LF : N := 10.
Definition CR : N := 13.
Definition SPACE : N := 32.
Definition SLASH : N := 47.
Definition GT : N := 62.
Definition BACKSLASH : N := 92.
Definition LBRACE : N := 123.
Definition RBRACE : N := 125.
Definition LS : N := 8232.   (* U+2028 LINE SEPARATOR *)
Definition PS : N := 8233.   (* U+2029 PARAGRAPH SEPARATOR *)

(** [prefix.isPrefixOf(s)]: does [s] start with [p]? *)
Fixpoint starts_with (p s : jsstring) : bool :=
  match p, s with
  | [], _ => true
  | a :: p', b :: s' => (a =? b) && starts_with p' s'
  | _ :: _, [] => false
  end.

(** [s.endsWith(p)] *)
Definition endsWith (s p : jsstring) : bool :=
  starts_with (reverse p) (reverse s).

(** [s.includes(p)] *)
Fixpoint includes (s p : jsstring) : bool :=
  starts_with p s ||
  match s with
  | [] => false
  | _ :: s' => includes s' p
  end.

(** [s.replace(pat, rep)] with a string pattern: only the first occurrence
    of [pat] is replaced. *)
Fixpoint replace_first (pat rep s : jsstring) : jsstring :=
  if starts_with pat s then rep ++ drop (length pat) s
  else match s with
       | [] => []
       | c :: s' => c :: replace_first pat rep s'
       end.

(** [s.split(sep)] with a string separator.  [skip] counts the code units of
    a separator still to be dropped, [cur] is the segment being collected.
    An empty separator splits into single code units. *)
Fixpoint split_go (sep s : jsstring) (skip : nat) (cur : jsstring)
  : list jsstring :=
  match s with
  | [] => [cur]
  | c :: s' =>
      match skip with
      | S k => split_go sep s' k cur
      | O =>
          if starts_with sep s
          then cur :: split_go sep s' (length sep - 1) []
          else split_go sep s' 0 (cur ++ [c])
      end
  end.

Definition split (sep s : jsstring) : list jsstring :=
  match sep with
  | [] => (λ c, [c]) <$> s
  | _ => split_go sep s 0 []
  end.

(** [segments.join(sep)] *)
Fixpoint join (sep : jsstring) (l : list jsstring) : jsstring :=
  match l with
  | [] => []
  | [x] => x
  | x :: l' => x ++ sep ++ join sep l'
  end.

(** [s.slice(n)] for a non-negative [n]. *)
Definition slice_from (n : nat) (s : jsstring) : jsstring := drop n s.

End JsString.
Export JsString.

(** ** Regular expressions *)

Module Regex.

(** The fragment of the ECMAScript pattern language used by [search.ts]
    (no flags other than [g], so matching is by code unit, case sensitive,
    [^] and [$] anchor at the ends of the input and [.] excludes the four
    line terminators). *)
Inductive regex : Type :=
| Eps                                               (* empty pattern *)
| Chr (p : N → bool)                                (* a class, a literal or . *)
| Seq (r1 r2 : regex)                               (* r1r2 *)
| Alt (r1 r2 : regex)                               (* r1|r2 *)
| Quant (greedy : bool) (lo : nat) (hi : option nat) (r : regex)
                                                    (* r{lo,hi} and r{lo,hi}? *)
| Group (i : nat) (r : regex)                       (* i-th capturing ( ) *)
| Bol                                               (* ^ *)
| Eol.                                              (* $ *)

(** A matcher state: the position reached, the input that is left there and
    the captures made so far (latest first). *)
Record mstate : Type := MState {
  pos : nat;
  rest : jsstring;
  caps : list (nat * jsstring)
}.

(** Quantifier loop over the matcher [m] of the quantified atom.  All the
    ways to continue are listed in the order backtracking tries them: a
    greedy quantifier tries one more iteration first, a lazy one tries to
    stop first.  Once the minimum is reached an iteration that consumes
    nothing is rejected (ECMAScript's RepeatMatcher).  [fuel] bounds the
    number of iterations. *)
Fixpoint rep (m : mstate → list mstate) (greedy : bool)
    (fuel lo : nat) (hi : option nat) (st : mstate) : list mstate :=
  match fuel with
  | O => []
  | S fuel' =>
      match lo with
      | S lo' => m st ≫= rep m greedy fuel' lo' (Nat.pred <$> hi)
      | O =>
          match hi with
          | Some O => [st]
          | _ =>
              let more :=
                filter (λ st', pos st' ≠ pos st) (m st)
                  ≫= rep m greedy fuel' 0 (Nat.pred <$> hi) in
              if greedy then more ++ [st] else st :: more
          end
      end
  end.

(** [matches r st]: the states in which a match of [r] started in [st] can
    end, in backtracking order; the match the engine reports is the first. *)
Fixpoint matches (r : regex) (st : mstate) : list mstate :=
  match r with
  | Eps => [st]
  | Chr p =>
      match rest st with
      | c :: t => if p c then [MState (S (pos st)) t (caps st)] else []
      | [] => []
      end
  | Seq r1 r2 => matches r1 st ≫= matches r2
  | Alt r1 r2 => matches r1 st ++ matches r2 st
  | Quant g lo hi r' =>
      rep (matches r') g (S (lo + length (rest st))) lo hi st
  | Group i r' =>
      (λ st', MState (pos st') (rest st')
                ((i, take (pos st' - pos st) (rest st)) :: caps st'))
        <$> matches r' st
  | Bol => if decide (pos st = O) then [st] else []
  | Eol => match rest st with [] => [st] | _ => [] end
  end.

(** A successful match: the code units it covers and its captures. *)
Record rmatch : Type := RMatch {
  matched : jsstring;
  groups : list (nat * jsstring)
}.

(** Capture [i] of a match ([undefined] is [None]). *)
Fixpoint capture (i : nat) (cs : list (nat * jsstring)) : option jsstring :=
  match cs with
  | [] => None
  | (j, text) :: cs' => if decide (i = j) then Some text else capture i cs'
  end.

Definition group (i : nat) (m : rmatch) : option jsstring :=
  capture i (groups m).

(** The match of [r] that starts exactly at position [at_pos], where [s] is
    the input from there on. *)
Definition match_at (r : regex) (at_pos : nat) (s : jsstring)
  : option rmatch :=
  match matches r (MState at_pos s []) with
  | st :: _ => Some (RMatch (take (pos st - at_pos) s) (caps st))
  | [] => None
  end.

(** [r.exec(s)]: the leftmost match, with the text skipped before it and the
    text left after it. *)
Fixpoint search (r : regex) (at_pos : nat) (s : jsstring)
  : option (jsstring * rmatch * jsstring) :=
  match match_at r at_pos s with
  | Some m => Some ([], m, drop (length (matched m)) s)
  | None =>
      match s with
      | [] => None
      | c :: s' =>
          match search r (S at_pos) s' with
          | Some (skipped, m, after) => Some (c :: skipped, m, after)
          | None => None
          end
      end
  end.

Definition exec (r : regex) (s : jsstring) : option rmatch :=
  match search r 0 s with
  | Some (_, m, _) => Some m
  | None => None
  end.

(** [r.test(s)] *)
Definition test (r : regex) (s : jsstring) : bool :=
  bool_decide (is_Some (exec r s)).

(** A replacement string: literal text and [$i] references. *)
Inductive repl_item : Type :=
| Lit (text : jsstring)
| Ref (i : nat).

Definition expand (tpl : list repl_item) (m : rmatch) : jsstring :=
  tpl ≫= λ it,
    match it with
    | Lit text => text
    | Ref i => default [] (group i m)
    end.

(** [s.replace(r, tpl)] for a pattern without the [g] flag. *)
Definition replace (r : regex) (tpl : list repl_item) (s : jsstring)
  : jsstring :=
  match search r 0 s with
  | Some (before, m, after) => before ++ expand tpl m ++ after
  | None => s
  end.

(** [s.replace(r, tpl)] for a pattern with the [g] flag: every match, left
    to right.  [skip] counts the code units of the last match still to be
    dropped; after an empty match the scan moves on by one code unit. *)
Fixpoint replace_all_from (r : regex) (tpl : list repl_item)
    (at_pos : nat) (s : jsstring) (skip : nat) : jsstring :=
  match s with
  | [] =>
      match skip, match_at r at_pos [] with
      | O, Some m => expand tpl m
      | _, _ => []
      end
  | c :: s' =>
      match skip with
      | S k => replace_all_from r tpl (S at_pos) s' k
      | O =>
          match match_at r at_pos s with
          | Some m =>
              expand tpl m ++
              match length (matched m) with
              | O => c :: replace_all_from r tpl (S at_pos) s' 0
              | S k => replace_all_from r tpl (S at_pos) s' k
              end
          | None => c :: replace_all_from r tpl (S at_pos) s' 0
          end
      end
  end.

Definition replace_all (r : regex) (tpl : list repl_item) (s : jsstring)
  : jsstring :=
  replace_all_from r tpl 0 s 0.

(** *** Pattern syntax *)

Definition lit1 (c : N) : regex := Chr (N.eqb c).

(** A literal word. *)
Fixpoint word (w : jsstring) : regex :=
  match w with
  | [] => Eps
  | [c] => lit1 c
  | c :: w' => Seq (lit1 c) (word w')
  end.

Definition is_line_terminator (c : N) : bool :=
  (c =? LF) || (c =? CR) || (c =? LS) || (c =? PS).

(** [.] *)
Definition dot : regex := Chr (λ c, negb (is_line_terminator c)).

(** [[...]] and [[^...]]: a class lists code units and ranges. *)
Inductive class_item : Type :=
| One (c : N)
| Range (lo hi : N).

Definition in_item (c : N) (it : class_item) : bool :=
  match it with
  | One c' => c =? c'
  | Range lo hi => (lo <=? c) && (c <=? hi)
  end.

Definition in_class (items : list class_item) (c : N) : bool :=
  existsb (in_item c) items.

Definition cls (items : list class_item) : regex := Chr (in_class items).
Definition ncls (items : list class_item) : regex :=
  Chr (λ c, negb (in_class items c)).

(** Concatenation of several patterns. *)
Fixpoint cat (rs : list regex) : regex :=
  match rs with
  | [] => Eps
  | [r] => r
  | r :: rs' => Seq r (cat rs')
  end.

Definition star (r : regex) : regex := Quant true 0 None r.        (* r*  *)
Definition star_lazy (r : regex) : regex := Quant false 0 None r.  (* r*? *)
Definition plus (r : regex) : regex := Quant true 1 None r.        (* r+  *)
Definition plus_lazy (r : regex) : regex := Quant false 1 None r.  (* r+? *)
Definition between (lo hi : nat) (r : regex) : regex :=
  Quant true lo (Some hi) r.                                       (* r{lo,hi} *)

End Regex.
Export Regex.

(** ** The search dictionary module *)

(** *** Results of calls that may throw *)

(** A thrown value: whether it is an [Error] instance and, if so, its
    [stack]. *)
Record Exn : Type := MkExn {
  instanceof_Error : bool;
  stack : jsstring
}.

Inductive Result (A : Type) : Type :=
| Ok (a : A)
| Throw (e : Exn).
Arguments Ok {A} a.
Arguments Throw {A} e.

Global Instance Result_ret : MRet Result := λ A a, Ok a.
Global Instance Result_bind : MBind Result := λ A B f r,
  match r with
  | Ok a => f a
  | Throw e => Throw e
  end.

(** [Array.prototype.map] with a callback that may throw: the callback runs
    on the elements in order and the first exception ends the loop. *)
Fixpoint array_map {A B : Type} (f : A → Result B) (l : list A)
  : Result (list B) :=
  match l with
  | [] => Ok []
  | x :: l' => y ← f x; ys ← array_map f l'; Ok (y :: ys)
  end.

(** Reading a property of [undefined]. *)
Definition TypeError_undefined (prop : string) : Exn :=
  MkExn true
    (js "TypeError: Cannot read properties of undefined (reading '"
       ++ js prop ++ js "')").

(** *** Collaborators

    What [search.ts] imports: [path], [nconf], [fs], [sanitize-html],
    [../file], [../translator] and, of the runtime,
    [String.prototype.toUpperCase] and the event loop.  The values they
    return do not change while the process runs. *)

(** A translation table, its entries in enumeration order. *)
Abbreviation Table := (list (jsstring * jsstring)) (only parsing).

(** A translator bound to a language. *)
Record Translator : Type := MkTranslator {
  getTranslation : jsstring → Result (option Table);
  translate : jsstring → Result jsstring
}.

(** The platform decides [path.sep]. *)
Inductive Platform : Type := posix | win32.

(** What the module asks of its collaborators, in the order it asks. *)
Inductive Event : Type :=
| EvWalk (dir : jsstring)                        (* file.walk *)
| EvReadFile (path : jsstring)                   (* fs.promises.readFile *)
| EvCreate (language : jsstring)                 (* Translator.create *)
| EvGetTranslation (language ns : jsstring)      (* translator.getTranslation *)
| EvTranslate (language text : jsstring)         (* translator.translate *)
| EvLogError (stack : jsstring).                 (* winston.error *)

Class Host : Type := MkHost {
  platform : Platform;                                 (* process.platform *)
  path_resolve : jsstring → jsstring → jsstring;       (* path.resolve(a, b) *)
  views_dir : jsstring;                                (* nconf.get('views_dir') *)
  file_walk : jsstring → Result (list jsstring);       (* file.walk(dir) *)
  readFile : jsstring → Result jsstring;      (* fs.promises.readFile(p, 'utf8') *)
  sanitizeHTML : jsstring → jsstring;
      (* sanitizeHTML(html, { allowedTags: [], allowedAttributes: [] }) *)
  Translator_create : jsstring → Result Translator;    (* Translator.create *)
  Translator_removePatterns : jsstring → jsstring;
  toUpperCase : jsstring → jsstring;          (* String.prototype.toUpperCase *)
  resume_order : list Event → list nat
      (* the event loop: the order in which the suspended calls of a
         Promise.all are resumed, see [promise_all] *)
}.

Module AdminSearch.

Section Pure.
Context `{Host}.

(** [path.sep] *)
Definition path_sep : jsstring :=
  match platform with
  | posix => [SLASH]
  | win32 => [BACKSLASH]
  end.

(** The pattern "/^.*(admin.*?).tpl$/". *)
Definition re_tpl_path : regex :=
  cat [Bol; star dot;
       Group 1 (cat [word (js "admin"); star_lazy dot]);
       dot; word (js "tpl"); Eol].

(** The pattern "/\/.*\//". *)
Definition re_subpath : regex :=
  cat [lit1 SLASH; star dot; lit1 SLASH].

(** The pattern "/manage\/(category|group|category-analytics)$/". *)
Definition re_manage_excluded : regex :=
  cat [word (js "manage/");
       Group 1 (Alt (word (js "category"))
               (Alt (word (js "group")) (word (js "category-analytics"))));
       Eol].

Definition filterDirectories (directories : list jsstring) : list jsstring :=
  filter
    (λ dir,
       negb (endsWith dir (js ".js")) &&
       negb (includes dir (js "/partials/")) &&
       test re_subpath dir &&
       negb (test re_manage_excluded dir) = true)
    ((λ dir, join (js "/") (split path_sep (replace re_tpl_path [Ref 1] dir)))
       <$> directories).

(** The text a template or translation is reduced to. *)
Definition sanitize (html : jsstring) : jsstring := sanitizeHTML html.

(** The pattern "/(?:\{{1,2}[^}]*?\}{1,2})/g". *)
Definition re_mustache : regex :=
  cat [between 1 2 (lit1 LBRACE);
       star_lazy (ncls [One RBRACE]);
       between 1 2 (lit1 RBRACE)].

(** The pattern "/(?:[ \t]*[\n\r]+[ \t]* )+/g" (shown with a blank before its
    last parenthesis). *)
Definition re_line_breaks : regex :=
  plus (cat [star (cls [One SPACE; One TAB]);
             plus (cls [One LF; One CR]);
             star (cls [One SPACE; One TAB])]).

(** The pattern "/[\t ]+/g". *)
Definition re_blanks : regex := plus (cls [One TAB; One SPACE]).

Definition simplify (translations : jsstring) : jsstring :=
  replace_all re_blanks [Lit [SPACE]]
    (replace_all re_line_breaks [Lit [LF]]
       (replace_all re_mustache [Lit []] translations)).

(** The pattern "/[^a-zA-Z> ]/g". *)
Definition re_not_title_char : regex :=
  ncls [Range 97 122; Range 65 90; One GT; One SPACE].

(** [str[0].toUpperCase() + str.slice(1)]: [str[0]] of an empty string is
    [undefined]. *)
Definition capitalize (str : jsstring) : Result jsstring :=
  match str with
  | [] => Throw (TypeError_undefined "toUpperCase")
  | c :: _ => Ok (toUpperCase [c] ++ slice_from 1 str)
  end.

Definition nsToTitle (namespace : jsstring) : Result jsstring :=
  segments ←
    array_map capitalize
      (split (js "/") (replace_first (js "admin/") [] namespace));
  Ok (replace_all re_not_title_char [Lit [SPACE]] (join (js " > ") segments)).

End Pure.

(** *** The caches and the asynchronous functions *)

(** An entry of the dictionary; [title] is optional. *)
Record Entry : Type := MkEntry {
  namespace : jsstring;
  translations : jsstring;
  title : option jsstring
}.

(** The two caches are plain objects, created as [{}] and used as maps from
    strings.  A read [o[key]] of such an object finds its own properties and
    those of [Object.prototype]; these are the names of the latter, as
    ECMAScript defines them. *)
Definition Object_prototype : list jsstring :=
  [js "constructor"; js "__defineGetter__"; js "__defineSetter__";
   js "hasOwnProperty"; js "__lookupGetter__"; js "__lookupSetter__";
   js "isPrototypeOf"; js "propertyIsEnumerable"; js "toString";
   js "valueOf"; js "__proto__"; js "toLocaleString"].

(** What the functions hand on as an entry or as a dictionary: a value [a]
    that the module made, or what a read of a cache found on
    [Object.prototype] under [key] (a function, and the prototype itself
    under "__proto__"): none of these is falsy. *)
Inductive Value (A : Type) : Type :=
| Val (a : A)
| Inherited (key : jsstring).
Arguments Val {A} a.
Arguments Inherited {A} key.

(** [o[key]], for a plain object with the own properties [o]; [None] is
    [undefined]. *)
Definition get_property {A : Type} (o : gmap jsstring A) (key : jsstring)
  : option (Value A) :=
  match o !! key with
  | Some a => Some (Val a)
  | None =>
      if bool_decide (key ∈ Object_prototype) then Some (Inherited key)
      else None
  end.

(** The module's state: the own properties of its two cache objects and the
    calls made so far. *)
Record State : Type := MkState {
  fallbackCache : gmap jsstring Entry;
  cache : gmap jsstring (list (Value Entry));
  trace : list Event
}.

Definition init : State := MkState ∅ ∅ [].

(** The state after one more call to a collaborator. *)
Definition record (ev : Event) (s : State) : State :=
  MkState (fallbackCache s) (cache s) (trace s ++ [ev]).

(** A call of an [async] function.  It is settled (fulfilled or rejected);
    or it reads and writes the state and goes on: [Access f k] goes from the
    state [s] to [f s] and goes on as [k s]; or it is suspended at an
    [await]: what comes after [Suspended] runs when the event loop resumes
    the call, and other calls may run in between. *)
Inductive Async (A : Type) : Type :=
| Settled (r : Result A)
| Access (f : State → State) (k : State → Async A)
| Suspended (k : Async A).
Arguments Settled {A} r.
Arguments Access {A} f k.
Arguments Suspended {A} k.

(** The call [m] and then, on the value it returns, [f]. *)
Fixpoint Async_then {A B : Type} (f : A → Async B) (m : Async A) : Async B :=
  match m with
  | Settled (Ok a) => f a
  | Settled (Throw e) => Settled (Throw e)
  | Access g k => Access g (λ s, Async_then f (k s))
  | Suspended k => Suspended (Async_then f k)
  end.

Global Instance Async_ret : MRet Async := λ A a, Settled (Ok a).
Global Instance Async_bind : MBind Async := @Async_then.

(** The call runs up to its next suspension, or to its end. *)
Fixpoint segment {A : Type} (m : Async A) (s : State) : Async A * State :=
  match m with
  | Settled r => (Settled r, s)
  | Access f k => segment (k s) (f s)
  | Suspended k => (Suspended k, s)
  end.

(** The call runs to its end with nothing in between: this is the call
    awaited by a caller while no other call of the module is under way.  A
    call applied to a state stands for this run. *)
Fixpoint run {A : Type} (m : Async A) (s : State) : Result A * State :=
  match m with
  | Settled r => (r, s)
  | Access f k => run (k s) (f s)
  | Suspended k => run k s
  end.
Coercion run : Async >-> Funclass.

(** [await m], for the call [m] of an [async] function: [m] runs up to its
    first suspension at once; the caller is suspended until [m] is settled
    and goes on, or throws, when it is resumed. *)
Fixpoint await {A : Type} (m : Async A) : Async A :=
  match m with
  | Settled r => Suspended (Settled r)
  | Access f k => Access f (λ s, await (k s))
  | Suspended k => Suspended (await k)
  end.

(** [await] of a call to a collaborator that answers [r]: the call is made
    at once, the answer comes when the caller is resumed. *)
Definition call {A : Type} (ev : Event) (r : Result A) : Async A :=
  Access (record ev) (λ _, Suspended (Settled r)).

(** A call to a collaborator that answers at once. *)
Definition call_sync {A : Type} (ev : Event) (r : Result A) : Async A :=
  Access (record ev) (λ _, Settled r).

(** A synchronous computation that may throw. *)
Definition lift {A : Type} (r : Result A) : Async A := Settled r.

Definition get_fallbackCache (ns : jsstring) : Async (option (Value Entry)) :=
  Access id (λ s, Settled (Ok (get_property (fallbackCache s) ns))).

(** [fallbackCache[ns] = e] makes an own property.  (Under "__proto__" the
    assignment would replace the prototype instead; the module assigns only
    after a read that found nothing, which is never so under that name.) *)
Definition set_fallbackCache (ns : jsstring) (e : Entry) : Async unit :=
  Access (λ s, MkState (<[ns := e]> (fallbackCache s)) (cache s) (trace s))
         (λ _, Settled (Ok ())).

(** [try { body } catch (err) { handler }] *)
Fixpoint try_catch {A : Type} (body : Async A) (handler : Exn → Async A)
  : Async A :=
  match body with
  | Settled (Ok a) => Settled (Ok a)
  | Settled (Throw e) => handler e
  | Access f k => Access f (λ s, try_catch (k s) handler)
  | Suspended k => Suspended (try_catch k handler)
  end.

(** A call awaited at the top: [getDictionary] and what it awaits directly.
    The calls of a client run one after the other. *)
Definition Awaited (A : Type) : Type := State → Result A * State.

Global Instance Awaited_ret : MRet Awaited := λ A a s, (Ok a, s).
Global Instance Awaited_bind : MBind Awaited := λ A B f m s,
  match m s with
  | (Ok a, s') => f a s'
  | (Throw e, s') => (Throw e, s')
  end.

Definition get_cache (language : jsstring)
  : Awaited (option (Value (list (Value Entry)))) :=
  λ s, (Ok (get_property (cache s) language), s).

(** [cache[language] = d], as [set_fallbackCache]. *)
Definition set_cache (language : jsstring) (d : list (Value Entry))
  : Awaited unit :=
  λ s, (Ok (), MkState (fallbackCache s) (<[language := d]> (cache s)) (trace s)).

(** *** [Promise.all]

    The calls of [Promise.all(xs.map(f))] are started in the order of the
    list, each running up to its first suspension.  The event loop then
    resumes the suspended calls one segment at a time, in an order that the
    host decides: [resume_order tr] is that order, a list of positions in
    the list of calls, when the calls made before are [tr].  What is still
    suspended at the end of that order runs to its end, in the order of the
    list.  The result is the list of the values if every call is fulfilled
    and the first rejection, in the order of time, otherwise.  (In the source
    the calls still suspended at the first rejection go on after the caller
    has been resumed; here they end before.) *)

Section PromiseAll.
Context `{Host} {A : Type}.

(** The error of a call that is rejected. *)
Definition rejection (m : Async A) : option Exn :=
  match m with
  | Settled (Throw e) => Some e
  | _ => None
  end.

(** The first rejection: [e], and that of [m] if there was none before. *)
Definition or_rejection (e : option Exn) (m : Async A) : option Exn :=
  match e with
  | Some _ => e
  | None => rejection m
  end.

(** The calls are started, in the order of the list. *)
Fixpoint start (ps : list (Async A)) (e : option Exn) (s : State)
  : list (Async A) * option Exn * State :=
  match ps with
  | [] => ([], e, s)
  | p :: ps' =>
      let '(m, s1) := segment p s in
      let '(ms, e', s2) := start ps' (or_rejection e m) s1 in
      (m :: ms, e', s2)
  end.

(** The suspended calls are resumed in the order [order], for one segment
    each time; a position that holds no suspended call is passed over. *)
Fixpoint resume (order : list nat) (ms : list (Async A)) (e : option Exn)
    (s : State) : list (Async A) * option Exn * State :=
  match order with
  | [] => (ms, e, s)
  | i :: order' =>
      match ms !! i with
      | Some (Suspended k) =>
          let '(m, s1) := segment k s in
          resume order' (<[i := m]> ms) (or_rejection e m) s1
      | _ => resume order' ms e s
      end
  end.

(** What is left runs to its end, in the order of the list. *)
Fixpoint finish (ms : list (Async A)) (e : option Exn) (s : State)
  : list (Result A) * option Exn * State :=
  match ms with
  | [] => ([], e, s)
  | m :: ms' =>
      let '(r, s1) := run m s in
      let '(rs, e', s2) := finish ms' (or_rejection e (Settled r)) s1 in
      (r :: rs, e', s2)
  end.

(** [await Promise.all(ps)] *)
Definition promise_all (ps : list (Async A)) : Awaited (list A) :=
  λ s,
    let '(ms, e, s1) := start ps None s in
    let '(ms', e', s2) := resume (resume_order (trace s)) ms e s1 in
    let '(rs, e'', s3) := finish ms' e' s2 in
    (match e'' with
     | Some err => Throw err
     | None => array_map id rs
     end, s3).

End PromiseAll.

Section Stateful.
Context `{Host}.

Definition getAdminNamespaces : Async (list jsstring) :=
  let dir := path_resolve views_dir (js "admin") in
  directories ← call (EvWalk dir) (file_walk dir);
  mret (filterDirectories directories).

Definition template_path (ns : jsstring) : jsstring :=
  path_resolve views_dir (ns ++ js ".tpl").

Definition initFallback (namespace : jsstring) : Async Entry :=
  template ←
    call (EvReadFile (template_path namespace))
         (readFile (template_path namespace));
  title ← lift (nsToTitle namespace);
  let translations := sanitize template in
  let translations := Translator_removePatterns translations in
  let translations := simplify translations in
  let translations := translations ++ [LF] ++ title in
  mret (MkEntry namespace translations (Some title)).

Definition fallback (namespace : jsstring) : Async (Value Entry) :=
  cached ← get_fallbackCache namespace;
  match cached with
  | Some entry => mret entry
  | None =>
      params ← await (initFallback namespace);
      set_fallbackCache namespace params;;
      mret (Val params)
  end.

(** The pattern "/admin\/(.+?)\/(.+?)$/". *)
Definition re_title : regex :=
  cat [word (js "admin/"); Group 1 (plus_lazy dot); lit1 SLASH;
       Group 2 (plus_lazy dot); Eol].

(** [!translations || !Object.keys(translations).length] *)
Definition no_translations (translations : option Table) : bool :=
  match translations with
  | None | Some [] => true
  | Some (_ :: _) => false
  end.

(** [Object.values(translations)] *)
Definition values (translations : option Table) : list jsstring :=
  snd <$> default [] translations.

(** The title key built from the match of [re_title] on the namespace. *)
Definition title_key (titleMatch : option rmatch) : jsstring :=
  match titleMatch with
  | Some m =>
      let m1 := default [] (group 1 m) in
      let m2 := default [] (group 2 m) in
      js "[[admin/menu:section-"
        ++ (if bool_decide (m1 = js "development") then js "advanced" else m1)
        ++ js "]]"
        ++ match m2 with
           | [] => []
           | _ => js " > [[admin/menu:" ++ m1 ++ js "/" ++ m2 ++ js "]]"
           end
  | None => []
  end.

(** [if (err instanceof Error) { winston.error(err.stack); }] *)
Definition log_error (err : Exn) : Async unit :=
  if instanceof_Error err then call_sync (EvLogError (stack err)) (Ok ())
  else mret ().

Definition buildNamespace (language namespace : jsstring)
  : Async (Value Entry) :=
  translator ← call_sync (EvCreate language) (Translator_create language);
  try_catch
    (translations ←
       call (EvGetTranslation language namespace)
            (getTranslation translator namespace);
     if no_translations translations then await (fallback namespace)
     else
       let str := join [LF] (values translations) in
       let str := sanitize str in
       let titleMatch := exec re_title namespace in
       let title := title_key titleMatch in
       translatedTitle ←
         call (EvTranslate language title) (translate translator title);
       mret (Val (MkEntry namespace (str ++ [LF] ++ title)
                    (Some translatedTitle))))
    (λ err,
       log_error err;;
       mret (Val (MkEntry namespace [] None))).

Definition initDict (language : jsstring) : Awaited (list (Value Entry)) :=
  namespaces ← run getAdminNamespaces;
  promise_all (buildNamespace language <$> namespaces).

Definition getDictionary (language : jsstring)
  : Awaited (Value (list (Value Entry))) :=
  cached ← get_cache language;
  match cached with
  | Some dictionary => mret dictionary
  | None =>
      params ← initDict language;
      set_cache language params;;
      mret (Val params)
  end.

End Stateful.

End AdminSearch.
Export AdminSearch.

(** ** Auxiliary definitions

    What the statements and the proofs speak of: closed forms of what the
    matcher does on the module's patterns, the shapes of simplified text,
    the entries the functions return as functions of what the collaborators
    answer, the wording of two claims, and the hosts of the examples. *)

(** *** Scanning a text *)

(** The number of leading code units of [s] that satisfy [p]. *)
Fixpoint span_len (p : N → bool) (s : jsstring) : nat :=
  match s with
  | c :: t => if p c then S (span_len p t) else O
  | [] => O
  end.

(** Does [s] start with a code unit that satisfies [p]? *)
Definition head_is (p : N → bool) (s : jsstring) : bool :=
  match s with
  | c :: _ => p c
  | [] => false
  end.

(** The classes of the module's patterns, as predicates: [[ \t]], [[\n\r]],
    both, the dot, the braces, and [[a-zA-Z> ]]. *)
Definition is_blank (c : N) : bool := (c =? SPACE) || (c =? TAB).
Definition is_nl (c : N) : bool := (c =? LF) || (c =? CR).
Definition is_ws (c : N) : bool := is_blank c || is_nl c.
Definition is_dot (c : N) : bool := negb (is_line_terminator c).
Definition is_brace (c : N) : bool := (c =? LBRACE) || (c =? RBRACE).
Definition is_title_char (c : N) : bool :=
  ((97 <=? c) && (c <=? 122)) || ((65 <=? c) && (c <=? 90))
  || (c =? GT) || (c =? SPACE).

(** The state [k] code units further on. *)
Definition adv (k : nat) (st : mstate) : mstate :=
  MState (pos st + k) (drop k (rest st)) (caps st).

(** The state after a group that captured [k] code units. *)
Definition grp (i k : nat) (st : mstate) : mstate :=
  MState (pos st + k) (drop k (rest st)) ((i, take k (rest st)) :: caps st).

(** A matcher state [k] positions further on in a longer text. *)
Definition shift (k : nat) (st : mstate) : mstate :=
  MState (pos st + k) (rest st) (caps st).

(** Patterns without the anchor of the start. *)
Fixpoint bol_free (r : regex) : bool :=
  match r with
  | Eps | Chr _ | Eol => true
  | Bol => false
  | Seq r1 r2 | Alt r1 r2 => bol_free r1 && bol_free r2
  | Quant _ _ _ r' | Group _ r' => bol_free r'
  end.

(** The iterations of a starred class: every prefix of the leading run. *)
Definition counts (greedy : bool) (lo n : nat) : list nat :=
  if greedy then reverse (seq lo (S n - lo)) else seq lo (S n - lo).

(** One round of the line-break pattern: blanks, line breaks, blanks. *)
Definition re_break_round : regex :=
  cat [star (cls [One SPACE; One TAB]); plus (cls [One LF; One CR]);
       star (cls [One SPACE; One TAB])].

(** The states after the line breaks and the blanks of one round, in the
    order the matcher tries them. *)
Definition nl_blanks (st1 : mstate) : list mstate :=
  ((λ k, adv k st1) <$> counts true 1 (span_len is_nl (rest st1)))
    ≫= λ st2, (λ k, adv k st2) <$> counts true 0 (span_len is_blank (rest st2)).

(** The number of line breaks after the leading blanks. *)
Definition breaks_after_blanks (s : jsstring) : nat :=
  span_len is_nl (drop (span_len is_blank s) s).

(** *** Shapes of simplified text *)

(** Does an opening brace of [s] have a closing brace somewhere after it? *)
Fixpoint open_then_close (s : jsstring) : bool :=
  match s with
  | [] => false
  | c :: t => ((c =? LBRACE) && bool_decide (RBRACE ∈ t)) || open_then_close t
  end.

(** A text less its first code unit, if that is a closing brace. *)
Definition drop_rbrace (s : jsstring) : jsstring :=
  match s with
  | c :: t => if c =? RBRACE then t else s
  | [] => []
  end.

(** After the line breaks are collapsed: no carriage return is left and no
    line feed touches another white space. *)
Fixpoint broken (s : jsstring) : Prop :=
  match s with
  | [] => True
  | c :: t =>
      c ≠ CR ∧
      (c = LF → head_is is_ws t = false) ∧
      (is_ws c = true → head_is (N.eqb LF) t = false) ∧
      broken t
  end.

(** After the blanks are collapsed too: of the white space only single
    spaces and single line feeds are left, none next to another. *)
Fixpoint tidy (s : jsstring) : Prop :=
  match s with
  | [] => True
  | c :: t =>
      c ≠ CR ∧ c ≠ TAB ∧
      (is_ws c = true → head_is is_ws t = false) ∧
      tidy t
  end.

(** *** Entries, states and runs *)

(** The entry of a namespace whose build failed. *)
Definition degraded (ns : jsstring) : Entry := MkEntry ns [] None.

(** The state after the error handler of [buildNamespace] has logged. *)
Definition logged (err : Exn) (s : State) : State :=
  if instanceof_Error err then record (EvLogError (stack err)) s else s.

(** The operations a client runs one after the other. *)
Inductive Op : Type :=
| Build (language ns : jsstring)
| GetDictionary (language : jsstring).

Global Instance Event_eq_dec : EqDecision Event.
Proof. solve_decision. Defined.

(** The number of reads of [path] in a trace. *)
Definition reads_of (path : jsstring) (tr : list Event) : nat :=
  length (filter (λ ev, ev = EvReadFile path) tr).

(** The number of times a call to a collaborator is in a trace. *)
Definition count_event (ev : Event) (tr : list Event) : nat :=
  length (filter (λ e, e = ev) tr).

(** What the error handler of [buildNamespace] logs. *)
Definition log_events (err : Exn) : list Event :=
  if instanceof_Error err then [EvLogError (stack err)] else [].

Section HostDefinitions.
Context `{Host}.

(** The directory that is walked. *)
Definition admin_dir : jsstring := path_resolve views_dir (js "admin").

(** A text with the separators of the platform turned into slashes. *)
Definition to_slashes (s : jsstring) : jsstring :=
  match platform with
  | posix => s
  | win32 => (λ x, if BACKSLASH =? x then SLASH else x) <$> s
  end.

(** The segments of a namespace. *)
Definition segments_of (ns : jsstring) : list jsstring :=
  split (js "/") (replace_first (js "admin/") [] ns).

(** [str] with its first code unit in upper case. *)
Definition title_case (str : jsstring) : jsstring :=
  toUpperCase (take 1 str) ++ drop 1 str.

(** What the Fallback Builder computes for a namespace, cache aside. *)
Definition fallback_entry (ns : jsstring) : Result Entry :=
  template ← readFile (template_path ns);
  title ← nsToTitle ns;
  Ok (MkEntry ns
        (simplify (Translator_removePatterns (sanitize template))
           ++ [LF] ++ title)
        (Some title)).

(** What the Fallback Builder returns for a namespace: under a name of
    [Object.prototype] what the read of the cache finds there, else the
    entry it computes. *)
Definition fallback_value (ns : jsstring) : Result (Value Entry) :=
  if bool_decide (ns ∈ Object_prototype) then Ok (Inherited ns)
  else e ← fallback_entry ns; Ok (Val e).

(** The entry built from a non-empty translation table. *)
Definition translated_entry (ns : jsstring) (tbl : option Table)
    (translatedTitle : jsstring) : Entry :=
  MkEntry ns
    (sanitize (join [LF] (values tbl)) ++ [LF] ++ title_key (exec re_title ns))
    (Some translatedTitle).

(** The entry [buildNamespace] returns, as a function of what the
    collaborators answer. *)
Definition entry_of (translator : Translator) (ns : jsstring) : Value Entry :=
  match getTranslation translator ns with
  | Throw _ => Val (degraded ns)
  | Ok tbl =>
      if no_translations tbl then
        match fallback_value ns with
        | Ok v => v
        | Throw _ => Val (degraded ns)
        end
      else
        match translate translator (title_key (exec re_title ns)) with
        | Ok t => Val (translated_entry ns tbl t)
        | Throw _ => Val (degraded ns)
        end
  end.

(** Every read of the fallback cache finds what the Fallback Builder
    returns: the entries that are stored are the ones it computes, and none
    is stored under a name of [Object.prototype]. *)
Definition coherent (s : State) : Prop :=
  ∀ ns v, get_property (fallbackCache s) ns = Some v → fallback_value ns = Ok v.

(** What a read of [o] finds, a read of [o'] finds too. *)
Definition grows {A : Type} (o o' : gmap jsstring A) : Prop :=
  ∀ key v, get_property o key = Some v → get_property o' key = Some v.

(** [s'] is a later state than [s]: the caches only grow and the trace only
    gets longer. *)
Definition later (s s' : State) : Prop :=
  grows (fallbackCache s) (fallbackCache s') ∧ grows (cache s) (cache s') ∧
  trace s `prefix_of` trace s'.

(** What the builds under way since the state [s0] keep at every step: the
    dictionary cache is as it was, the trace has only got longer, and under
    each name the fallback cache is as it was or, where a read found nothing
    then, holds the entry the Fallback Builder computes. *)
Definition kept (s0 s : State) : Prop :=
  cache s = cache s0 ∧ trace s0 `prefix_of` trace s ∧
  ∀ ns, fallbackCache s !! ns = fallbackCache s0 !! ns ∨
        (get_property (fallbackCache s0) ns = None ∧
         ∃ e, fallback_entry ns = Ok e ∧ fallbackCache s !! ns = Some e).

(** What a build of the dictionary computes for a language, caches aside:
    the entries of the namespaces that are found, in their order; a
    translator is created only if there is a namespace. *)
Definition dictionary (language : jsstring) : Result (list (Value Entry)) :=
  dirs ← file_walk admin_dir;
  match filterDirectories dirs with
  | [] => Ok []
  | ns :: nss =>
      translator ← Translator_create language;
      Ok (entry_of translator <$> ns :: nss)
  end.

(** What [getDictionary] returns for a language: under a name of
    [Object.prototype] what the read of the cache finds there, else the
    dictionary that is built. *)
Definition dictionary_value (language : jsstring)
  : Result (Value (list (Value Entry))) :=
  if bool_decide (language ∈ Object_prototype) then Ok (Inherited language)
  else d ← dictionary language; Ok (Val d).

(** Every read of the dictionary cache finds what [getDictionary] returns. *)
Definition cache_coherent (s : State) : Prop :=
  ∀ language v,
    get_property (cache s) language = Some v → dictionary_value language = Ok v.

(** The state after one operation, and after a list of them, whatever
    they return. *)
Definition run_op (op : Op) (s : State) : State :=
  match op with
  | Build language ns => snd (buildNamespace language ns s)
  | GetDictionary language => snd (getDictionary language s)
  end.

Definition run_ops (ops : list Op) (s : State) : State :=
  foldl (λ s op, run_op op s) s ops.

(** *** Calls that interleave *)

(** The call [m] keeps the invariant [I] at each of its steps, whatever the
    other calls do in between as long as they keep it too, and if it is
    settled then with a result in [Q]. *)
Fixpoint safe {A : Type} (I : State → Prop) (Q : Result A → Prop)
    (m : Async A) : Prop :=
  match m with
  | Settled r => Q r
  | Access f k => ∀ s, I s → I (f s) ∧ safe I Q (k s)
  | Suspended k => safe I Q k
  end.

(** [e] is the rejection of one of the calls [ms], and there is none if no
    call of [ms] is rejected. *)
Definition rejection_of {A : Type} (ms : list (Async A)) (e : option Exn)
  : Prop :=
  match e with
  | Some err => Settled (Throw err) ∈ ms
  | None => ∀ err, Settled (Throw err) ∉ ms
  end.

(** *** The wording of two claims *)

(** The title as C8 words it: the prefix "admin/" dropped, the rest split on
    slashes, each segment title-cased, the segments joined with " > " and the
    code units other than letters, [>] and the space removed. *)
Definition nsToTitle_as_claimed (ns : jsstring) : jsstring :=
  filter (λ c, is_title_char c = true)
    (join (js " > ")
       (title_case <$>
          split (js "/")
            (if starts_with (js "admin/") ns then drop 6 ns else ns))).

End HostDefinitions.

(** The title key as C7 words it: the section token, with "development"
    replaced by "advanced", in both references. *)
Definition title_key_as_claimed (section page : jsstring) : jsstring :=
  let section' :=
    if bool_decide (section = js "development") then js "advanced"
    else section in
  js "[[admin/menu:section-" ++ section' ++ js "]]"
    ++ js " > [[admin/menu:" ++ section' ++ js "/" ++ page ++ js "]]".

(** *** Hosts and inputs of the examples *)

(** Upper case of the ASCII letters. *)
Definition upper_ascii (s : jsstring) : jsstring :=
  (λ c, if (97 <=? c) && (c <=? 122) then c - 32 else c) <$> s.

(** The error of a read of a file that does not exist. *)
Definition ENOENT : Exn :=
  MkExn true (js "Error: ENOENT: no such file or directory").

(** A POSIX host with its views under [/views]: [paths] is what the walk of
    the views finds, [files] maps the readable files to their text, every
    language has the translator [translator]; the texts of the examples
    hold no markup and no translation patterns; the builds of a
    [Promise.all], once started, run to their end one after the other. *)
Definition example_host (paths : list jsstring) (files : gmap jsstring jsstring)
    (translator : Translator) : Host :=
  MkHost posix (λ a b, a ++ [SLASH] ++ b) (js "/views")
    (λ _, Ok paths)
    (λ p, match files !! p with Some text => Ok text | None => Throw ENOENT end)
    id
    (λ _, Ok translator)
    id
    upper_ascii
    (λ _, []).

(** The translator that resolves a key to itself. *)
Definition example_translator (tables : jsstring → Result (option Table))
  : Translator :=
  MkTranslator tables (λ key, Ok key).

Definition en_GB : jsstring := js "en-GB".
Definition users_ns : jsstring := js "admin/manage/users".
Definition users_tpl : jsstring := js "/views/admin/manage/users.tpl".
Definition info_ns : jsstring := js "admin/development/info".
Definition info_key : jsstring :=
  js "[[admin/menu:section-advanced]] > [[admin/menu:development/info]]".

(** No translations and no readable template. *)
Definition host_unreadable : Host :=
  example_host [users_tpl] ∅ (example_translator (λ _, Ok None)).

(** No translations, the template is readable. *)
Definition host_template : Host :=
  example_host [users_tpl]
    {[ users_tpl := js "Users {{count}}" ++ [LF; LF] ++ js "  Search " ]}
    (example_translator (λ _, Ok None)).

(** A second path that [filterDirectories] turns into "admin/manage/users". *)
Definition users_copy_tpl : jsstring :=
  js "/views/admin/copy/admin/manage/users.tpl".

(** No translations, the template is readable, two paths with the same
    namespace; the two builds are resumed one after the other before either
    has come to its end. *)
Definition host_together : Host :=
  MkHost posix (λ a b, a ++ [SLASH] ++ b) (js "/views")
    (λ _, Ok [users_tpl; users_copy_tpl])
    (λ p, if bool_decide (p = users_tpl) then Ok (js "Users") else Throw ENOENT)
    id
    (λ _, Ok (example_translator (λ _, Ok None)))
    id
    upper_ascii
    (λ _, [0; 1]%nat).

(** A translator whose lookup throws. *)
Definition host_throwing : Host :=
  example_host [users_tpl] ∅
    (example_translator (λ _, Throw (MkExn true (js "Error: lookup")))).

(** A translator with a table for every namespace. *)
Definition host_translated : Host :=
  example_host [js "/views/admin/development/info.tpl"] ∅
    (example_translator
       (λ _, Ok (Some [(js "a", js "Info"); (js "b", js "Logs")]))).

(** A Windows host: the views are under [C:\views]. *)
Definition host_win32 : Host :=
  MkHost win32 (λ a b, a ++ [BACKSLASH] ++ b) (js "C:" ++ [BACKSLASH] ++ js "views")
    (λ _, Ok [js "C:" ++ [BACKSLASH] ++ js "views" ++ [BACKSLASH] ++ js "admin"
                ++ [BACKSLASH] ++ js "manage" ++ [BACKSLASH] ++ js "users.tpl"])
    (λ _, Throw ENOENT)
    id
    (λ _, Ok (example_translator (λ _, Ok None)))
    id
    upper_ascii
    (λ _, []).

(** A host whose views cannot be walked. *)
Definition host_no_views : Host :=
  MkHost posix (λ a b, a ++ [SLASH] ++ b) (js "/views")
    (λ _, Throw ENOENT)
    (λ _, Throw ENOENT)
    id
    (λ _, Ok (example_translator (λ _, Ok None)))
    id
    upper_ascii
    (λ _, []).

(** A host on which no translator can be created. *)
Definition host_no_translator : Host :=
  MkHost posix (λ a b, a ++ [SLASH] ++ b) (js "/views")
    (λ _, Ok [users_tpl])
    (λ _, Throw ENOENT)
    id
    (λ _, Throw (MkExn true (js "Error: no such language")))
    id
    upper_ascii
    (λ _, []).

(** The text of the specification's example for [simplify]. *)
Definition simplify_input : jsstring :=
  js "a {{b}} c" ++ [LF; LF] ++ js "  d " ++ [TAB] ++ js " e".

(** The paths of the specification's example for [filterDirectories]. *)
Definition example_paths : list jsstring :=
  [js "/x/admin/manage/users.tpl"; js "/x/admin/manage/users.js";
   js "/x/admin/partials/foo.tpl"; js "/x/admin/manage/category.tpl";
   js "/x/admin/general.tpl"].

(** ** Lemmas *)

Local Arguments N.eqb : simpl never.
Local Arguments N.leb : simpl never.
Local Arguments js : simpl never.

(** *** Quantifiers over a class *)

Lemma adv_0 st : adv 0 st = st.
Proof. destruct st; unfold adv; simpl. by rewrite Nat.add_0_r. Qed.

Lemma adv_adv j k st : adv j (adv k st) = adv (k + j) st.
Proof.
  unfold adv; simpl. rewrite drop_drop. f_equal; lia.
Qed.

Lemma span_len_le p s : (span_len p s ≤ length s)%nat.
Proof. induction s as [|c t IH]; simpl; [lia|]. destruct (p c); simpl; lia. Qed.

Lemma matches_Chr p st :
  matches (Chr p) st =
  match rest st with
  | c :: _ => if p c then [adv 1 st] else []
  | [] => []
  end.
Proof.
  simpl. destruct st as [n [|c t] cs]; simpl; [done|].
  destruct (p c); [|done]. unfold adv; simpl. by rewrite drop_0, Nat.add_1_r.
Qed.

Lemma adv_fmap_S st (l : list nat) :
  (λ k, adv k (adv 1 st)) <$> l = (λ k, adv k st) <$> (S <$> l).
Proof.
  rewrite <- list_fmap_compose. apply list_fmap_ext.
  intros _ k _. simpl. by rewrite adv_adv.
Qed.

Lemma rep_Chr_star p g fuel st :
  (length (rest st) < fuel)%nat →
  rep (matches (Chr p)) g fuel 0 None st =
  (λ k, adv k st) <$> counts g 0 (span_len p (rest st)).
Proof.
  revert st. induction fuel as [|fuel IH]; intros st Hf; [lia|].
  cbn [rep]. rewrite matches_Chr.
  destruct (rest st) as [|c t] eqn:Hr.
  - destruct g; cbn; by rewrite adv_0.
  - cbn [span_len]. destruct (p c) eqn:Hp.
    + assert (Ht : rest (adv 1 st) = t) by (simpl; by rewrite Hr).
      rewrite filter_cons_True by (simpl; lia).
      rewrite filter_nil, bind_singleton.
      cbn [fmap option_fmap option_map].
      rewrite IH by (rewrite Ht; simpl in Hf; lia).
      rewrite Ht. set (n := span_len p t). unfold counts.
      rewrite !Nat.sub_0_r, adv_fmap_S.
      destruct g.
      * rewrite fmap_reverse, fmap_S_seq.
        change (seq 0 (S (S n))) with (0%nat :: seq 1 (S n)).
        rewrite reverse_cons, fmap_app. simpl. by rewrite adv_0.
      * rewrite fmap_S_seq. simpl. by rewrite adv_0.
    + destruct g; cbn; by rewrite adv_0.
Qed.

Lemma rep_Chr p g lo fuel st :
  (lo + length (rest st) < fuel)%nat →
  rep (matches (Chr p)) g fuel lo None st =
  (λ k, adv k st) <$> counts g lo (span_len p (rest st)).
Proof.
  revert fuel st. induction lo as [|lo IH]; intros fuel st Hf.
  { by apply rep_Chr_star. }
  destruct fuel as [|fuel]; [lia|]. cbn [rep]. rewrite matches_Chr.
  destruct (rest st) as [|c t] eqn:Hr.
  - by destruct g.
  - cbn [span_len]. destruct (p c) eqn:Hp.
    + assert (Ht : rest (adv 1 st) = t) by (simpl; by rewrite Hr).
      rewrite bind_singleton. cbn [fmap option_fmap option_map].
      rewrite IH by (rewrite Ht; simpl in Hf; lia).
      rewrite Ht. set (n := span_len p t). unfold counts.
      replace (S (S n) - S lo)%nat with (S n - lo)%nat by lia.
      rewrite adv_fmap_S.
      destruct g; [rewrite fmap_reverse|]; by rewrite fmap_S_seq.
    + by destruct g.
Qed.

Lemma matches_Quant_Chr p g lo st :
  matches (Quant g lo None (Chr p)) st =
  (λ k, adv k st) <$> counts g lo (span_len p (rest st)).
Proof. cbn [matches]. apply rep_Chr. lia. Qed.

Lemma span_len_ext p q s : (∀ c, p c = q c) → span_len p s = span_len q s.
Proof. intros E. induction s as [|c t IH]; simpl; [done|]. by rewrite E, IH. Qed.

Lemma span_len_drop p s : span_len p (drop (span_len p s) s) = O.
Proof.
  induction s as [|c t IH]; simpl; [done|].
  destruct (p c) eqn:Hp; simpl; [done|]. by rewrite Hp.
Qed.

Lemma span_len_mono p q s :
  (∀ c, p c = true → q c = true) →
  span_len q s = (span_len p s + span_len q (drop (span_len p s) s))%nat.
Proof.
  intros Hpq. induction s as [|c t IH]; simpl; [done|].
  destruct (p c) eqn:Hp; simpl.
  - rewrite (Hpq _ Hp). by rewrite IH.
  - done.
Qed.

Lemma span_len_inside p q s k :
  (∀ c, p c = true → q c = false) →
  (k < span_len p s)%nat → span_len q (drop k s) = O.
Proof.
  intros Hpq. revert k. induction s as [|c t IH]; intros k Hk; simpl in *; [lia|].
  destruct (p c) eqn:Hp; [|lia].
  destruct k as [|k]; simpl.
  - by rewrite (Hpq _ Hp).
  - apply IH. lia.
Qed.

Lemma head_bind_cons {A B} (f : A → list B) x l y :
  head (f x) = Some y → head ((x :: l) ≫= f) = Some y.
Proof. intros Hy. by rewrite bind_cons, head_app, Hy. Qed.

Lemma bind_nil_all {A B} (f : A → list B) l :
  (∀ x, x ∈ l → f x = []) → l ≫= f = [].
Proof.
  induction l as [|x l IH]; intros Hf; [done|].
  rewrite bind_cons, Hf, IH; [done| |by left].
  intros y Hy. apply Hf. by right.
Qed.

Lemma counts_greedy_cons lo n :
  (lo ≤ n)%nat → counts true lo n = n :: counts true lo (Nat.pred n) ∨ lo = n ∧ counts true lo n = [n].
Proof.
  intros Hle. unfold counts.
  destruct (decide (lo = n)) as [->|Hne].
  - right. split; [done|]. replace (S n - n)%nat with 1%nat by lia. done.
  - left. replace (S n - lo)%nat with (S (n - lo)) by lia.
    rewrite seq_S, reverse_snoc. f_equal; [lia|]. f_equal. f_equal. lia.
Qed.

Lemma head_counts_greedy lo n :
  head (counts true lo n) = if decide (lo ≤ n)%nat then Some n else None.
Proof.
  case_decide as Hle.
  - destruct (counts_greedy_cons lo n Hle) as [->|[_ ->]]; done.
  - unfold counts. replace (S n - lo)%nat with O by lia. done.
Qed.

Lemma elem_of_counts g lo n k :
  k ∈ counts g lo n ↔ (lo ≤ k ≤ n)%nat.
Proof.
  unfold counts. destruct g; rewrite ?elem_of_reverse, elem_of_seq; lia.
Qed.

Lemma match_at_head r at_pos s :
  match_at r at_pos s =
  (λ st, RMatch (take (pos st - at_pos) s) (caps st))
    <$> head (matches r (MState at_pos s [])).
Proof. unfold match_at. by destruct (matches _ _). Qed.

Lemma cls_tab_space c : in_class [One TAB; One SPACE] c = is_blank c.
Proof. unfold in_class, is_blank; simpl. rewrite orb_false_r. apply orb_comm. Qed.
Lemma cls_space_tab c : in_class [One SPACE; One TAB] c = is_blank c.
Proof. unfold in_class, is_blank; simpl. by rewrite orb_false_r. Qed.
Lemma cls_lf_cr c : in_class [One LF; One CR] c = is_nl c.
Proof. unfold in_class, is_nl; simpl. by rewrite orb_false_r. Qed.

Lemma head_fmap {A B} (f : A → B) (l : list A) : head (f <$> l) = f <$> head l.
Proof. by destruct l. Qed.

Lemma match_at_blanks at_pos s :
  match_at re_blanks at_pos s =
  match span_len is_blank s with
  | O => None
  | S n => Some (RMatch (take (S n) s) [])
  end.
Proof.
  rewrite match_at_head. unfold re_blanks, plus, cls.
  rewrite matches_Quant_Chr. simpl rest.
  rewrite (span_len_ext _ is_blank) by apply cls_tab_space.
  rewrite head_fmap, head_counts_greedy.
  destruct (span_len is_blank s) as [|n]; [done|].
  rewrite decide_True by lia. simpl. do 3 f_equal. lia.
Qed.

(** *** One round of the line-break pattern *)

Lemma matches_Seq r1 r2 st : matches (Seq r1 r2) st = matches r1 st ≫= matches r2.
Proof. done. Qed.

Lemma is_blank_not_nl c : is_blank c = true → is_nl c = false.
Proof.
  unfold is_blank, is_nl, SPACE, TAB, LF, CR. intros Hb.
  apply orb_true_iff in Hb as [Hb|Hb]; apply N.eqb_eq in Hb; by subst.
Qed.

Lemma is_nl_not_blank c : is_nl c = true → is_blank c = false.
Proof.
  intros Hn. destruct (is_blank c) eqn:Hb; [|done].
  apply is_blank_not_nl in Hb. congruence.
Qed.

Lemma matches_star_cls items st :
  matches (star (cls items)) st =
  (λ k, adv k st) <$> counts true 0 (span_len (in_class items) (rest st)).
Proof. apply matches_Quant_Chr. Qed.

Lemma matches_plus_cls items st :
  matches (plus (cls items)) st =
  (λ k, adv k st) <$> counts true 1 (span_len (in_class items) (rest st)).
Proof. apply matches_Quant_Chr. Qed.

Lemma matches_nl_blanks st1 :
  matches (Seq (plus (cls [One LF; One CR])) (star (cls [One SPACE; One TAB]))) st1
  = nl_blanks st1.
Proof.
  unfold nl_blanks. rewrite matches_Seq, matches_plus_cls.
  rewrite (span_len_ext _ is_nl) by apply cls_lf_cr.
  induction (_ <$> counts true 1 _) as [|x l IH]; [done|].
  rewrite !bind_cons, IH. f_equal.
  rewrite matches_star_cls.
  by rewrite (span_len_ext _ is_blank) by apply cls_space_tab.
Qed.

Lemma matches_break_round_eq st :
  matches re_break_round st =
  nl_blanks (adv (span_len is_blank (rest st)) st).
Proof.
  unfold re_break_round. cbn [cat]. rewrite matches_Seq.
  set (b := span_len is_blank (rest st)).
  assert (Hnil : ∀ k, (k < b)%nat →
    matches (Seq (plus (cls [One LF; One CR])) (star (cls [One SPACE; One TAB])))
      (adv k st) = []).
  { intros k Hk. rewrite matches_nl_blanks. unfold nl_blanks. simpl rest.
    rewrite (span_len_inside is_blank is_nl) by (done || apply is_blank_not_nl).
    done. }
  rewrite matches_star_cls.
  rewrite (span_len_ext _ is_blank) by apply cls_space_tab. fold b.
  unfold counts. rewrite Nat.sub_0_r, seq_S, reverse_snoc, Nat.add_0_l.
  rewrite fmap_cons, bind_cons, bind_nil_all.
  - by rewrite app_nil_r, matches_nl_blanks.
  - intros x Hx. apply list_elem_of_fmap in Hx as (k & -> & Hk).
    apply elem_of_reverse, elem_of_seq in Hk. apply Hnil. lia.
Qed.

Lemma matches_break_round st :
  let s := rest st in
  let b := span_len is_blank s in
  let j := span_len is_nl (drop b s) in
  let b' := span_len is_blank (drop (b + j) s) in
  (j = O → matches re_break_round st = []) ∧
  (j ≠ O → head (matches re_break_round st) = Some (adv (b + j + b') st)).
Proof.
  intros s b j b'. rewrite matches_break_round_eq. unfold nl_blanks.
  simpl rest. fold s b j. split.
  - by intros ->.
  - intros Hj.
    destruct (counts_greedy_cons 1 j) as [Hc|[_ Hc]]; [lia|..]; rewrite Hc;
    rewrite fmap_cons; apply head_bind_cons;
    rewrite head_fmap, head_counts_greedy, decide_True by lia; simpl;
    rewrite !adv_adv; rewrite drop_drop; fold s b'; f_equal; f_equal; lia.
Qed.

(** *** The line-break pattern *)

Lemma span_len_ws_0 s :
  span_len is_blank s = O → span_len is_nl s = O → span_len is_ws s = O.
Proof.
  destruct s as [|c t]; simpl; [done|]. unfold is_ws.
  destruct (is_blank c), (is_nl c); simpl; done.
Qed.

Lemma span_len_ws_split s :
  let j := span_len is_nl s in
  let b := span_len is_blank (drop j s) in
  span_len is_ws s = (j + b + span_len is_ws (drop (j + b) s))%nat.
Proof.
  intros j b.
  rewrite (span_len_mono is_nl is_ws s)
    by (unfold is_ws; intros c ->; apply orb_true_r).
  fold j.
  rewrite (span_len_mono is_blank is_ws (drop j s))
    by (unfold is_ws; by intros c ->).
  fold b. rewrite drop_drop. lia.
Qed.

Lemma rep_round_star fuel st :
  (length (rest st) < fuel)%nat →
  span_len is_blank (rest st) = O →
  head (rep (matches re_break_round) true fuel 0 None st) =
  Some (adv (span_len is_ws (rest st)) st).
Proof.
  revert st. induction fuel as [|fuel IH]; intros st Hf Hb; [lia|].
  cbn [rep]. cbn [fmap option_fmap option_map].
  pose proof (matches_break_round st) as [H0 H1].
  rewrite Hb, drop_0 in H0. rewrite Hb, drop_0, !Nat.add_0_l in H1.
  destruct (decide (span_len is_nl (rest st) = O)) as [Hj|Hj].
  - rewrite (H0 Hj). simpl.
    by rewrite span_len_ws_0, adv_0.
  - specialize (H1 Hj).
    set (j := span_len is_nl (rest st)) in *.
    set (b := span_len is_blank (drop j (rest st))) in *.
    destruct (matches re_break_round st) as [|st1 l]; [done|].
    simpl in H1. injection H1 as ->.
    rewrite filter_cons_True by (simpl; lia).
    rewrite head_app, bind_cons, head_app.
    rewrite IH.
    + rewrite adv_adv. simpl rest. f_equal. f_equal.
      symmetry. apply span_len_ws_split.
    + pose proof (span_len_le is_nl (rest st)).
      simpl. rewrite length_drop. lia.
    + simpl. rewrite <- drop_drop. apply span_len_drop.
Qed.

Lemma re_line_breaks_eq : re_line_breaks = plus re_break_round.
Proof. done. Qed.

Lemma caps_adv k st : caps (adv k st) = caps st.
Proof. done. Qed.

Lemma match_at_line_breaks at_pos s :
  match_at re_line_breaks at_pos s =
  match span_len is_nl (drop (span_len is_blank s) s) with
  | O => None
  | S _ => Some (RMatch (take (span_len is_ws s) s) [])
  end.
Proof.
  rewrite match_at_head, re_line_breaks_eq. unfold plus. cbn [matches rep].
  cbn [fmap option_fmap option_map].
  set (st := MState at_pos s []).
  pose proof (matches_break_round st) as [H0 H1]. simpl rest in *.
  set (b := span_len is_blank s) in *.
  set (j := span_len is_nl (drop b s)) in *.
  set (b' := span_len is_blank (drop (b + j) s)) in *.
  destruct j as [|j'] eqn:Hj.
  - by rewrite H0.
  - specialize (H1 ltac:(done)).
    destruct (matches re_break_round st) as [|st1 l]; [done|].
    simpl in H1. injection H1 as ->.
    rewrite bind_cons, head_app, rep_round_star.
    + simpl. do 3 f_equal.
      rewrite (span_len_mono is_blank is_ws s) by (unfold is_ws; by intros c ->).
      fold b. rewrite (span_len_ws_split (drop b s)). fold j. rewrite Hj.
      rewrite !drop_drop. fold b'. replace (b + (S j' + b'))%nat with (b + S j' + b')%nat by lia. lia.
    + simpl. rewrite length_drop. lia.
    + simpl. rewrite <- drop_drop. apply span_len_drop.
Qed.

(** *** Global replacement *)

Section ReplaceAll.
Variables (r : regex) (tpl : list repl_item).

Lemma replace_all_from_skip at_pos s k :
  (k ≤ length s)%nat →
  replace_all_from r tpl at_pos s k =
  replace_all_from r tpl (at_pos + k) (drop k s) 0.
Proof.
  revert at_pos k. induction s as [|c t IH]; intros at_pos k Hk.
  - simpl in Hk. assert (k = O) as -> by lia. by rewrite Nat.add_0_r.
  - destruct k as [|k].
    + by rewrite Nat.add_0_r.
    + cbn [replace_all_from]. rewrite IH by (simpl in Hk; lia).
      simpl. f_equal. lia.
Qed.

Lemma length_matched at_pos s m :
  match_at r at_pos s = Some m → (length (matched m) ≤ length s)%nat.
Proof.
  unfold match_at. destruct (matches _ _); [done|].
  intros [= <-]. simpl. rewrite length_take. lia.
Qed.

Lemma replace_all_from_None at_pos c t :
  match_at r at_pos (c :: t) = None →
  replace_all_from r tpl at_pos (c :: t) 0 =
  c :: replace_all_from r tpl (S at_pos) t 0.
Proof. intros Hm. cbn [replace_all_from]. by rewrite Hm. Qed.

Lemma replace_all_from_Some at_pos s m k :
  match_at r at_pos s = Some m →
  length (matched m) = S k →
  replace_all_from r tpl at_pos s 0 =
  expand tpl m ++ replace_all_from r tpl (at_pos + S k) (drop (S k) s) 0.
Proof.
  intros Hm Hk. pose proof (length_matched _ _ _ Hm) as Hle.
  destruct s as [|c t]; [simpl in Hle; lia|].
  cbn [replace_all_from]. rewrite Hm, Hk. f_equal.
  rewrite replace_all_from_skip by (simpl in Hle; lia).
  simpl. f_equal. lia.
Qed.

(** Where the pattern matches nowhere the text is left as it is. *)
Lemma replace_all_from_no_match at_pos s :
  search r at_pos s = None → replace_all_from r tpl at_pos s 0 = s.
Proof.
  revert at_pos. induction s as [|c t IH]; intros at_pos Hs; simpl in Hs.
  - simpl. by destruct (match_at r at_pos []).
  - destruct (match_at r at_pos (c :: t)) eqn:Hm; [done|].
    rewrite replace_all_from_None by done. f_equal. apply IH.
    by destruct (search r (S at_pos) t) as [[[??]?]|].
Qed.

(** Induction on the scan of a pattern that never matches the empty
    string. *)
Lemma replace_all_from_ind (P : jsstring → jsstring → Prop) :
  (∀ at_pos s m, match_at r at_pos s = Some m → matched m ≠ []) →
  P [] [] →
  (∀ at_pos c t o,
     match_at r at_pos (c :: t) = None → P t o → P (c :: t) (c :: o)) →
  (∀ at_pos s m o,
     match_at r at_pos s = Some m →
     P (drop (length (matched m)) s) o → P s (expand tpl m ++ o)) →
  ∀ s at_pos, P s (replace_all_from r tpl at_pos s 0).
Proof.
  intros Hne Hnil Hskip Hmatch s.
  remember (length s) as n eqn:Hn. revert s Hn.
  induction n as [n IH] using lt_wf_ind. intros s Hn at_pos.
  destruct s as [|c t].
  - simpl. destruct (match_at r at_pos []) as [m|] eqn:Hm; [|done].
    destruct (Hne _ _ _ Hm). revert Hm. unfold match_at.
    destruct (matches _ _); [done|]. intros [= <-]. simpl. by rewrite take_nil.
  - destruct (match_at r at_pos (c :: t)) as [m|] eqn:Hm.
    + destruct (length (matched m)) as [|k] eqn:Hk.
      { destruct (Hne _ _ _ Hm). by apply nil_length_inv. }
      rewrite (replace_all_from_Some _ _ _ k) by done.
      apply Hmatch with at_pos; [done|]. rewrite Hk.
      eapply IH; [|done]. subst n. simpl. rewrite length_drop. lia.
    + rewrite replace_all_from_None by done.
      apply Hskip with at_pos; [done|]. eapply IH; [|done]. subst n. simpl. lia.
Qed.

End ReplaceAll.

(** *** What the white-space passes leave *)

Lemma span_len_0_head p s : span_len p s = O ↔ head_is p s = false.
Proof. destruct s as [|c t]; simpl; [done|]. destruct (p c); naive_solver. Qed.

Lemma head_is_drop_span p s : head_is p (drop (span_len p s) s) = false.
Proof. apply span_len_0_head, span_len_drop. Qed.

Lemma is_nl_cases c : is_nl c = true ↔ c = LF ∨ c = CR.
Proof. unfold is_nl. rewrite orb_true_iff, !N.eqb_eq. done. Qed.
Lemma is_blank_cases c : is_blank c = true ↔ c = SPACE ∨ c = TAB.
Proof. unfold is_blank. rewrite orb_true_iff, !N.eqb_eq. done. Qed.
Lemma is_ws_cases c : is_ws c = true ↔ is_blank c = true ∨ is_nl c = true.
Proof. unfold is_ws. by rewrite orb_true_iff. Qed.

Lemma breaks_after_blanks_blank c t :
  is_blank c = true → breaks_after_blanks (c :: t) = breaks_after_blanks t.
Proof. intros Hc. unfold breaks_after_blanks. simpl. by rewrite Hc. Qed.

Lemma breaks_after_blanks_nl c t :
  is_nl c = true → breaks_after_blanks (c :: t) = S (span_len is_nl t).
Proof.
  intros Hc. unfold breaks_after_blanks. simpl.
  rewrite (is_nl_not_blank _ Hc). simpl. by rewrite Hc.
Qed.

Lemma breaks_after_blanks_other c t :
  is_ws c = false → breaks_after_blanks (c :: t) = O.
Proof.
  unfold is_ws. intros [Hb Hn]%orb_false_iff. unfold breaks_after_blanks.
  simpl. rewrite Hb. simpl. by rewrite Hn.
Qed.

Lemma span_len_ws_breaks s :
  breaks_after_blanks s ≠ O → span_len is_ws s ≠ O.
Proof.
  destruct s as [|c t]; [done|]. intros Hj. simpl.
  destruct (is_ws c) eqn:Hc; [done|].
  by rewrite breaks_after_blanks_other in Hj.
Qed.

Lemma match_at_line_breaks' at_pos s :
  match_at re_line_breaks at_pos s =
  if decide (breaks_after_blanks s = O) then None
  else Some (RMatch (take (span_len is_ws s) s) []).
Proof.
  rewrite match_at_line_breaks. fold (breaks_after_blanks s).
  by destruct (breaks_after_blanks s).
Qed.

Lemma length_take_span p s : length (take (span_len p s) s) = span_len p s.
Proof. rewrite length_take. pose proof (span_len_le p s). lia. Qed.

Lemma line_breaks_broken s at_pos :
  broken (replace_all_from re_line_breaks [Lit [LF]] at_pos s 0).
Proof.
  enough (broken (replace_all_from re_line_breaks [Lit [LF]] at_pos s 0) ∧
          (head_is is_ws (replace_all_from re_line_breaks [Lit [LF]] at_pos s 0)
             = true → head_is is_ws s = true) ∧
          (head_is (N.eqb LF) (replace_all_from re_line_breaks [Lit [LF]] at_pos s 0)
             = true → breaks_after_blanks s ≠ O)) by tauto.
  revert s at_pos.
  apply (replace_all_from_ind re_line_breaks [Lit [LF]]
    (λ s o, broken o ∧ (head_is is_ws o = true → head_is is_ws s = true) ∧
            (head_is (N.eqb LF) o = true → breaks_after_blanks s ≠ O))).
  - intros at_pos s m. rewrite match_at_line_breaks'. case_decide as Hj; [done|].
    intros [= <-]. simpl. intros Hnil%(f_equal length).
    rewrite length_take_span in Hnil. by apply span_len_ws_breaks in Hj.
  - done.
  - intros at_pos c t o. rewrite match_at_line_breaks'.
    case_decide as Hj; [intros _|done]. intros (Ho & Hws & Hlf).
    assert (Hnl : is_nl c = false).
    { destruct (is_nl c) eqn:Hc; [|done]. by rewrite breaks_after_blanks_nl in Hj. }
    split_and!; [split_and!|..].
    + intros ->. done.
    + intros ->. done.
    + intros [Hb|Hn]%is_ws_cases; [|congruence].
      apply not_true_is_false. intros Hh.
      rewrite breaks_after_blanks_blank in Hj by done. by apply Hlf in Hh.
    + done.
    + done.
    + simpl. intros <-%N.eqb_eq. done.
  - intros at_pos s m o. rewrite match_at_line_breaks'.
    case_decide as Hj; [done|]. intros [= <-]. simpl matched.
    rewrite length_take_span. intros (Ho & Hws & Hlf).
    assert (Hh : head_is is_ws o = false).
    { apply not_true_is_false. intros Hh.
      apply Hws in Hh. by rewrite head_is_drop_span in Hh. }
    change (expand [Lit [LF]] _) with [LF]. simpl app.
    split_and!; [split_and!|..]; try done.
    + intros _. destruct o as [|c' o']; [done|]. simpl in *.
      destruct (LF =? c') eqn:Hc; [|done]. apply N.eqb_eq in Hc as <-. done.
    + intros _. apply span_len_ws_breaks in Hj.
      destruct (head_is is_ws s) eqn:Hs; [done|].
      by apply span_len_0_head in Hs.
Qed.

Lemma broken_drop k s : broken s → broken (drop k s).
Proof.
  revert s. induction k as [|k IH]; intros s Hs; [by rewrite drop_0|].
  destruct s as [|c t]; [done|]. simpl. apply IH. by destruct Hs as (_ & _ & _ & Ht).
Qed.

Lemma broken_after_blanks s :
  broken s → span_len is_blank s ≠ O →
  head_is is_ws (drop (span_len is_blank s) s) = false.
Proof.
  induction s as [|c t IH]; [done|]. simpl. intros (Hcr & Hlf & Hws & Ht) Hn.
  destruct (is_blank c) eqn:Hc; [|done]. simpl.
  destruct (span_len is_blank t) as [|n] eqn:Hsp.
  - rewrite drop_0. destruct t as [|c' t']; [done|]. simpl in *.
    destruct (is_blank c') eqn:Hb'; [done|].
    destruct Ht as (Hcr' & _).
    unfold is_ws. rewrite Hb'. simpl.
    destruct (is_nl c') eqn:Hn'; [|done].
    apply is_nl_cases in Hn' as [->| ->]; [|done].
    assert (is_ws c = true) as Hwc by (unfold is_ws; by rewrite Hc).
    apply Hws in Hwc. done.
  - apply IH; [done|]. lia.
Qed.

Lemma blanks_tidy s at_pos :
  broken s → tidy (replace_all_from re_blanks [Lit [SPACE]] at_pos s 0).
Proof.
  enough (broken s →
          tidy (replace_all_from re_blanks [Lit [SPACE]] at_pos s 0) ∧
          (head_is is_ws (replace_all_from re_blanks [Lit [SPACE]] at_pos s 0)
             = true → head_is is_ws s = true)) by tauto.
  revert s at_pos.
  apply (replace_all_from_ind re_blanks [Lit [SPACE]]
    (λ s o, broken s →
            tidy o ∧ (head_is is_ws o = true → head_is is_ws s = true))).
  - intros at_pos s m. rewrite match_at_blanks.
    destruct (span_len is_blank s) as [|n] eqn:Hn; [done|].
    intros [= <-]. simpl matched. intros Hnil%(f_equal length).
    rewrite <- Hn, length_take_span in Hnil. simpl in Hnil. lia.
  - done.
  - intros at_pos c t o. rewrite match_at_blanks.
    destruct (span_len is_blank (c :: t)) as [|n] eqn:Hn; [intros _|done].
    intros IH (Hcr & Hlf & Hws & Ht). destruct (IH Ht) as [Ho Hlink].
    apply span_len_0_head in Hn. simpl in Hn.
    split; [|done]. simpl. split_and!; try done.
    + intros ->. done.
    + intros [Hb|[->| ->]%is_nl_cases]%is_ws_cases; [congruence| |done].
      apply not_true_is_false. intros Hh.
      apply Hlink in Hh. by rewrite Hlf in Hh.
  - intros at_pos s m o. rewrite match_at_blanks.
    destruct (span_len is_blank s) as [|n] eqn:Hn; [done|].
    intros [= <-]. simpl matched. rewrite <- Hn, length_take_span.
    intros IH Hs. destruct (IH (broken_drop _ _ Hs)) as [Ho Hlink].
    change (expand [Lit [SPACE]] _) with [SPACE]. simpl app.
    split.
    + simpl. split_and!; try done.
      intros _. apply not_true_is_false. intros Hh.
      apply Hlink in Hh. rewrite broken_after_blanks in Hh; [done..|lia].
    + intros _. destruct (head_is is_ws s) eqn:Hh; [done|].
      destruct s as [|c t]; [done|]. simpl in *. unfold is_ws in Hh.
      destruct (is_blank c); done.
Qed.

(** On tidy text the two white-space passes change nothing. *)
Lemma line_breaks_tidy_id s at_pos :
  tidy s → replace_all_from re_line_breaks [Lit [LF]] at_pos s 0 = s.
Proof.
  revert at_pos. induction s as [|c t IH]; intros at_pos Hs.
  - cbn [replace_all_from]. by rewrite match_at_line_breaks'.
  - destruct Hs as (Hcr & Htab & Hws & Ht).
    destruct (is_ws c) eqn:Hc.
    + specialize (Hws eq_refl).
      apply is_ws_cases in Hc as [Hb|[->| ->]%is_nl_cases]; [| |done].
      * rewrite replace_all_from_None; [by rewrite IH|].
        rewrite match_at_line_breaks', decide_True; [done|].
        rewrite breaks_after_blanks_blank by done.
        destruct t as [|c' t']; [done|].
        apply breaks_after_blanks_other. done.
      * assert (Hsp : span_len is_ws (LF :: t) = 1%nat).
        { simpl. f_equal. by apply span_len_0_head. }
        rewrite (replace_all_from_Some _ _ _ _ (RMatch [LF] []) 0).
        -- simpl. rewrite drop_0. f_equal. by apply IH.
        -- rewrite match_at_line_breaks', decide_False.
           ++ by rewrite Hsp.
           ++ by rewrite breaks_after_blanks_nl.
        -- done.
    + rewrite replace_all_from_None; [by rewrite IH|].
      rewrite match_at_line_breaks', decide_True; [done|].
      by apply breaks_after_blanks_other.
Qed.

Lemma blanks_tidy_id s at_pos :
  tidy s → replace_all_from re_blanks [Lit [SPACE]] at_pos s 0 = s.
Proof.
  revert at_pos. induction s as [|c t IH]; intros at_pos Hs.
  - cbn [replace_all_from]. by rewrite match_at_blanks.
  - destruct Hs as (Hcr & Htab & Hws & Ht).
    destruct (is_blank c) eqn:Hc.
    + assert (is_ws c = true) as Hwc by (unfold is_ws; by rewrite Hc).
      specialize (Hws Hwc).
      apply is_blank_cases in Hc as [->| ->]; [|done].
      assert (Hsp : span_len is_blank (SPACE :: t) = 1%nat).
      { simpl. f_equal. apply span_len_0_head.
        destruct t as [|c' t']; [done|]. simpl in *. unfold is_ws in Hws.
        by destruct (is_blank c'). }
      rewrite (replace_all_from_Some _ _ _ _ (RMatch [SPACE] []) 0).
      * simpl. rewrite drop_0. f_equal. by apply IH.
      * by rewrite match_at_blanks, Hsp.
      * done.
    + rewrite replace_all_from_None; [by rewrite IH|].
      rewrite match_at_blanks. simpl. by rewrite Hc.
Qed.

Lemma simplify_tidy x : tidy (simplify x).
Proof. apply blanks_tidy, line_breaks_broken. Qed.

Lemma test_false_search r s : test r s = false → search r 0 s = None.
Proof.
  unfold test, exec. intros Ht%bool_decide_eq_false.
  destruct (search r 0 s) as [[[??]?]|]; [|done].
  destruct Ht. by eexists.
Qed.

(** *** Replacement of single code units *)

(** A pattern of a single class. *)
Lemma match_at_Chr p at_pos s :
  match_at (Chr p) at_pos s =
  match s with
  | c :: _ => if p c then Some (RMatch [c] []) else None
  | [] => None
  end.
Proof.
  unfold match_at. simpl. destruct s as [|c t]; [done|].
  destruct (p c); [|done]. simpl.
  replace (S at_pos - at_pos)%nat with 1%nat by lia. done.
Qed.

Lemma replace_all_Chr p rep s at_pos :
  replace_all_from (Chr p) [Lit rep] at_pos s 0 =
  s ≫= λ c, if p c then rep else [c].
Proof.
  revert at_pos. induction s as [|c t IH]; intros at_pos.
  - cbn [replace_all_from]. by rewrite match_at_Chr.
  - rewrite bind_cons. destruct (p c) eqn:Hc.
    + rewrite (replace_all_from_Some _ _ _ _ (RMatch [c] []) 0);
        [|by rewrite match_at_Chr, Hc|done].
      simpl. rewrite app_nil_r, drop_0. f_equal. apply IH.
    + rewrite replace_all_from_None by (by rewrite match_at_Chr, Hc).
      simpl. f_equal. apply IH.
Qed.

Lemma replace_not_title_char s :
  replace_all re_not_title_char [Lit [SPACE]] s =
  (λ c, if is_title_char c then c else SPACE) <$> s.
Proof.
  unfold replace_all, re_not_title_char, ncls. rewrite replace_all_Chr.
  induction s as [|c t IH]; [done|]. rewrite bind_cons, fmap_cons, IH.
  assert (in_class [Range 97 122; Range 65 90; One GT; One SPACE] c
          = is_title_char c) as ->.
  { unfold in_class, is_title_char. simpl. by rewrite orb_false_r, !orb_assoc. }
  by destruct (is_title_char c).
Qed.

(** *** Splitting on a single code unit *)

Lemma starts_with_1 c s : starts_with [c] s = head_is (N.eqb c) s.
Proof. destruct s as [|x t]; simpl; [done|]. by rewrite andb_true_r. Qed.

Lemma join_cons sep x l :
  l ≠ [] → join sep (x :: l) = x ++ sep ++ join sep l.
Proof. by destruct l. Qed.

Lemma split_go_not_nil sep s k cur : split_go sep s k cur ≠ [].
Proof.
  revert k cur. induction s as [|c t IH]; intros k cur; simpl; [done|].
  destruct k; [|done]. by destruct (starts_with sep (c :: t)).
Qed.

(** Joining the segments gives the text back, and no segment contains the
    separator. *)
Lemma join_split_go c s cur :
  join [c] (split_go [c] s 0 cur) = cur ++ s.
Proof.
  revert cur. induction s as [|x t IH]; intros cur.
  - simpl. by rewrite app_nil_r.
  - cbn [split_go]. rewrite starts_with_1. cbn [head_is length Nat.sub].
    destruct (c =? x) eqn:Hx.
    + apply N.eqb_eq in Hx as <-.
      rewrite join_cons by apply split_go_not_nil. by rewrite IH.
    + rewrite IH. by rewrite <- app_assoc.
Qed.

Lemma split_go_segments c s cur :
  c ∉ cur → Forall (λ seg, c ∉ seg) (split_go [c] s 0 cur).
Proof.
  revert cur. induction s as [|x t IH]; intros cur Hcur.
  - by constructor.
  - cbn [split_go]. rewrite starts_with_1. cbn [head_is length Nat.sub].
    destruct (c =? x) eqn:Hx.
    + constructor; [done|]. apply IH. apply not_elem_of_nil.
    + apply IH. apply N.eqb_neq in Hx.
      rewrite elem_of_app, list_elem_of_singleton. by intros [|].
Qed.

Lemma join_split c s : join [c] (split [c] s) = s.
Proof. apply (join_split_go c s []). Qed.

Lemma split_segments c s : Forall (λ seg, c ∉ seg) (split [c] s).
Proof. apply split_go_segments, not_elem_of_nil. Qed.

(** *** Titles *)

Lemma Result_bind_Ok {A B} (f : A → Result B) a : Ok a ≫= f = f a.
Proof. done. Qed.
Lemma Result_bind_Throw {A B} (f : A → Result B) e : Throw e ≫= f = Throw e.
Proof. done. Qed.

Section Title.
Context `{Host}.

Lemma capitalize_Ok str : str ≠ [] → capitalize str = Ok (title_case str).
Proof. by destruct str. Qed.

Lemma array_map_capitalize_Ok segs :
  [] ∉ segs → array_map capitalize segs = Ok (title_case <$> segs).
Proof.
  induction segs as [|x l IH]; intros Hne; [done|].
  cbn [array_map]. rewrite capitalize_Ok by (intros ->; apply Hne; by left).
  cbn. rewrite IH; [done|]. intros Hl. apply Hne. by right.
Qed.

Lemma array_map_capitalize_Throw segs :
  [] ∈ segs →
  array_map capitalize segs = Throw (TypeError_undefined "toUpperCase").
Proof.
  induction segs as [|x l IH]; intros Hin; [by apply elem_of_nil in Hin|].
  cbn [array_map]. destruct x as [|c x]; [done|].
  cbn. rewrite IH; [done|]. by apply elem_of_cons in Hin as [|].
Qed.

Lemma nsToTitle_Throw ns :
  [] ∈ segments_of ns →
  nsToTitle ns = Throw (TypeError_undefined "toUpperCase").
Proof.
  intros Hin. unfold nsToTitle. fold (segments_of ns).
  by rewrite array_map_capitalize_Throw.
Qed.

Lemma nsToTitle_Ok ns :
  [] ∉ segments_of ns →
  nsToTitle ns =
  Ok ((λ c, if is_title_char c then c else SPACE)
        <$> join (js " > ") (title_case <$> segments_of ns)).
Proof.
  intros Hin. unfold nsToTitle. fold (segments_of ns).
  rewrite array_map_capitalize_Ok, Result_bind_Ok by done.
  by rewrite replace_not_title_char.
Qed.

End Title.

(** *** The title pattern *)

Lemma matches_lit1 c st :
  matches (lit1 c) st =
  if head_is (N.eqb c) (rest st) then [adv 1 st] else [].
Proof.
  unfold lit1. rewrite matches_Chr. by destruct (rest st).
Qed.

Lemma starts_with_app w s : starts_with w (w ++ s) = true.
Proof. induction w as [|c w IH]; simpl; [done|]. by rewrite N.eqb_refl, IH. Qed.

Lemma matches_word w st :
  matches (word w) st =
  if starts_with w (rest st) then [adv (length w) st] else [].
Proof.
  revert st. induction w as [|c w IH]; intros st.
  - simpl. by rewrite adv_0.
  - destruct w as [|c' w'].
    + change (word [c]) with (lit1 c). rewrite matches_lit1, starts_with_1. done.
    + change (word (c :: c' :: w')) with (Seq (lit1 c) (word (c' :: w'))).
      rewrite matches_Seq, matches_lit1.
      destruct (rest st) as [|x t] eqn:Hr; [done|]. cbn [head_is].
      change (starts_with (c :: c' :: w') (x :: t))
        with ((c =? x) && starts_with (c' :: w') t).
      destruct (c =? x); [|done]. rewrite bind_singleton, IH.
      cbn [andb]. simpl rest. rewrite Hr, skipn_cons, drop_0.
      destruct (starts_with (c' :: w') t); [|done].
      by rewrite adv_adv.
Qed.

Lemma matches_Group_plus_lazy_dot i st :
  matches (Group i (plus_lazy dot)) st =
  (λ k, grp i k st) <$> seq 1 (span_len is_dot (rest st)).
Proof.
  cbn [matches]. fold (matches (plus_lazy dot) st).
  unfold plus_lazy, dot. rewrite matches_Quant_Chr. fold is_dot.
  unfold counts. rewrite <- list_fmap_compose.
  replace (S (span_len is_dot (rest st)) - 1)%nat
    with (span_len is_dot (rest st)) by lia.
  apply list_fmap_ext. intros _ k _. unfold grp. simpl.
  by replace (pos st + k - pos st)%nat with k by lia.
Qed.

Lemma matches_Eol st :
  matches Eol st = match rest st with [] => [st] | _ => [] end.
Proof. done. Qed.

(** Every match of the title pattern captures a non-empty section and a
    non-empty page. *)
Lemma matches_re_title_caps st st' :
  st' ∈ matches re_title st →
  ∃ section page,
    section ≠ [] ∧ page ≠ [] ∧ caps st' = (2%nat, page) :: (1%nat, section) :: caps st.
Proof.
  unfold re_title. cbn [cat]. rewrite matches_Seq.
  intros (st1 & Hst' & H1)%list_elem_of_bind.
  rewrite matches_word in H1.
  destruct (starts_with _ _); [|by apply elem_of_nil in H1].
  apply list_elem_of_singleton in H1 as ->.
  rewrite matches_Seq in Hst'.
  apply list_elem_of_bind in Hst' as (st2 & Hst' & H2).
  rewrite matches_Group_plus_lazy_dot in H2.
  apply list_elem_of_fmap in H2 as (k1 & -> & Hk1%elem_of_seq).
  rewrite matches_Seq in Hst'.
  apply list_elem_of_bind in Hst' as (st3 & Hst' & H3).
  rewrite matches_lit1 in H3.
  destruct (head_is _ _); [|by apply elem_of_nil in H3].
  apply list_elem_of_singleton in H3 as ->.
  rewrite matches_Seq in Hst'.
  apply list_elem_of_bind in Hst' as (st4 & Hst' & H4).
  rewrite matches_Group_plus_lazy_dot in H4.
  apply list_elem_of_fmap in H4 as (k2 & -> & Hk2%elem_of_seq).
  rewrite matches_Eol in Hst'.
  destruct (rest _); [|by apply elem_of_nil in Hst'].
  apply list_elem_of_singleton in Hst' as ->.
  eexists _, _. split_and!; [..|done].
  - intros Hnil%(f_equal length). rewrite length_take in Hnil.
    change (length []) with O in Hnil.
    pose proof (span_len_le is_dot (rest (adv (length (js "admin/")) st))). lia.
  - intros Hnil%(f_equal length). rewrite length_take in Hnil.
    change (length []) with O in Hnil.
    pose proof (span_len_le is_dot
      (rest (adv 1 (grp 1 k1 (adv (length (js "admin/")) st))))). lia.
Qed.

Lemma search_Some r at_pos s skipped m after :
  search r at_pos s = Some (skipped, m, after) →
  ∃ i, match_at r (at_pos + i) (drop i s) = Some m.
Proof.
  revert at_pos skipped m after.
  induction s as [|c t IH]; intros at_pos skipped m after; simpl.
  - destruct (match_at r at_pos []) eqn:Hm; [|done]. intros [= _ <- _].
    exists O. by rewrite Nat.add_0_r.
  - destruct (match_at r at_pos (c :: t)) eqn:Hm.
    + intros [= _ <- _]. exists O. by rewrite Nat.add_0_r.
    + destruct (search r (S at_pos) t) as [[[sk m'] af]|] eqn:Hs; [|done].
      intros [= _ <- _]. destruct (IH _ _ _ _ Hs) as [i Hi].
      exists (S i). simpl. by rewrite <- Nat.add_succ_comm.
Qed.

Lemma exec_re_title_groups ns m :
  exec re_title ns = Some m →
  ∃ section page,
    section ≠ [] ∧ page ≠ [] ∧ groups m = [(2%nat, page); (1%nat, section)].
Proof.
  unfold exec. destruct (search re_title 0 ns) as [[[sk m'] af]|] eqn:Hs; [|done].
  intros [= ->]. apply search_Some in Hs as [i Hi].
  unfold match_at in Hi.
  destruct (matches re_title _) as [|st' l] eqn:Hm; [done|].
  injection Hi as <-. simpl.
  apply (matches_re_title_caps (MState (0 + i) (drop i ns) [])).
  rewrite Hm. by left.
Qed.

(** A namespace of the usual form [admin/<section>/<page>]. *)
Lemma head_bind_first {A B} (f : A → list B) l1 x l2 y :
  (∀ z, z ∈ l1 → f z = []) → head (f x) = Some y →
  head ((l1 ++ x :: l2) ≫= f) = Some y.
Proof.
  intros Hnil Hx. rewrite bind_app, (bind_nil_all f l1) by done.
  by apply head_bind_cons.
Qed.

Lemma seq_split a k n :
  (a ≤ k < a + n)%nat →
  seq a n = seq a (k - a) ++ k :: seq (S k) (a + n - S k).
Proof.
  intros Hk. assert (n = (k - a) + S (a + n - S k))%nat as Hn by lia.
  rewrite Hn at 1. rewrite seq_app. f_equal. simpl.
  by replace (a + (k - a))%nat with k by lia.
Qed.

Lemma span_len_all p s : Forall (λ c, p c = true) s → span_len p s = length s.
Proof. induction 1 as [|c t Hc _ IH]; simpl; [done|]. by rewrite Hc, IH. Qed.

Lemma span_len_app_ge p s t :
  Forall (λ c, p c = true) s → (length s ≤ span_len p (s ++ t))%nat.
Proof. induction 1 as [|c s' Hc _ IH]; simpl; [lia|]. rewrite Hc. lia. Qed.

Lemma match_at_re_title_standard section page :
  section ≠ [] → page ≠ [] → SLASH ∉ section →
  Forall (λ c, is_dot c = true) section → Forall (λ c, is_dot c = true) page →
  match_at re_title 0 (js "admin/" ++ section ++ SLASH :: page) =
  Some (RMatch (js "admin/" ++ section ++ SLASH :: page)
               [(2%nat, page); (1%nat, section)]).
Proof.
  intros Hs Hp Hslash Hds Hdp.
  set (ns := js "admin/" ++ section ++ SLASH :: page).
  rewrite match_at_head. unfold re_title. cbn [cat].
  assert (Hsw : starts_with (js "admin/") ns = true) by apply starts_with_app.
  rewrite matches_Seq, matches_word.
  change (rest (MState 0 ns [])) with ns. rewrite Hsw, bind_singleton.
  remember (adv (length (js "admin/")) (MState 0 ns [])) as st1 eqn:Hst1.
  assert (Hr1 : rest st1 = section ++ SLASH :: page)
    by (subst st1; unfold ns; cbn [adv rest]; apply drop_app_length).
  assert (Hp1 : pos st1 = length (js "admin/")) by (by subst st1).
  assert (Hc1 : caps st1 = []) by (by subst st1).
  clear Hst1.
  rewrite matches_Seq, matches_Group_plus_lazy_dot, Hr1.
  set (n := span_len is_dot (section ++ SLASH :: page)).
  set (k := length section).
  assert (Hk : (1 ≤ k ≤ n)%nat).
  { split; [unfold k; destruct section; [done|simpl; lia]|by apply span_len_app_ge]. }
  rewrite (seq_split 1 k n) by lia.
  rewrite fmap_app, fmap_cons.
  set (final := MState (length ns) [] [(2%nat, page); (1%nat, section)]).
  rewrite (head_bind_first _ _ _ _ final).
  - cbn [fmap option_fmap option_map]. unfold final. cbn [pos caps].
    by rewrite Nat.sub_0_r, firstn_all.
  - intros st2 (j & -> & Hj%elem_of_seq)%list_elem_of_fmap.
    rewrite matches_Seq, matches_lit1. cbn [rest grp]. rewrite Hr1.
    assert (Hh : head_is (N.eqb SLASH) (drop j (section ++ SLASH :: page)) = false).
    { rewrite drop_app_le by (fold k; lia).
      destruct (drop j section) as [|c t] eqn:Hd.
      - apply (f_equal length) in Hd. rewrite length_drop in Hd. simpl in Hd.
        fold k in Hd. lia.
      - simpl. apply N.eqb_neq. intros <-. apply Hslash.
        apply (subseteq_drop j section). rewrite Hd. by left. }
    by rewrite Hh.
  - rewrite matches_Seq, matches_lit1. cbn [rest grp]. rewrite Hr1.
    unfold k. rewrite drop_app_length. cbn [head_is]. rewrite N.eqb_refl.
    rewrite bind_singleton, matches_Seq, matches_Group_plus_lazy_dot.
    cbn [rest grp adv]. rewrite Hr1, drop_app_length, skipn_cons, drop_0.
    rewrite span_len_all by done.
    set (k' := length page).
    assert (Hk' : (1 ≤ k')%nat) by (unfold k'; destruct page; [done|simpl; lia]).
    rewrite (seq_split 1 k' k') by lia.
    rewrite fmap_app, fmap_cons. apply head_bind_first.
    + intros st4 (j & -> & Hj%elem_of_seq)%list_elem_of_fmap.
      rewrite matches_Eol. cbn [rest grp adv].
      rewrite Hr1, drop_app_length, skipn_cons, drop_0.
      destruct (drop j page) eqn:Hd; [|done].
      apply (f_equal length) in Hd. rewrite length_drop in Hd. simpl in Hd.
      fold k' in Hd. lia.
    + rewrite matches_Eol. cbn [rest grp adv].
      rewrite Hr1, drop_app_length, skipn_cons, drop_0.
      unfold k'. rewrite drop_all. cbn [head]. unfold final, grp, adv.
      cbn [pos rest caps].
      rewrite Hr1, Hp1, Hc1, drop_app_length, take_app_length, skipn_cons, drop_0.
      rewrite firstn_all. f_equal.
      f_equal; [unfold ns; rewrite !length_app; simpl; lia|apply drop_all].
Qed.

Lemma exec_re_title_standard section page :
  section ≠ [] → page ≠ [] → SLASH ∉ section →
  Forall (λ c, is_dot c = true) section → Forall (λ c, is_dot c = true) page →
  exec re_title (js "admin/" ++ section ++ SLASH :: page) =
  Some (RMatch (js "admin/" ++ section ++ SLASH :: page)
               [(2%nat, page); (1%nat, section)]).
Proof.
  intros. unfold exec.
  assert (search re_title 0 (js "admin/" ++ section ++ SLASH :: page) =
    Some ([], RMatch (js "admin/" ++ section ++ SLASH :: page)
               [(2%nat, page); (1%nat, section)], [])) as ->; [|done].
  change (js "admin/" ++ section ++ SLASH :: page)
    with (97 :: (js "dmin/" ++ section ++ SLASH :: page)) at 1.
  cbn [search].
  change (97 :: (js "dmin/" ++ section ++ SLASH :: page))
    with (js "admin/" ++ section ++ SLASH :: page).
  rewrite match_at_re_title_standard by done. simpl matched.
  by rewrite drop_all.
Qed.

(** *** Calls that run to their end *)

Lemma run_bind {A B : Type} (m : Async A) (f : A → Async B) s :
  run (m ≫= f) s =
  match run m s with
  | (Ok a, s') => run (f a) s'
  | (Throw e, s') => (Throw e, s')
  end.
Proof.
  unfold mbind, Async_bind. revert s.
  induction m as [[a|e]|g k IH|k IH]; intros s; simpl; auto.
Qed.

Lemma run_try_catch {A : Type} (m : Async A) (h : Exn → Async A) s :
  run (try_catch m h) s =
  match run m s with
  | (Ok a, s') => (Ok a, s')
  | (Throw e, s') => run (h e) s'
  end.
Proof. revert s. induction m as [[a|e]|g k IH|k IH]; intros s; simpl; auto. Qed.

Lemma run_await {A : Type} (m : Async A) s : run (await m) s = run m s.
Proof. revert s. induction m as [r|g k IH|k IH]; intros s; simpl; auto. Qed.

Lemma run_call {A : Type} ev (r : Result A) s : run (call ev r) s = (r, record ev s).
Proof. done. Qed.

Lemma run_call_sync {A : Type} ev (r : Result A) s :
  run (call_sync ev r) s = (r, record ev s).
Proof. done. Qed.

(** *** Calls that interleave *)

Section Safe.
Context {A : Type} (I : State → Prop).
Implicit Types (Q : Result A → Prop) (m : Async A).
Implicit Types (Qs : list (Result A → Prop)) (ps ms : list (Async A)).

Lemma safe_mono Q Q' m : (∀ r, Q r → Q' r) → safe I Q m → safe I Q' m.
Proof.
  intros HQ. induction m as [r|g k IH|k IH]; simpl; [auto| |auto].
  intros Hm s Hs. destruct (Hm s Hs). auto.
Qed.

Lemma safe_bind {B : Type} (Q1 : Result A → Prop) (Q : Result B → Prop)
    m (f : A → Async B) :
  safe I Q1 m →
  (∀ a, Q1 (Ok a) → safe I Q (f a)) →
  (∀ e, Q1 (Throw e) → Q (Throw e)) →
  safe I Q (m ≫= f).
Proof.
  intros Hm Hf He. unfold mbind, Async_bind.
  induction m as [[a|e]|g k IH|k IH]; simpl in *; [auto..| |auto].
  intros s Hs. destruct (Hm s Hs). auto.
Qed.

Lemma safe_try_catch Q1 Q m (h : Exn → Async A) :
  safe I Q1 m →
  (∀ a, Q1 (Ok a) → Q (Ok a)) →
  (∀ e, Q1 (Throw e) → safe I Q (h e)) →
  safe I Q (try_catch m h).
Proof.
  intros Hm Ha Hh.
  induction m as [[a|e]|g k IH|k IH]; simpl in *; [auto..| |auto].
  intros s Hs. destruct (Hm s Hs). auto.
Qed.

Lemma safe_await Q m : safe I Q m → safe I Q (await m).
Proof.
  induction m as [r|g k IH|k IH]; simpl; [auto| |auto].
  intros Hm s Hs. destruct (Hm s Hs). auto.
Qed.

Lemma safe_call Q ev (r : Result A) :
  (∀ s, I s → I (record ev s)) → Q r → safe I Q (call ev r).
Proof. intros Hev Hr s Hs. split; [auto|done]. Qed.

Lemma safe_call_sync Q ev (r : Result A) :
  (∀ s, I s → I (record ev s)) → Q r → safe I Q (call_sync ev r).
Proof. intros Hev Hr s Hs. split; [auto|done]. Qed.

Lemma segment_safe Q m s :
  safe I Q m → I s → safe I Q (segment m s).1 ∧ I (segment m s).2.
Proof.
  revert s. induction m as [r|g k IH|k IH]; intros s Hm Hs; simpl in *;
    [done| |done].
  destruct (Hm s Hs). by apply IH.
Qed.

Lemma run_safe Q m s : safe I Q m → I s → Q (run m s).1 ∧ I (run m s).2.
Proof.
  revert s. induction m as [r|g k IH|k IH]; intros s Hm Hs; simpl in *;
    [done| |by apply IH].
  destruct (Hm s Hs). by apply IH.
Qed.

(** The calls of a [Promise.all] keep what each of them keeps. *)
Lemma start_safe Qs ps e s :
  Forall2 (safe I) Qs ps → I s →
  Forall2 (safe I) Qs (start ps e s).1.1 ∧ I (start ps e s).2.
Proof.
  intros Hps. revert e s.
  induction Hps as [|Q p Qs ps Hp Hps IH]; intros e s Hs; [done|].
  cbn [start]. destruct (segment_safe Q p s Hp Hs) as [Hm Hs1].
  destruct (segment p s) as [m s1]. cbn [fst snd] in Hm, Hs1.
  specialize (IH (or_rejection e m) s1 Hs1).
  destruct (start ps _ s1) as [[ms e'] s2]. cbn [fst snd] in *.
  destruct IH. split; [by constructor|done].
Qed.

Lemma resume_safe Qs order ms e s :
  Forall2 (safe I) Qs ms → I s →
  Forall2 (safe I) Qs (resume order ms e s).1.1 ∧ I (resume order ms e s).2.
Proof.
  revert ms e s. induction order as [|i order IH]; intros ms e s Hms Hs; [done|].
  cbn [resume]. destruct (ms !! i) as [[r|g k|k]|] eqn:Hi; [by apply IH..| |by apply IH].
  destruct (Forall2_lookup_r _ _ _ _ _ Hms Hi) as (Q & HQ & Hk).
  destruct (segment_safe Q k s Hk Hs) as [Hm Hs1].
  destruct (segment k s) as [m s1]. cbn [fst snd] in Hm, Hs1.
  apply IH; [|done].
  rewrite <- (list_insert_id Qs i Q) by done. by apply Forall2_insert.
Qed.

Lemma finish_safe Qs ms e s :
  Forall2 (safe I) Qs ms → I s →
  Forall2 (λ Q r, Q r) Qs (finish ms e s).1.1 ∧ I (finish ms e s).2.
Proof.
  intros Hms. revert e s.
  induction Hms as [|Q m Qs ms Hm Hms IH]; intros e s Hs; [done|].
  cbn [finish]. destruct (run_safe Q m s Hm Hs) as [Hr Hs1].
  destruct (run m s) as [r s1]. cbn [fst snd] in Hr, Hs1.
  specialize (IH (or_rejection e (Settled r)) s1 Hs1).
  destruct (finish ms _ s1) as [[rs e'] s2]. cbn [fst snd] in *.
  destruct IH. split; [by constructor|done].
Qed.

(** The first rejection. *)
Lemma start_rejection ps e s :
  match e with
  | Some err => (start ps e s).1.2 = Some err
  | None => rejection_of (start ps e s).1.1 (start ps e s).1.2
  end.
Proof.
  revert e s. induction ps as [|p ps IH]; intros e s.
  { destruct e; [done|]. intros err. apply not_elem_of_nil. }
  cbn [start]. destruct (segment p s) as [m s1].
  specialize (IH (or_rejection e m) s1).
  destruct (start ps _ s1) as [[ms e'] s2]. cbn [fst snd] in *.
  destruct e as [err|]; [done|]. cbn [or_rejection] in IH.
  destruct (rejection m) as [err|] eqn:Hm.
  - subst e'. destruct m as [[a|err']| |]; try done.
    injection Hm as ->. left.
  - destruct e' as [err|]; simpl in *.
    + by right.
    + intros err [<-|?]%elem_of_cons; [done|]. by eapply IH.
Qed.

Lemma rejection_of_insert (ms : list (Async A)) e i k m :
  ms !! i = Some (Suspended k) →
  rejection_of ms e → rejection_of (<[i := m]> ms) (or_rejection e m).
Proof.
  intros Hi He. destruct e as [err|]; simpl in *.
  - apply list_elem_of_lookup in He as [j Hj].
    apply list_elem_of_lookup. exists j.
    rewrite list_lookup_insert_ne; [done|]. intros ->. congruence.
  - destruct (rejection m) as [err|] eqn:Hm.
    + destruct m as [[a|err']| |]; try done. injection Hm as ->.
      apply list_elem_of_lookup. exists i.
      apply list_lookup_insert_eq. by eapply lookup_lt_Some.
    + intros err Hin. apply list_elem_of_lookup in Hin as [j Hj].
      destruct (decide (i = j)) as [->|Hne].
      * rewrite list_lookup_insert_eq in Hj by (by eapply lookup_lt_Some).
        injection Hj as ->. done.
      * rewrite list_lookup_insert_ne in Hj by done.
        apply (He err). by eapply list_elem_of_lookup_2.
Qed.

Lemma resume_rejection order (ms : list (Async A)) e s :
  rejection_of ms e →
  rejection_of (resume order ms e s).1.1 (resume order ms e s).1.2.
Proof.
  revert ms e s. induction order as [|i order IH]; intros ms e s He; [done|].
  cbn [resume]. destruct (ms !! i) as [[r|g k|k]|] eqn:Hi; [by apply IH..| |by apply IH].
  destruct (segment k s) as [m s1]. apply IH. by eapply rejection_of_insert.
Qed.

Lemma finish_rejection (ms : list (Async A)) e s :
  (∀ err, Settled (Throw err) ∈ ms → Throw err ∈ (finish ms e s).1.1) ∧
  match e with
  | Some err => (finish ms e s).1.2 = Some err
  | None =>
      match (finish ms e s).1.2 with
      | Some err => Throw err ∈ (finish ms e s).1.1
      | None => ∀ err, Throw err ∉ (finish ms e s).1.1
      end
  end.
Proof.
  revert e s. induction ms as [|m ms IH]; intros e s.
  { split; [by intros err ?%elem_of_nil|].
    destruct e; [done|]. intros err. apply not_elem_of_nil. }
  cbn [finish]. destruct (run m s) as [r s1] eqn:Hrun.
  destruct (IH (or_rejection e (Settled r)) s1) as [Hin He].
  destruct (finish ms _ s1) as [[rs e'] s2]. cbn [fst snd] in *. split.
  - intros err [<-|?]%elem_of_cons; [|right; auto].
    simpl in Hrun. injection Hrun as <- _. left.
  - destruct e as [err|]; [done|]. cbn [or_rejection rejection] in He.
    destruct r as [a|err].
    + destruct e' as [err|]; [by right|].
      intros err [?|?]%elem_of_cons; [done|]. by eapply He.
    + subst e'. left.
Qed.

Lemma promise_all_safe `{Host} Qs ps s :
  Forall2 (safe I) Qs ps → I s →
  I (promise_all ps s).2 ∧
  ∃ rs, Forall2 (λ Q r, Q r) Qs rs ∧
        ((∀ err, Throw err ∉ rs) ∧ (promise_all ps s).1 = array_map id rs ∨
         ∃ err, Throw err ∈ rs ∧ (promise_all ps s).1 = Throw err).
Proof.
  intros Hps Hs. unfold promise_all.
  destruct (start_safe Qs ps None s Hps Hs) as [Hms Hs1].
  pose proof (start_rejection ps None s) as He.
  destruct (start ps None s) as [[ms e] s1]. cbn [fst snd] in *.
  destruct (resume_safe Qs (resume_order (trace s)) ms e s1 Hms Hs1)
    as [Hms' Hs2].
  pose proof (resume_rejection (resume_order (trace s)) ms e s1 He) as He'.
  destruct (resume _ ms e s1) as [[ms' e'] s2]. cbn [fst snd] in *.
  destruct (finish_safe Qs ms' e' s2 Hms' Hs2) as [Hrs Hs3].
  destruct (finish_rejection ms' e' s2) as [Hin He''].
  destruct (finish ms' e' s2) as [[rs e''] s3]. cbn [fst snd] in *.
  split; [done|]. exists rs. split; [done|].
  destruct e' as [err|]; simpl in He'.
  - subst e''. right. exists err. auto.
  - destruct e'' as [err|]; [right; by exists err|by left].
Qed.

End Safe.

Lemma array_map_id_Ok {A : Type} (vs : list A) : array_map id (Ok <$> vs) = Ok vs.
Proof.
  induction vs as [|v vs IH]; [done|].
  rewrite fmap_cons. cbn [array_map]. by rewrite IH.
Qed.

Section SafeList.
Context `{Host} {X A : Type} (I : State → Prop) (f : X → Async A).

Lemma Forall2_safe_fmap (Q : X → Result A → Prop) xs :
  (∀ x, x ∈ xs → safe I (Q x) (f x)) → Forall2 (safe I) (Q <$> xs) (f <$> xs).
Proof.
  intros Hxs. apply Forall2_fmap, Forall_Forall2_diag, Forall_forall. auto.
Qed.

(** Calls that keep [I] each: the [Promise.all] keeps it. *)
Lemma promise_all_keeps xs s :
  (∀ x, x ∈ xs → safe I (λ _, True) (f x)) → I s →
  I (promise_all (f <$> xs) s).2.
Proof.
  intros Hxs Hs.
  by destruct (promise_all_safe I _ _ s
    (Forall2_safe_fmap (λ _ _, True) xs Hxs) Hs) as [? _].
Qed.

(** Calls that return [g x] each: the [Promise.all] returns the list. *)
Lemma promise_all_returns (g : X → A) xs s :
  (∀ x, x ∈ xs → safe I (λ r, r = Ok (g x)) (f x)) → I s →
  (promise_all (f <$> xs) s).1 = Ok (g <$> xs).
Proof.
  intros Hxs Hs.
  destruct (promise_all_safe I _ _ s
    (Forall2_safe_fmap (λ x r, r = Ok (g x)) xs Hxs) Hs) as (_ & rs & Hrs & Hout).
  assert (rs = Ok <$> (g <$> xs)) as ->.
  { apply Forall2_fmap_l in Hrs. rewrite <- list_fmap_compose.
    clear -Hrs. induction Hrs as [|x r xs rs Hr _ IH]; [done|].
    simpl in *. by rewrite Hr, IH. }
  destruct Hout as [[_ ->]|(err & Hin & _)]; [apply array_map_id_Ok|].
  by apply list_elem_of_fmap in Hin as (? & [=] & _).
Qed.

(** Calls that return each: the [Promise.all] returns. *)
Lemma promise_all_fulfilled xs s :
  (∀ x, x ∈ xs → safe I (λ r, ∃ a, r = Ok a) (f x)) → I s →
  ∃ d, (promise_all (f <$> xs) s).1 = Ok d.
Proof.
  intros Hxs Hs.
  destruct (promise_all_safe I _ _ s
    (Forall2_safe_fmap (λ _ r, ∃ a, r = Ok a) xs Hxs) Hs)
    as (_ & rs & Hrs & Hout).
  apply Forall2_fmap_l in Hrs.
  assert (∃ vs, rs = Ok <$> vs) as [vs ->].
  { clear -Hrs. induction Hrs as [|x r xs rs [a ->] _ [vs ->]]; [by exists []|].
    by exists (a :: vs). }
  destruct Hout as [[_ ->]|(err & Hin & _)];
    [eexists; apply array_map_id_Ok|].
  by apply list_elem_of_fmap in Hin as (? & [=] & _).
Qed.

(** Calls that throw [err] each: so does the [Promise.all], if there is a
    call. *)
Lemma promise_all_rejected err xs s :
  (∀ x, x ∈ xs → safe I (λ r, r = Throw err) (f x)) → I s → xs ≠ [] →
  (promise_all (f <$> xs) s).1 = Throw err.
Proof.
  intros Hxs Hs Hne.
  destruct (promise_all_safe I _ _ s
    (Forall2_safe_fmap (λ _ r, r = Throw err) xs Hxs) Hs)
    as (_ & rs & Hrs & Hout).
  apply Forall2_fmap_l in Hrs.
  assert (Hall : ∀ r, r ∈ rs → r = Throw err).
  { clear -Hrs. induction Hrs as [|x r xs rs -> _ IH]; [by intros ? ?%elem_of_nil|].
    intros r [->|?]%elem_of_cons; auto. }
  destruct Hout as [[Hno _]|(err' & Hin & ->)].
  - destruct xs as [|x xs]; [done|]. apply Forall2_cons_inv_l in Hrs
      as (r & rs' & -> & _ & ->). destruct (Hno err). left.
  - apply Hall in Hin. by injection Hin as ->.
Qed.

End SafeList.

Local Arguments call : simpl never.
Local Arguments call_sync : simpl never.
Local Arguments await : simpl never.
Local Arguments try_catch : simpl never.

(** *** The functions as runs *)

Section Runs.
Context `{Host}.

Lemma initFallback_run ns s :
  initFallback ns s =
  (fallback_entry ns, record (EvReadFile (template_path ns)) s).
Proof.
  unfold initFallback, fallback_entry. rewrite run_bind, run_call.
  destruct (readFile (template_path ns)) as [template|err]; [|done].
  cbn [mbind Result_bind]. rewrite run_bind. unfold lift. cbn [run].
  by destruct (nsToTitle ns).
Qed.

Lemma fallback_run ns s :
  fallback ns s =
  match get_property (fallbackCache s) ns with
  | Some v => (Ok v, s)
  | None =>
      match fallback_entry ns with
      | Ok e =>
          (Ok (Val e), MkState (<[ns := e]> (fallbackCache s)) (cache s)
                         (trace s ++ [EvReadFile (template_path ns)]))
      | Throw err => (Throw err, record (EvReadFile (template_path ns)) s)
      end
  end.
Proof.
  unfold fallback. rewrite run_bind. unfold get_fallbackCache. cbn [run id].
  destruct (get_property (fallbackCache s) ns) as [v|]; [done|].
  rewrite run_bind, run_await, initFallback_run.
  by destruct (fallback_entry ns).
Qed.

Lemma log_error_run err s : log_error err s = (Ok (), logged err s).
Proof. unfold log_error, logged. by destruct (instanceof_Error err). Qed.

(** [buildNamespace], one case for each path through it. *)
Lemma buildNamespace_run language ns s :
  buildNamespace language ns s =
  let s0 := record (EvCreate language) s in
  match Translator_create language with
  | Throw err => (Throw err, s0)
  | Ok translator =>
      let s1 := record (EvGetTranslation language ns) s0 in
      match getTranslation translator ns with
      | Throw err => (Ok (Val (degraded ns)), logged err s1)
      | Ok tbl =>
          if no_translations tbl then
            match fallback ns s1 with
            | (Ok v, s2) => (Ok v, s2)
            | (Throw err, s2) => (Ok (Val (degraded ns)), logged err s2)
            end
          else
            let key := title_key (exec re_title ns) in
            let s2 := record (EvTranslate language key) s1 in
            match translate translator key with
            | Ok t => (Ok (Val (translated_entry ns tbl t)), s2)
            | Throw err => (Ok (Val (degraded ns)), logged err s2)
            end
      end
  end.
Proof.
  unfold buildNamespace. rewrite run_bind, run_call_sync.
  destruct (Translator_create language) as [translator|err]; [|done].
  rewrite run_try_catch, run_bind, run_call.
  destruct (getTranslation translator ns) as [tbl|err].
  - destruct (no_translations tbl).
    + rewrite run_await.
      destruct (run (fallback ns) _) as [[v|err] s2]; [done|].
      by rewrite run_bind, log_error_run.
    + rewrite run_bind, run_call.
      destruct (translate translator _) as [t|err]; [done|].
      by rewrite run_bind, log_error_run.
  - by rewrite run_bind, log_error_run.
Qed.

End Runs.

(** *** Reads of a plain object *)

Lemma get_property_None {A : Type} (o : gmap jsstring A) key :
  get_property o key = None ↔ o !! key = None ∧ key ∉ Object_prototype.
Proof.
  unfold get_property. destruct (o !! key) as [a|].
  - split; [done|]. by intros [? _].
  - case_bool_decide; split; try done. by intros [_ ?].
Qed.

Lemma get_property_Val {A : Type} (o : gmap jsstring A) key a :
  get_property o key = Some (Val a) ↔ o !! key = Some a.
Proof.
  unfold get_property. destruct (o !! key) as [a'|].
  - split; by intros [= ->].
  - case_bool_decide; split; done.
Qed.

Lemma get_property_Inherited {A : Type} (o : gmap jsstring A) key key' :
  get_property o key = Some (Inherited key') ↔
  key' = key ∧ key ∈ Object_prototype ∧ o !! key = None.
Proof.
  unfold get_property. destruct (o !! key) as [a'|].
  - split; [done|]. by intros (_ & _ & ?).
  - case_bool_decide; split; try done.
    + by intros [= ->].
    + by intros (-> & _ & _).
    + by intros (_ & ? & _).
Qed.

Lemma get_property_insert {A : Type} (o : gmap jsstring A) key a :
  get_property (<[key := a]> o) key = Some (Val a).
Proof. unfold get_property. by rewrite lookup_insert_eq. Qed.

Lemma get_property_insert_ne {A : Type} (o : gmap jsstring A) key key' a :
  key ≠ key' → get_property (<[key := a]> o) key' = get_property o key'.
Proof. intros Hne. unfold get_property. by rewrite lookup_insert_ne. Qed.

Lemma get_property_empty {A : Type} key v :
  get_property (A:=A) ∅ key = Some v → v = Inherited key ∧ key ∈ Object_prototype.
Proof.
  unfold get_property. rewrite lookup_empty. case_bool_decide; [|done].
  by intros [= <-].
Qed.

Global Instance grows_preorder {A : Type} : PreOrder (@grows A).
Proof. split; [by intros o key v|]. intros o1 o2 o3 H12 H23 key v ?. auto. Qed.

(** An assignment after a read that found nothing. *)
Lemma grows_insert {A : Type} (o : gmap jsstring A) key a :
  get_property o key = None → grows o (<[key := a]> o).
Proof.
  intros Hmiss key' v Hv. destruct (decide (key = key')) as [->|Hne].
  - congruence.
  - by rewrite get_property_insert_ne.
Qed.

Lemma grows_lookup {A : Type} (o o' : gmap jsstring A) key a :
  grows o o' → o !! key = Some a → o' !! key = Some a.
Proof. intros Hg Ha. by apply get_property_Val, Hg, get_property_Val. Qed.

(** No name of [Object.prototype] holds a slash. *)
Lemma Object_prototype_no_slash key : key ∈ Object_prototype → SLASH ∉ key.
Proof.
  intros Hkey. revert key Hkey. apply Forall_forall.
  refine (bool_decide_unpack _ _). vm_compute. exact I.
Qed.

(** No name of [Object.prototype] has an empty segment. *)
Lemma Object_prototype_segments key :
  key ∈ Object_prototype →
  [] ∉ split (js "/") (replace_first (js "admin/") [] key).
Proof.
  intros Hkey. revert key Hkey. apply Forall_forall.
  refine (bool_decide_unpack _ _). vm_compute. exact I.
Qed.

(** *** Invariants of the caches *)

Section Invariants.
Context `{Host}.

Global Instance later_preorder : PreOrder later.
Proof.
  split.
  - intros s. by split_and!.
  - intros s1 s2 s3 (?&?&?) (?&?&?). split_and!; by etrans.
Qed.

Lemma record_later ev s : later s (record ev s).
Proof. split_and!; [done..|]. by apply prefix_app_r. Qed.

Lemma record_coherent ev s : coherent s → coherent (record ev s).
Proof. done. Qed.

Lemma cache_logged err s : cache (logged err s) = cache s.
Proof. unfold logged. by destruct (instanceof_Error err). Qed.

Lemma fallbackCache_logged err s : fallbackCache (logged err s) = fallbackCache s.
Proof. unfold logged. by destruct (instanceof_Error err). Qed.

Lemma fallback_value_Val ns e :
  ns ∉ Object_prototype → fallback_entry ns = Ok e →
  fallback_value ns = Ok (Val e).
Proof.
  intros Hns He. unfold fallback_value. rewrite bool_decide_eq_false_2 by done.
  by rewrite He.
Qed.

(** The entry that is stored after a read that found nothing. *)
Lemma coherent_store ns e s1 s :
  fallback_entry ns = Ok e → get_property (fallbackCache s1) ns = None →
  coherent s →
  coherent (MkState (<[ns := e]> (fallbackCache s)) (cache s) (trace s)).
Proof.
  intros He [_ Hns]%get_property_None Hs ns' v. cbn [fallbackCache].
  destruct (decide (ns = ns')) as [<-|Hne].
  - rewrite get_property_insert. intros [= <-]. by apply fallback_value_Val.
  - rewrite get_property_insert_ne by done. apply Hs.
Qed.

Lemma kept_refl s : kept s s.
Proof. split_and!; [done..|]. intros ns. by left. Qed.

Lemma kept_record ev s0 s : kept s0 s → kept s0 (record ev s).
Proof.
  intros (Hc & Ht & Hf). split_and!; [done| |done].
  etrans; [done|]. by apply prefix_app_r.
Qed.

Lemma kept_store ns e s0 s1 s :
  fallback_entry ns = Ok e →
  kept s0 s1 → get_property (fallbackCache s1) ns = None →
  kept s0 s →
  kept s0 (MkState (<[ns := e]> (fallbackCache s)) (cache s) (trace s)).
Proof.
  intros He (_ & _ & Hf1) [Hown Hns]%get_property_None (Hc & Ht & Hf).
  split_and!; [done..|]. intros ns'. cbn [fallbackCache].
  destruct (decide (ns = ns')) as [<-|Hne].
  - right. split; [|exists e; by rewrite lookup_insert_eq].
    apply get_property_None. split; [|done].
    destruct (Hf1 ns) as [<-|(_ & e' & _ & He')]; congruence.
  - rewrite lookup_insert_ne by done. apply Hf.
Qed.

Lemma kept_later s0 s : kept s0 s → later s0 s.
Proof.
  intros (Hc & Ht & Hf). split_and!; [|by rewrite Hc|done].
  intros ns v Hv. destruct (Hf ns) as [Heq|[Hmiss _]]; [|congruence].
  unfold get_property in *. by rewrite Heq.
Qed.

Lemma kept_coherent s0 s : kept s0 s → coherent s0 → coherent s.
Proof.
  intros (_ & _ & Hf) Hs0 ns v Hv. destruct (Hf ns) as [Heq|(Hmiss & e & He & Hin)].
  - apply Hs0. unfold get_property in *. by rewrite <- Heq.
  - apply get_property_None in Hmiss as [_ Hns].
    apply get_property_Val in Hin. rewrite Hin in Hv. injection Hv as <-.
    by apply fallback_value_Val.
Qed.

Lemma initFallback_safe (I : State → Prop) ns :
  (∀ s, I s → I (record (EvReadFile (template_path ns)) s)) →
  safe I (λ r, r = fallback_entry ns) (initFallback ns).
Proof.
  intros Hrec. unfold initFallback, fallback_entry.
  eapply safe_bind; [by apply (safe_call I (λ r, r = readFile (template_path ns)))|..].
  - intros template <-. cbn [mbind Result_bind].
    unfold lift. by destruct (nsToTitle ns).
  - by intros err <-.
Qed.

(** What a build that has been started keeps and returns, when it is
    resumed, follows from what its steps keep and from what it returns on
    each of its paths. *)
Lemma buildNamespace_resumed_safe language translator ns (I : State → Prop)
    (Q : Result (Value Entry) → Prop) s0 :
  Translator_create language = Ok translator →
  (∀ ev s, (∀ dir, ev ≠ EvWalk dir) → (∀ l, ev ≠ EvCreate l) →
           (∀ l n, ev ≠ EvGetTranslation l n) → I s → I (record ev s)) →
  (∀ e s1 s,
     fallback_entry ns = Ok e →
     I s1 → get_property (fallbackCache s1) ns = None → I s →
     I (MkState (<[ns := e]> (fallbackCache s)) (cache s) (trace s))) →
  match getTranslation translator ns with
  | Throw _ => Q (Ok (Val (degraded ns)))
  | Ok tbl =>
      if no_translations tbl then
        (∀ s v, I s → get_property (fallbackCache s) ns = Some v → Q (Ok v)) ∧
        (∀ s, I s → get_property (fallbackCache s) ns = None →
           match fallback_entry ns with
           | Ok e => Q (Ok (Val e))
           | Throw _ => Q (Ok (Val (degraded ns)))
           end)
      else
        match translate translator (title_key (exec re_title ns)) with
        | Ok t => Q (Ok (Val (translated_entry ns tbl t)))
        | Throw _ => Q (Ok (Val (degraded ns)))
        end
  end →
  safe I Q (segment (buildNamespace language ns) s0).1.
Proof.
  intros Hcreate Hrec Hstore Hok. unfold buildNamespace, call_sync, call.
  cbn [mbind Async_bind Async_then segment]. rewrite Hcreate.
  cbn [Async_then try_catch segment fst safe].
  eapply (safe_try_catch I
            (λ r, match r with
                  | Ok v => Q (Ok v)
                  | Throw _ => Q (Ok (Val (degraded ns)))
                  end)); [|done|].
  - destruct (getTranslation translator ns) as [tbl|err]; [|done].
    destruct (no_translations tbl).
    + destruct Hok as [Hhit Hmiss]. apply safe_await. unfold fallback.
      eapply (safe_bind I
        (λ r, ∃ s, I s ∧ r = Ok (get_property (fallbackCache s) ns))).
      * intros s Hs. split; [done|]. by exists s.
      * intros [v|] (s1 & Hs1 & [= Hv]); [by eapply Hhit|].
        specialize (Hmiss s1 Hs1 (eq_sym Hv)).
        eapply safe_bind;
          [apply safe_await, initFallback_safe; intros s; by apply Hrec|..].
        -- intros e He. rewrite <- He in Hmiss.
           intros s Hs. split; [|done]. by eapply (Hstore e s1 s).
        -- intros err Herr. by rewrite <- Herr in Hmiss.
      * by intros err (s & _ & [=]).
    + intros s Hs. split; [by apply Hrec|]. cbn [safe].
      by destruct (translate translator _).
  - intros err Hq. unfold log_error.
    destruct (instanceof_Error err); [|done].
    intros s Hs. split; [by apply Hrec|done].
Qed.

(** The start of a build: the translator is created and, if there is one,
    asked for the translations. *)
Lemma buildNamespace_segment language ns s :
  (segment (buildNamespace language ns) s).2 =
  match Translator_create language with
  | Ok _ => record (EvGetTranslation language ns) (record (EvCreate language) s)
  | Throw _ => record (EvCreate language) s
  end ∧
  ∀ err, Translator_create language = Throw err →
         (segment (buildNamespace language ns) s).1 = Settled (Throw err).
Proof.
  unfold buildNamespace, call_sync, call.
  cbn [mbind Async_bind Async_then segment].
  destruct (Translator_create language) as [translator|err'].
  - split; [done|]. by intros err.
  - split; [done|]. by intros err [= ->].
Qed.

(** What [buildNamespace] keeps and returns, in the same way. *)
Lemma buildNamespace_safe language ns (I : State → Prop)
    (Q : Result (Value Entry) → Prop) :
  (∀ ev s, (∀ dir, ev ≠ EvWalk dir) → I s → I (record ev s)) →
  (∀ e s1 s,
     fallback_entry ns = Ok e →
     I s1 → get_property (fallbackCache s1) ns = None → I s →
     I (MkState (<[ns := e]> (fallbackCache s)) (cache s) (trace s))) →
  (∀ err, Translator_create language = Throw err → Q (Throw err)) →
  (∀ translator, Translator_create language = Ok translator →
     match getTranslation translator ns with
     | Throw _ => Q (Ok (Val (degraded ns)))
     | Ok tbl =>
         if no_translations tbl then
           (∀ s v, I s → get_property (fallbackCache s) ns = Some v → Q (Ok v)) ∧
           (∀ s, I s → get_property (fallbackCache s) ns = None →
              match fallback_entry ns with
              | Ok e => Q (Ok (Val e))
              | Throw _ => Q (Ok (Val (degraded ns)))
              end)
         else
           match translate translator (title_key (exec re_title ns)) with
           | Ok t => Q (Ok (Val (translated_entry ns tbl t)))
           | Throw _ => Q (Ok (Val (degraded ns)))
           end
     end) →
  safe I Q (buildNamespace language ns).
Proof.
  intros Hrec Hstore Hthrow Hok.
  destruct (Translator_create language) as [translator|err] eqn:Hcreate.
  - pose proof (buildNamespace_resumed_safe language translator ns I Q init
      Hcreate (λ ev s Hw _ _, Hrec ev s Hw) Hstore (Hok translator eq_refl))
      as Hrest.
    revert Hrest. unfold buildNamespace, call_sync, call.
    cbn [mbind Async_bind Async_then segment]. rewrite Hcreate.
    cbn [Async_then try_catch segment fst safe]. intros Hrest.
    intros s Hs. split; [by apply Hrec|].
    intros s1 Hs1. split; [by apply Hrec|done].
  - unfold buildNamespace, call_sync.
    cbn [mbind Async_bind Async_then safe]. rewrite Hcreate.
    intros s Hs. split; [by apply Hrec|]. by apply Hthrow.
Qed.

(** A build keeps [kept s0], whatever runs in between. *)
Lemma buildNamespace_kept s0 language ns :
  safe (kept s0) (λ _, True) (buildNamespace language ns).
Proof.
  apply buildNamespace_safe.
  - intros ev s _. apply kept_record.
  - intros e s1 s. apply kept_store.
  - done.
  - intros translator _. destruct (getTranslation translator ns) as [tbl|]; [|done].
    destruct (no_translations tbl).
    + split; [done|]. intros s _ _. by destruct (fallback_entry ns).
    + by destruct (translate translator _).
Qed.

(** In coherent states a build returns the entry of its namespace,
    whatever runs in between. *)
Lemma buildNamespace_returns language translator ns :
  Translator_create language = Ok translator →
  safe coherent (λ r, r = Ok (entry_of translator ns))
    (buildNamespace language ns).
Proof.
  intros Hcreate. apply buildNamespace_safe.
  - intros ev s _. apply record_coherent.
  - intros e s1 s He _. by apply coherent_store.
  - intros err. congruence.
  - intros translator' Hcreate'. rewrite Hcreate in Hcreate'.
    injection Hcreate' as <-. unfold entry_of.
    destruct (getTranslation translator ns) as [tbl|]; [|done].
    destruct (no_translations tbl).
    + split.
      * intros s v Hs Hv. by rewrite (Hs _ _ Hv).
      * intros s _ [_ Hns]%get_property_None. unfold fallback_value.
        rewrite bool_decide_eq_false_2 by done.
        by destruct (fallback_entry ns).
    + by destruct (translate translator _).
Qed.

(** Once the translator is created a build returns. *)
Lemma buildNamespace_fulfilled language translator ns :
  Translator_create language = Ok translator →
  safe (λ _, True) (λ r, ∃ v, r = Ok v) (buildNamespace language ns).
Proof.
  intros Hcreate. apply buildNamespace_safe; [done..|congruence|].
  intros translator' _.
  destruct (getTranslation translator' ns) as [tbl|]; [|by eexists].
  destruct (no_translations tbl).
  - split; [by eexists|]. intros s _ _. destruct (fallback_entry ns); by eexists.
  - destruct (translate translator' _); by eexists.
Qed.

(** Without a translator a build throws at once. *)
Lemma buildNamespace_throws (I : State → Prop) language ns err :
  Translator_create language = Throw err →
  (∀ s, I s → I (record (EvCreate language) s)) →
  safe I (λ r, r = Throw err) (buildNamespace language ns).
Proof.
  intros Hcreate Hrec. unfold buildNamespace.
  eapply safe_bind;
    [by apply (safe_call_sync I (λ r, r = Translator_create language))|..].
  - intros translator. congruence.
  - intros err'. congruence.
Qed.

Lemma buildNamespace_inv language ns s :
  later s (snd (buildNamespace language ns s)) ∧
  cache (snd (buildNamespace language ns s)) = cache s ∧
  (coherent s → coherent (snd (buildNamespace language ns s))).
Proof.
  destruct (run_safe (kept s) _ (buildNamespace language ns) s
              (buildNamespace_kept s language ns) (kept_refl s)) as [_ Hk].
  split_and!; [by apply kept_later|apply Hk|by apply kept_coherent].
Qed.

Lemma buildNamespace_entry language translator ns s :
  coherent s → Translator_create language = Ok translator →
  fst (buildNamespace language ns s) = Ok (entry_of translator ns).
Proof.
  intros Hs Hcreate.
  by destruct (run_safe coherent _ (buildNamespace language ns) s
                 (buildNamespace_returns language translator ns Hcreate) Hs).
Qed.

Lemma buildNamespace_rejects language ns s err :
  Translator_create language = Throw err →
  buildNamespace language ns s = (Throw err, record (EvCreate language) s).
Proof. intros Hcreate. by rewrite buildNamespace_run, Hcreate. Qed.

Lemma promise_all_builds_inv language nss s :
  later s (snd (promise_all (buildNamespace language <$> nss) s)) ∧
  cache (snd (promise_all (buildNamespace language <$> nss) s)) = cache s ∧
  (coherent s →
   coherent (snd (promise_all (buildNamespace language <$> nss) s))).
Proof.
  pose proof (promise_all_keeps (kept s) (buildNamespace language) nss s
                (λ ns _, buildNamespace_kept s language ns) (kept_refl s)) as Hk.
  split_and!; [by apply kept_later|apply Hk|by apply kept_coherent].
Qed.

Lemma promise_all_builds language translator nss s :
  coherent s → Translator_create language = Ok translator →
  fst (promise_all (buildNamespace language <$> nss) s) =
  Ok (entry_of translator <$> nss).
Proof.
  intros Hs Hcreate.
  apply (promise_all_returns coherent); [|done].
  intros ns _. by apply buildNamespace_returns.
Qed.

Lemma getAdminNamespaces_run s :
  getAdminNamespaces s =
  (dirs ← file_walk admin_dir; Ok (filterDirectories dirs),
   record (EvWalk admin_dir) s).
Proof.
  unfold getAdminNamespaces. fold admin_dir. rewrite run_bind, run_call.
  by destruct (file_walk admin_dir).
Qed.

Lemma initDict_run language s :
  initDict language s =
  match file_walk admin_dir with
  | Ok dirs =>
      promise_all (buildNamespace language <$> filterDirectories dirs)
        (record (EvWalk admin_dir) s)
  | Throw err => (Throw err, record (EvWalk admin_dir) s)
  end.
Proof.
  unfold initDict, mbind, Awaited_bind. rewrite getAdminNamespaces_run.
  by destruct (file_walk admin_dir).
Qed.

Lemma getDictionary_run language s :
  getDictionary language s =
  match get_property (cache s) language with
  | Some v => (Ok v, s)
  | None =>
      match initDict language s with
      | (Ok d, s') =>
          (Ok (Val d),
           MkState (fallbackCache s') (<[language := d]> (cache s')) (trace s'))
      | (Throw err, s') => (Throw err, s')
      end
  end.
Proof.
  unfold getDictionary, mbind, Awaited_bind, get_cache.
  destruct (get_property (cache s) language) as [v|]; [done|].
  by destruct (initDict language s) as [[d|err] s'].
Qed.

Lemma initDict_inv language s :
  later s (snd (initDict language s)) ∧
  cache (snd (initDict language s)) = cache s ∧
  (coherent s → coherent (snd (initDict language s))).
Proof.
  rewrite initDict_run.
  destruct (file_walk admin_dir) as [dirs|err].
  - destruct (promise_all_builds_inv language (filterDirectories dirs)
               (record (EvWalk admin_dir) s)) as (Hl & Hc & Hco).
    split_and!; [|done|auto]. etrans; [apply record_later|done].
  - split_and!; [apply record_later|done..].
Qed.

Lemma getDictionary_inv language s :
  later s (snd (getDictionary language s)) ∧
  (coherent s → coherent (snd (getDictionary language s))).
Proof.
  rewrite getDictionary_run.
  destruct (get_property (cache s) language) as [v|] eqn:Hc; [done|].
  destruct (initDict_inv language s) as ((Hf & Hca & Htr) & Hc' & Hco).
  destruct (initDict language s) as [[d|err] s']; simpl in *.
  - split; [|auto]. split_and!; simpl; [done| |done].
    etrans; [done|]. apply grows_insert. by rewrite Hc'.
  - by split_and!.
Qed.

Lemma run_op_inv op s :
  later s (run_op op s) ∧ (coherent s → coherent (run_op op s)).
Proof.
  destruct op as [language ns|language]; simpl.
  - destruct (buildNamespace_inv language ns s) as (? & _ & ?). done.
  - apply getDictionary_inv.
Qed.

Lemma run_ops_inv ops s :
  later s (run_ops ops s) ∧ (coherent s → coherent (run_ops ops s)).
Proof.
  revert s. induction ops as [|op ops IH]; intros s; [done|].
  simpl. destruct (run_op_inv op s) as [Hl Hco].
  destruct (IH (run_op op s)) as [Hl' Hco'].
  split; [by etrans|auto].
Qed.

Lemma coherent_no_entry ns s err :
  coherent s → fallback_entry ns = Throw err → fallbackCache s !! ns = None.
Proof.
  intros Hs He. destruct (fallbackCache s !! ns) as [e|] eqn:Hc; [|done].
  apply get_property_Val, Hs in Hc. unfold fallback_value in Hc.
  case_bool_decide; [done|]. by rewrite He in Hc.
Qed.

Lemma coherent_init : coherent init.
Proof.
  intros ns v [-> Hns]%get_property_empty. unfold fallback_value.
  by rewrite bool_decide_eq_true_2.
Qed.

End Invariants.

(** *** Mustaches *)

Lemma matches_between_1_2_eq c st :
  matches (between 1 2 (lit1 c)) st =
  if head_is (N.eqb c) (rest st) then
    if head_is (N.eqb c) (rest (adv 1 st)) then [adv 2 st; adv 1 st]
    else [adv 1 st]
  else [].
Proof.
  unfold between. cbn [matches].
  destruct (rest st) as [|x t] eqn:Hr.
  - cbn [length Nat.add rep]. by rewrite matches_lit1, Hr.
  - cbn [length Nat.add rep]. rewrite matches_lit1, Hr. cbn [head_is].
    destruct (c =? x); [|done]. rewrite bind_singleton.
    cbn [rep fmap option_fmap option_map Nat.pred]. rewrite matches_lit1.
    destruct (head_is (N.eqb c) (rest (adv 1 st))).
    + rewrite filter_cons_True by (simpl; lia).
      rewrite filter_nil, bind_singleton. by rewrite adv_adv.
    + by rewrite filter_nil.
Qed.

Lemma matches_between_1_2 c st st' :
  st' ∈ matches (between 1 2 (lit1 c)) st →
  head_is (N.eqb c) (rest st) = true ∧
  (st' = adv 1 st ∨ st' = adv 2 st).
Proof.
  rewrite matches_between_1_2_eq.
  destruct (head_is (N.eqb c) (rest st)); [|by intros ?%elem_of_nil].
  intros Hin. split; [done|]. destruct (head_is (N.eqb c) (rest (adv 1 st))).
  - apply elem_of_cons in Hin as [->|Hin]; [auto|].
    apply list_elem_of_singleton in Hin as ->. auto.
  - apply list_elem_of_singleton in Hin as ->. auto.
Qed.

Lemma matches_between_1_2_head c st :
  head_is (N.eqb c) (rest st) = true →
  adv 1 st ∈ matches (between 1 2 (lit1 c)) st.
Proof.
  intros Hh. rewrite matches_between_1_2_eq, Hh.
  destruct (head_is (N.eqb c) (rest (adv 1 st))).
  - right. by left.
  - by left.
Qed.

Lemma pos_adv k st : pos (adv k st) = (pos st + k)%nat.
Proof. done. Qed.

Lemma rest_adv k st : rest (adv k st) = drop k (rest st).
Proof. done. Qed.

Lemma matches_not_rbrace_star st :
  matches (star_lazy (ncls [One RBRACE])) st =
  (λ k, adv k st) <$> seq 0 (S (span_len (λ c, negb (c =? RBRACE)) (rest st))).
Proof.
  unfold star_lazy, ncls. rewrite matches_Quant_Chr. unfold counts.
  rewrite Nat.sub_0_r. do 3 f_equal. apply span_len_ext.
  intros c. unfold in_class. simpl. by rewrite orb_false_r.
Qed.

(** A match of the mustache pattern starts at an opening brace that has a
    closing brace after it, and covers at least two code units. *)
Lemma matches_re_mustache st st' :
  st' ∈ matches re_mustache st →
  ∃ t, rest st = LBRACE :: t ∧ RBRACE ∈ t ∧ (pos st + 2 ≤ pos st')%nat.
Proof.
  unfold re_mustache. cbn [cat]. rewrite matches_Seq.
  intros (st1 & Hst' & H1)%list_elem_of_bind.
  apply matches_between_1_2 in H1 as [Hopen H1].
  rewrite matches_Seq in Hst'.
  apply list_elem_of_bind in Hst' as (st2 & Hst' & H2).
  rewrite matches_not_rbrace_star in H2.
  apply list_elem_of_fmap in H2 as (k & -> & Hk).
  apply matches_between_1_2 in Hst' as [Hclose Hst'].
  destruct (rest st) as [|c t] eqn:Hr; [done|].
  simpl in Hopen. apply N.eqb_eq in Hopen as <-.
  exists t. split; [done|].
  assert (Hin : ∀ j, head_is (N.eqb RBRACE) (drop (S j) (LBRACE :: t)) = true →
                     RBRACE ∈ t).
  { intros j Hj. simpl in Hj. destruct (drop j t) as [|x u] eqn:Hd; [done|].
    simpl in Hj. apply N.eqb_eq in Hj as <-.
    apply (subseteq_drop j t). rewrite Hd. by left. }
  rewrite rest_adv in Hclose.
  destruct H1 as [-> | ->]; rewrite rest_adv, Hr, drop_drop in Hclose.
  - split; [by apply (Hin k)|].
    destruct Hst' as [-> | ->]; rewrite !pos_adv; lia.
  - split; [by apply (Hin (S k))|].
    destruct Hst' as [-> | ->]; rewrite !pos_adv; lia.
Qed.

Lemma match_at_mustache_Some at_pos s m :
  match_at re_mustache at_pos s = Some m →
  (∃ t, s = LBRACE :: t ∧ RBRACE ∈ t) ∧ matched m ≠ [].
Proof.
  unfold match_at.
  destruct (matches re_mustache _) as [|st' l] eqn:Hm; [done|].
  intros [= <-].
  destruct (matches_re_mustache (MState at_pos s []) st') as (t & Hr & Hin & Hpos).
  { rewrite Hm. by left. }
  simpl in Hr, Hpos. split; [by exists t|].
  simpl. subst s. intros Hnil%(f_equal length). rewrite length_take in Hnil.
  simpl in Hnil. destruct t as [|x u]; [by apply elem_of_nil in Hin|].
  simpl in Hnil. lia.
Qed.

(** Where an opening brace has a closing brace after it the pattern
    matches. *)
Lemma match_at_mustache_None at_pos t :
  match_at re_mustache at_pos (LBRACE :: t) = None → RBRACE ∉ t.
Proof.
  intros Hnone Hin. unfold match_at in Hnone.
  destruct (matches re_mustache _) as [|st' l] eqn:Hm; [|done]. clear Hnone.
  revert Hm. unfold re_mustache. cbn [cat]. rewrite matches_Seq.
  set (st := MState at_pos (LBRACE :: t) []).
  assert (Hfirst : adv 1 st ∈ matches (between 1 2 (lit1 LBRACE)) st).
  { apply matches_between_1_2_head. simpl. apply N.eqb_refl. }
  intros Hnil.
  assert (Hk : matches (Seq (star_lazy (ncls [One RBRACE]))
                          (between 1 2 (lit1 RBRACE))) (adv 1 st) = []).
  { destruct (matches (Seq _ _) (adv 1 st)) as [|x l'] eqn:Hx; [done|].
    assert (Hx' : x ∈ matches (between 1 2 (lit1 LBRACE)) st
                  ≫= matches (Seq (star_lazy (ncls [One RBRACE]))
                                  (between 1 2 (lit1 RBRACE)))).
    { apply list_elem_of_bind. exists (adv 1 st). split; [|done].
      rewrite Hx. by left. }
    rewrite Hnil in Hx'. by apply elem_of_nil in Hx'. }
  rewrite matches_Seq, matches_not_rbrace_star in Hk.
  simpl rest in Hk. rewrite drop_0 in Hk.
  set (n := span_len (λ c, negb (c =? RBRACE)) t) in *.
  assert (Hhead : head_is (N.eqb RBRACE) (drop n t) = true).
  { unfold n. clear -Hin. induction t as [|x u IH]; [by apply elem_of_nil in Hin|].
    simpl. destruct (x =? RBRACE) eqn:Hx; simpl.
    - by rewrite N.eqb_sym.
    - apply IH. apply elem_of_cons in Hin as [Heq|]; [|done].
      apply N.eqb_neq in Hx. by destruct Hx. }
  assert (Hmem : adv n (adv 1 st) ∈
            (λ k, adv k (adv 1 st)) <$> seq 0 (S n)).
  { apply list_elem_of_fmap. exists n. split; [done|]. apply elem_of_seq. lia. }
  assert (Hlast : adv 1 (adv n (adv 1 st)) ∈
            ((λ k, adv k (adv 1 st)) <$> seq 0 (S n))
              ≫= matches (between 1 2 (lit1 RBRACE))).
  { apply list_elem_of_bind. exists (adv n (adv 1 st)). split; [|done].
    apply matches_between_1_2_head. by rewrite !rest_adv, drop_drop. }
  rewrite Hk in Hlast. by apply elem_of_nil in Hlast.
Qed.

Lemma open_then_close_false s :
  open_then_close s = false ↔
  ∀ i t, drop i s = LBRACE :: t → RBRACE ∉ t.
Proof.
  induction s as [|c u IH]; simpl.
  - split; [|done]. intros _ i t. by rewrite drop_nil.
  - rewrite orb_false_iff, andb_false_iff, IH, bool_decide_eq_false, N.eqb_neq.
    split.
    + intros [Hc Hu] [|i] t; simpl.
      * intros [= -> <-]. by destruct Hc.
      * apply Hu.
    + intros Hs. split.
      * destruct (decide (c = LBRACE)) as [->|]; [right|by left].
        by apply (Hs O).
      * intros i t. apply (Hs (S i)).
Qed.

(** The mustache pass leaves no opening brace with a closing brace after
    it. *)
Lemma mustaches_removed s at_pos :
  open_then_close (replace_all_from re_mustache [Lit []] at_pos s 0) = false.
Proof.
  enough (open_then_close (replace_all_from re_mustache [Lit []] at_pos s 0)
            = false ∧
          (RBRACE ∈ replace_all_from re_mustache [Lit []] at_pos s 0 →
           RBRACE ∈ s)) by tauto.
  revert s at_pos.
  apply (replace_all_from_ind re_mustache [Lit []]
    (λ s o, open_then_close o = false ∧ (RBRACE ∈ o → RBRACE ∈ s))).
  - intros at_pos s m Hm. by apply match_at_mustache_Some in Hm as [_ ?].
  - split; [done|]. by intros ?%elem_of_nil.
  - intros at_pos c t o Hnone [Ho Hlink]. split.
    + simpl. rewrite Ho, orb_false_r. apply andb_false_iff.
      destruct (c =? LBRACE) eqn:Hc; [right|by left].
      apply N.eqb_eq in Hc as ->. apply bool_decide_eq_false.
      intros Hin. by apply (match_at_mustache_None _ _ Hnone), Hlink.
    + rewrite !elem_of_cons. intros [->|Hin]; [by left|right; by apply Hlink].
  - intros at_pos s m o Hm [Ho Hlink]. change (expand [Lit []] m) with (@nil N).
    split; [done|]. intros Hin%Hlink.
    by apply (subseteq_drop (length (matched m)) s).
Qed.

Lemma open_then_close_filter s :
  open_then_close (filter (λ c, is_brace c = true) s) = open_then_close s.
Proof.
  induction s as [|c t IH]; [done|].
  assert (Hin : bool_decide (RBRACE ∈ filter (λ c, is_brace c = true) t)
                = bool_decide (RBRACE ∈ t)).
  { apply bool_decide_ext. rewrite list_elem_of_filter. unfold is_brace.
    rewrite N.eqb_refl, orb_true_r. tauto. }
  rewrite filter_cons. destruct (decide (is_brace c = true)) as [Hc|Hc].
  - cbn [open_then_close]. by rewrite IH, Hin.
  - cbn [open_then_close]. rewrite IH. apply not_true_is_false in Hc.
    unfold is_brace in Hc. apply orb_false_iff in Hc as [-> _]. done.
Qed.

Lemma take_span_Forall p s : Forall (λ c, p c = true) (take (span_len p s) s).
Proof.
  induction s as [|c t IH]; simpl; [done|].
  destruct (p c) eqn:Hc; simpl; [by constructor|done].
Qed.

Lemma filter_brace_ws s :
  Forall (λ c, is_ws c = true) s → filter (λ c, is_brace c = true) s = [].
Proof.
  induction 1 as [|c t Hc _ IH]; [done|].
  rewrite filter_cons, decide_False; [done|]. apply not_true_iff_false.
  unfold is_brace, LBRACE, RBRACE.
  apply is_ws_cases in Hc as [[->| ->]%is_blank_cases|[->| ->]%is_nl_cases]; done.
Qed.

(** The white-space passes keep the braces. *)
Lemma line_breaks_keep_braces s at_pos :
  filter (λ c, is_brace c = true)
    (replace_all_from re_line_breaks [Lit [LF]] at_pos s 0) =
  filter (λ c, is_brace c = true) s.
Proof.
  revert s at_pos.
  apply (replace_all_from_ind re_line_breaks [Lit [LF]]
    (λ s o, filter (λ c, is_brace c = true) o
            = filter (λ c, is_brace c = true) s)).
  - intros at_pos s m. rewrite match_at_line_breaks'. case_decide as Hj; [done|].
    intros [= <-]. simpl. intros Hnil%(f_equal length).
    rewrite length_take_span in Hnil. by apply span_len_ws_breaks in Hj.
  - done.
  - intros at_pos c t o _ IH. by rewrite !filter_cons, IH.
  - intros at_pos s m o. rewrite match_at_line_breaks'.
    case_decide as Hj; [done|]. intros [= <-]. simpl matched.
    rewrite length_take_span. intros IH.
    assert (Hs : filter (λ c, is_brace c = true) s =
                 filter (λ c, is_brace c = true) (drop (span_len is_ws s) s)).
    { rewrite <- (take_drop (span_len is_ws s) s) at 1.
      by rewrite filter_app, filter_brace_ws by apply take_span_Forall. }
    change (expand [Lit [LF]] _) with [LF]. by rewrite Hs, filter_app, IH.
Qed.

Lemma blanks_keep_braces s at_pos :
  filter (λ c, is_brace c = true)
    (replace_all_from re_blanks [Lit [SPACE]] at_pos s 0) =
  filter (λ c, is_brace c = true) s.
Proof.
  revert s at_pos.
  apply (replace_all_from_ind re_blanks [Lit [SPACE]]
    (λ s o, filter (λ c, is_brace c = true) o
            = filter (λ c, is_brace c = true) s)).
  - intros at_pos s m. rewrite match_at_blanks.
    destruct (span_len is_blank s) as [|n] eqn:Hn; [done|].
    intros [= <-]. simpl matched. intros Hnil%(f_equal length).
    rewrite <- Hn, length_take_span in Hnil. simpl in Hnil. lia.
  - done.
  - intros at_pos c t o _ IH. by rewrite !filter_cons, IH.
  - intros at_pos s m o. rewrite match_at_blanks.
    destruct (span_len is_blank s) as [|n] eqn:Hn; [done|].
    intros [= <-]. simpl matched. rewrite <- Hn, length_take_span. intros IH.
    assert (Hs : filter (λ c, is_brace c = true) s =
                 filter (λ c, is_brace c = true) (drop (span_len is_blank s) s)).
    { rewrite <- (take_drop (span_len is_blank s) s) at 1.
      rewrite filter_app, filter_brace_ws; [done|].
      eapply Forall_impl; [apply take_span_Forall|].
      intros c Hc. unfold is_ws. simpl in Hc. by rewrite Hc. }
    change (expand [Lit [SPACE]] _) with [SPACE]. by rewrite Hs, filter_app, IH.
Qed.

Lemma search_None_iff r at_pos s :
  search r at_pos s = None ↔
  ∀ i, (i ≤ length s)%nat → match_at r (at_pos + i) (drop i s) = None.
Proof.
  revert at_pos. induction s as [|c t IH]; intros at_pos; simpl.
  - destruct (match_at r at_pos []) eqn:Hm.
    + split; [done|]. intros Hall. specialize (Hall O (le_n _)).
      rewrite Nat.add_0_r in Hall. simpl in Hall. congruence.
    + split; [|done]. intros _ i Hi. assert (i = O) as -> by lia.
      by rewrite Nat.add_0_r.
  - destruct (match_at r at_pos (c :: t)) eqn:Hm.
    + split; [done|]. intros Hall. specialize (Hall O (Nat.le_0_l _)).
      rewrite Nat.add_0_r in Hall. simpl in Hall. congruence.
    + destruct (search r (S at_pos) t) as [[[??]?]|] eqn:Hs.
      * split; [done|]. intros Hall.
        assert (search r (S at_pos) t = None); [|congruence].
        apply IH. intros i Hi. specialize (Hall (S i) ltac:(lia)).
        simpl in Hall. by rewrite <- Nat.add_succ_comm in Hall.
      * split; [|done]. intros _ [|i] Hi.
        -- by rewrite Nat.add_0_r.
        -- simpl. rewrite <- Nat.add_succ_comm.
           apply (proj1 (IH (S at_pos)) Hs). lia.
Qed.

Lemma test_mustache_false s :
  open_then_close s = false → test re_mustache s = false.
Proof.
  intros Hs. unfold test, exec.
  assert (search re_mustache 0 s = None) as ->; [|done].
  apply search_None_iff. intros i Hi.
  destruct (match_at re_mustache (0 + i) (drop i s)) as [m|] eqn:Hm; [|done].
  apply match_at_mustache_Some in Hm as [(t & Hd & Hin) _].
  by destruct (proj1 (open_then_close_false s) Hs i t Hd).
Qed.

(** The simplified form of any text holds no mustache: the hypothesis of the
    idempotence of [simplify] holds for every text. *)
Lemma simplify_no_mustache x : test re_mustache (simplify x) = false.
Proof.
  apply test_mustache_false. rewrite <- open_then_close_filter.
  unfold simplify, replace_all.
  rewrite blanks_keep_braces, line_breaks_keep_braces.
  rewrite open_then_close_filter. apply mustaches_removed.
Qed.

(** *** Empty segments *)

Lemma split_go_cons c x t cur :
  split_go [c] (x :: t) 0 cur =
  if c =? x then cur :: split_go [c] t 0 [] else split_go [c] t 0 (cur ++ [x]).
Proof. cbn [split_go]. rewrite starts_with_1. done. Qed.

Lemma empty_segment_go c s cur :
  [] ∈ split_go [c] s 0 cur ↔
  (cur = [] ∧ (s = [] ∨ head s = Some c)) ∨
  last s = Some c ∨
  ∃ pre post, s = pre ++ c :: c :: post.
Proof.
  revert cur. induction s as [|x t IH]; intros cur.
  - simpl. rewrite list_elem_of_singleton. split.
    + intros <-. left. auto.
    + intros [[-> _]|[[=]|(pre & post & Hs)]]; [done|].
      by destruct pre.
  - rewrite split_go_cons. destruct (c =? x) eqn:Hx.
    + apply N.eqb_eq in Hx as <-. rewrite elem_of_cons, IH. split.
      * intros [<-|[[_ [->|Ht]]|[Hl|(pre & post & ->)]]].
        -- left. auto.
        -- right. left. done.
        -- right. right. exists [], (tail t).
           destruct t as [|y u]; [done|]. simpl in *. by injection Ht as ->.
        -- right. left. destruct t; [done|]. done.
        -- right. right. by exists (c :: pre), post.
      * intros [[-> _]|[Hl|(pre & post & Hs)]].
        -- by left.
        -- right. destruct t as [|y u]; [left; auto|].
           right. left. done.
        -- right. destruct pre as [|y pre'].
           ++ injection Hs as ->. left. auto.
           ++ injection Hs as -> ->. right. right. by exists pre', post.
    + apply N.eqb_neq in Hx. rewrite IH. split.
      * intros [[Hcur _]|[Hl|(pre & post & ->)]].
        -- by destruct cur.
        -- right. left. destruct t; [done|]. done.
        -- right. right. by exists (x :: pre), post.
      * intros [[_ [[=]|[= Hh]]]|[Hl|(pre & post & Hs)]].
        -- by destruct Hx.
        -- right. left. destruct t as [|y u]; [|done].
           simpl in Hl. injection Hl as ->. by destruct Hx.
        -- right. right. destruct pre as [|y pre'].
           ++ injection Hs as -> _. by destruct Hx.
           ++ injection Hs as -> ->. by exists pre', post.
Qed.

(** A text has an empty segment between two [c] exactly when it is empty,
    starts with [c], ends with [c] or holds [c] twice in a row. *)
Lemma empty_segment_iff c s :
  [] ∈ split [c] s ↔
  s = [] ∨ head s = Some c ∨ last s = Some c ∨
  ∃ pre post, s = pre ++ c :: c :: post.
Proof.
  unfold split. rewrite empty_segment_go. split.
  - intros [[_ [?|?]]|[?|?]]; auto.
  - intros [?|[?|[?|?]]]; auto.
Qed.

(** *** Rejections *)

Section Rejections.
Context `{Host}.

Lemma resume_nil {A : Type} order e s :
  resume (A:=A) order [] e s = ([], e, s).
Proof. induction order as [|i order IH]; [done|]. by cbn [resume lookup]. Qed.

Lemma promise_all_nil {A : Type} s : promise_all (A:=A) [] s = (Ok [], s).
Proof. unfold promise_all. cbn [start]. by rewrite resume_nil. Qed.

Lemma promise_all_builds_Throw language nss s err :
  Translator_create language = Throw err →
  fst (promise_all (buildNamespace language <$> nss) s) =
  match nss with
  | [] => Ok []
  | _ :: _ => Throw err
  end.
Proof.
  intros Hcreate. destruct nss as [|ns nss]; [by rewrite fmap_nil, promise_all_nil|].
  apply (promise_all_rejected (λ _, True)); [|done..].
  intros ns' _. by apply buildNamespace_throws.
Qed.

End Rejections.

(** *** Fallback entries, titles and logs *)

Lemma is_title_char_fmap s :
  Forall (λ c, is_title_char c = true)
    ((λ c, if is_title_char c then c else SPACE) <$> s).
Proof.
  apply Forall_fmap, Forall_forall. intros c _. simpl.
  by destruct (is_title_char c) eqn:Hc.
Qed.

Lemma fallback_entry_Ok `{Host} ns e :
  fallback_entry ns = Ok e →
  ∃ template t,
    readFile (template_path ns) = Ok template ∧ nsToTitle ns = Ok t ∧
    e = MkEntry ns
          (simplify (Translator_removePatterns (sanitize template))
             ++ [LF] ++ t) (Some t).
Proof.
  unfold fallback_entry.
  destruct (readFile (template_path ns)) as [template|]; [|done].
  destruct (nsToTitle ns) as [t|]; [|done].
  intros [= <-]. by eexists _, _.
Qed.

Lemma fallback_value_Ok `{Host} ns v :
  fallback_value ns = Ok v →
  if bool_decide (ns ∈ Object_prototype) then v = Inherited ns
  else ∃ e, v = Val e ∧ fallback_entry ns = Ok e.
Proof.
  unfold fallback_value. case_bool_decide; [by intros [= <-]|].
  destruct (fallback_entry ns) as [e|]; [|done]. intros [= <-]. by exists e.
Qed.

Lemma fallback_Ok `{Host} ns s v s' :
  coherent s → fallback ns s = (Ok v, s') → fallback_value ns = Ok v.
Proof.
  intros Hs. rewrite fallback_run.
  destruct (get_property (fallbackCache s) ns) as [v'|] eqn:Hc.
  - intros [= <- _]. by apply Hs.
  - apply get_property_None in Hc as [_ Hns].
    destruct (fallback_entry ns) as [e|] eqn:He; [|done]. intros [= <- _].
    by apply fallback_value_Val.
Qed.

(** The error handler reads no file. *)
Lemma trace_logged err s :
  ∃ evs, trace (logged err s) = trace s ++ evs ∧ ∀ path, EvReadFile path ∉ evs.
Proof.
  unfold logged. destruct (instanceof_Error err).
  - eexists [_]. split; [done|]. intros path [=]%list_elem_of_singleton.
  - exists []. split; [by rewrite app_nil_r|]. intros path. apply not_elem_of_nil.
Qed.

(** *** The shape of simplified text, by positions *)

Lemma head_is_lookup p (s : jsstring) :
  head_is p s = false ↔ ∀ d, s !! O = Some d → p d = false.
Proof.
  destruct s as [|c t]; simpl; [naive_solver|]. split.
  - by intros Hp d [= <-].
  - intros Hp. by apply Hp.
Qed.

(** [tidy], read by positions. *)
Lemma tidy_positions (s : jsstring) :
  tidy s ↔
  (TAB ∉ s) ∧ (CR ∉ s) ∧
  (∀ i c d, s !! i = Some c → s !! S i = Some d →
     is_ws c = true → is_ws d = false).
Proof.
  induction s as [|c t IH]; simpl.
  - split; [|done]. intros _. split_and!; [apply not_elem_of_nil..|].
    by intros i c d [=].
  - rewrite IH, !not_elem_of_cons, head_is_lookup. split.
    + intros (Hcr & Htab & Hadj & Ht1 & Ht2 & Ht3).
      split_and!; [done..|].
      intros [|i] a d Ha Hd Hws; simpl in *.
      * injection Ha as <-. by apply Hadj.
      * by apply (Ht3 i a d).
    + intros ((Htab & Ht1) & (Hcr & Ht2) & Hadj).
      split_and!; [done..| | done | done |].
      * intros Hws d Hd. by apply (Hadj O c d).
      * intros i a d Ha Hd. by apply (Hadj (S i) a d).
Qed.

Lemma open_then_close_simplify x : open_then_close (simplify x) = false.
Proof.
  rewrite <- open_then_close_filter. unfold simplify, replace_all.
  rewrite blanks_keep_braces, line_breaks_keep_braces.
  rewrite open_then_close_filter. apply mustaches_removed.
Qed.

(** A text that is tidy and holds no mustache is left as it is. *)
Lemma simplify_id x :
  tidy x → open_then_close x = false → simplify x = x.
Proof.
  intros Ht Hm. unfold simplify, replace_all.
  rewrite (replace_all_from_no_match re_mustache)
    by by apply test_false_search, test_mustache_false.
  rewrite line_breaks_tidy_id by done. by apply blanks_tidy_id.
Qed.

(** *** Lengths *)

Section Lengths.
Variables (r : regex) (tpl : list repl_item).

(** A global replace whose matches are never shorter than what replaces
    them, and never empty, does not lengthen the text. *)
Lemma length_replace_all_from s at_pos :
  (∀ at_pos s m, match_at r at_pos s = Some m →
     matched m ≠ [] ∧ (length (expand tpl m) ≤ length (matched m))%nat) →
  (length (replace_all_from r tpl at_pos s 0) ≤ length s)%nat.
Proof.
  intros Hm. revert s at_pos.
  apply (replace_all_from_ind r tpl (λ s o, (length o ≤ length s)%nat)).
  - intros ? ? ? ?%Hm. tauto.
  - done.
  - intros _ c t o _ Ho. simpl. lia.
  - intros at_pos s m o Hmatch Ho.
    destruct (Hm _ _ _ Hmatch) as [_ Hle].
    pose proof (length_matched r at_pos s m Hmatch) as Hs.
    rewrite length_drop in Ho. rewrite length_app. lia.
Qed.

End Lengths.

(** *** Prefixes, suffixes and occurrences *)

Lemma starts_with_iff p s : starts_with p s = true ↔ ∃ t, s = p ++ t.
Proof.
  revert s. induction p as [|a p IH]; intros s.
  - simpl. split; [by exists s|done].
  - destruct s as [|b s]; simpl.
    + split; [done|]. by intros (t & [=]).
    + rewrite andb_true_iff, N.eqb_eq, IH. split.
      * intros (-> & t & ->). by exists t.
      * intros (t & [= -> ->]). split; [done|]. by exists t.
Qed.

Lemma endsWith_iff s p : endsWith s p = true ↔ ∃ u, s = u ++ p.
Proof.
  unfold endsWith. rewrite starts_with_iff. split.
  - intros (t & Ht). exists (reverse t).
    apply (inj reverse). by rewrite reverse_app, reverse_involutive.
  - intros (u & ->). exists (reverse u). by rewrite reverse_app.
Qed.

Lemma includes_iff s p : includes s p = true ↔ ∃ u v, s = u ++ p ++ v.
Proof.
  induction s as [|c s IH].
  - simpl. rewrite orb_false_r, starts_with_iff. split.
    + intros (t & Ht). by exists [], t.
    + intros (u & v & Hs). symmetry in Hs.
      apply app_eq_nil in Hs as [-> Hs%app_eq_nil]. destruct Hs as [-> ->].
      by exists [].
  - cbn [includes]. rewrite orb_true_iff, IH, starts_with_iff. split.
    + intros [(t & ->)|(u & v & ->)].
      * by exists [], t.
      * by exists (c :: u), v.
    + intros (u & v & Hs). destruct u as [|c' u].
      * left. by exists v.
      * injection Hs as -> ->. right. by exists u, v.
Qed.

Lemma includes_false_drop s p i :
  includes s p = false → starts_with p (drop i s) = false.
Proof.
  intros Hi. apply not_true_is_false. intros (t & Ht)%starts_with_iff.
  assert (includes s p = true); [|congruence].
  apply includes_iff. exists (take i s), t.
  by rewrite <- Ht, take_drop.
Qed.

(** *** Where a pattern is found *)

Lemma match_at_Some_iff r at_pos s :
  is_Some (match_at r at_pos s) ↔ matches r (MState at_pos s []) ≠ [].
Proof.
  unfold match_at. destruct (matches r (MState at_pos s [])).
  - split; [by intros [? [=]]|done].
  - split; [done|]. by eexists.
Qed.

(** The leftmost match, with the place where it starts. *)
Lemma search_Some_at r at_pos s skipped m after :
  search r at_pos s = Some (skipped, m, after) →
  let i := length skipped in
  (i ≤ length s)%nat ∧ skipped = take i s ∧
  match_at r (at_pos + i) (drop i s) = Some m ∧
  after = drop (i + length (matched m)) s ∧
  ∀ j, (j < i)%nat → match_at r (at_pos + j) (drop j s) = None.
Proof.
  revert at_pos skipped m after.
  induction s as [|c t IH]; intros at_pos skipped m after; simpl.
  - destruct (match_at r at_pos []) eqn:Hm; [|done]. intros [= <- <- <-].
    simpl. rewrite Nat.add_0_r. split_and!; [done..|]. intros j. lia.
  - destruct (match_at r at_pos (c :: t)) eqn:Hm.
    + intros [= <- <- <-]. simpl. rewrite Nat.add_0_r.
      split_and!; [lia|done..|]. intros j. lia.
    + destruct (search r (S at_pos) t) as [[[sk m'] af]|] eqn:Hs; [|done].
      intros [= <- <- <-]. destruct (IH _ _ _ _ Hs) as (Hi & Hsk & Hmi & Haf & Hno).
      simpl. split_and!; [lia|by f_equal| |done|].
      * by rewrite <- Nat.add_succ_comm.
      * intros [|j] Hj; [by rewrite Nat.add_0_r|]. simpl.
        rewrite <- Nat.add_succ_comm. apply Hno. lia.
Qed.

Lemma test_true_iff r s :
  test r s = true ↔
  ∃ i, (i ≤ length s)%nat ∧ matches r (MState i (drop i s) []) ≠ [].
Proof.
  unfold test, exec. rewrite bool_decide_eq_true. split.
  - intros [m Hm].
    destruct (search r 0 s) as [[[skipped m'] after]|] eqn:Hs; [|done].
    apply search_Some_at in Hs as (Hi & _ & Hmi & _). simpl in Hmi.
    exists (length skipped). split; [done|].
    apply match_at_Some_iff. by rewrite Hmi.
  - intros (i & Hi & Hm%match_at_Some_iff).
    destruct (search r 0 s) as [[[skipped m'] after]|] eqn:Hs; [by eexists|].
    rewrite search_None_iff in Hs. specialize (Hs i Hi). simpl in Hs.
    rewrite Hs in Hm. by destruct Hm.
Qed.

(** *** The states a pattern can end in *)

Lemma not_nil_elem_of {A} (l : list A) : l ≠ [] ↔ ∃ x, x ∈ l.
Proof.
  destruct l as [|x l].
  - split; [done|]. by intros [x ?%elem_of_nil].
  - split; [|done]. intros _. exists x. by left.
Qed.

Lemma elem_of_matches_Seq r1 r2 st st'' :
  st'' ∈ matches (Seq r1 r2) st ↔
  ∃ st', st' ∈ matches r1 st ∧ st'' ∈ matches r2 st'.
Proof.
  rewrite matches_Seq, list_elem_of_bind. split.
  - intros (st' & ? & ?). by exists st'.
  - intros (st' & ? & ?). by exists st'.
Qed.

Lemma elem_of_matches_Alt r1 r2 st st' :
  st' ∈ matches (Alt r1 r2) st ↔ st' ∈ matches r1 st ∨ st' ∈ matches r2 st.
Proof. cbn [matches]. by rewrite elem_of_app. Qed.

Lemma elem_of_matches_Group i r st st' :
  st' ∈ matches (Group i r) st ↔
  ∃ st0, st0 ∈ matches r st ∧
    st' = MState (pos st0) (rest st0)
            ((i, take (pos st0 - pos st) (rest st)) :: caps st0).
Proof.
  cbn [matches]. rewrite list_elem_of_fmap. split.
  - intros (st0 & ? & ?). by exists st0.
  - intros (st0 & ? & ?). by exists st0.
Qed.

Lemma elem_of_matches_word w st st' :
  st' ∈ matches (word w) st ↔
  (∃ t, rest st = w ++ t) ∧ st' = adv (length w) st.
Proof.
  rewrite matches_word, <- starts_with_iff.
  destruct (starts_with w (rest st)).
  - rewrite list_elem_of_singleton. tauto.
  - rewrite elem_of_nil. split; [done|]. by intros [[=] _].
Qed.

Lemma elem_of_matches_lit1 c st st' :
  st' ∈ matches (lit1 c) st ↔
  (∃ t, rest st = c :: t) ∧ st' = adv 1 st.
Proof.
  rewrite matches_lit1. destruct (rest st) as [|x t]; cbn [head_is].
  - rewrite elem_of_nil. split; [done|]. by intros [[? [=]] _].
  - destruct (c =? x) eqn:Hx.
    + apply N.eqb_eq in Hx as ->. rewrite list_elem_of_singleton.
      split; [|tauto]. intros ->. split; [|done]. by exists t.
    + apply N.eqb_neq in Hx. rewrite elem_of_nil.
      split; [done|]. intros [[? [= ? _]] _]. done.
Qed.

Lemma elem_of_matches_Eol st st' :
  st' ∈ matches Eol st ↔ rest st = [] ∧ st' = st.
Proof.
  rewrite matches_Eol. destruct (rest st).
  - rewrite list_elem_of_singleton. tauto.
  - rewrite elem_of_nil. split; [done|]. by intros [[=] _].
Qed.

Lemma elem_of_matches_star_dot g lo st st' :
  st' ∈ matches (Quant g lo None dot) st ↔
  ∃ k, (lo ≤ k ≤ span_len is_dot (rest st))%nat ∧ st' = adv k st.
Proof.
  unfold dot. rewrite matches_Quant_Chr, list_elem_of_fmap.
  fold is_dot. split.
  - intros (k & -> & Hk%elem_of_counts). by exists k.
  - intros (k & Hk & ->). exists k. by rewrite elem_of_counts.
Qed.

(** The leading run of a class covers every prefix made of the class, and
    only those. *)
Lemma le_span_len p (s : jsstring) k :
  (k ≤ span_len p s)%nat ↔
  (k ≤ length s)%nat ∧ Forall (λ c, p c = true) (take k s).
Proof.
  revert k. induction s as [|c t IH]; intros k; simpl.
  - split.
    + intros Hk. assert (k = O) as -> by lia. by split.
    + intros [Hk _]. lia.
  - destruct k as [|k]; [simpl; split; [split; [lia|done]|lia]|].
    simpl. rewrite Forall_cons. destruct (p c) eqn:Hc.
    + rewrite <- Nat.succ_le_mono, IH. rewrite <- Nat.succ_le_mono. tauto.
    + split; [lia|]. intros [_ [? _]]. congruence.
Qed.

(** *** The two tests of [filterDirectories] *)

(** "/\/.*\//" is found in a text exactly when the text holds two slashes
    with no line terminator between them. *)
Lemma test_re_subpath s :
  test re_subpath s = true ↔
  ∃ a b c, s = a ++ SLASH :: b ++ SLASH :: c ∧
           Forall (λ x, is_line_terminator x = false) b.
Proof.
  rewrite test_true_iff. unfold re_subpath, star. cbn [cat]. split.
  - intros (i & Hi & [st3 H]%not_nil_elem_of).
    apply elem_of_matches_Seq in H as (st1 & H1 & H).
    apply elem_of_matches_lit1 in H1 as [[t Ht] ->].
    apply elem_of_matches_Seq in H as (st2 & H2 & H3).
    apply elem_of_matches_star_dot in H2 as (k & [_ Hk] & ->).
    apply elem_of_matches_lit1 in H3 as [[c Hc] _].
    cbn [rest adv] in *. rewrite Ht in Hk, Hc. rewrite skipn_cons, drop_0 in Hk, Hc.
    apply le_span_len in Hk as [Hk Hd].
    exists (take i s), (take k t), c. split.
    + rewrite <- Hc, take_drop, <- Ht. by rewrite take_drop.
    + eapply Forall_impl; [exact Hd|]. intros x. unfold is_dot.
      by intros ?%negb_true_iff.
  - intros (a & b & c & -> & Hb).
    exists (length a). split; [rewrite length_app; lia|].
    rewrite drop_app_length. apply not_nil_elem_of. eexists.
    apply elem_of_matches_Seq. eexists. split.
    { apply elem_of_matches_lit1. split; [by eexists|done]. }
    apply elem_of_matches_Seq. eexists. split.
    { apply elem_of_matches_star_dot. exists (length b). split; [|done].
      split; [lia|]. cbn [rest adv]. rewrite skipn_cons, drop_0.
      apply span_len_app_ge.
      eapply Forall_impl; [exact Hb|]. intros x Hx. unfold is_dot. by rewrite Hx. }
    apply elem_of_matches_lit1. split; [|done]. exists c. cbn [rest adv].
    by rewrite skipn_cons, drop_0, drop_app_length.
Qed.

(** "/manage\/(category|group|category-analytics)$/" is found in a text
    exactly when the text ends with one of the three names. *)
Lemma test_re_manage_excluded s :
  test re_manage_excluded s = true ↔
  ∃ u, s = u ++ js "manage/category" ∨ s = u ++ js "manage/group" ∨
       s = u ++ js "manage/category-analytics".
Proof.
  rewrite test_true_iff. unfold re_manage_excluded. cbn [cat]. split.
  - intros (i & Hi & [st3 H]%not_nil_elem_of).
    apply elem_of_matches_Seq in H as (st1 & H1 & H).
    apply elem_of_matches_word in H1 as [[t Ht] ->].
    apply elem_of_matches_Seq in H as (st2 & H2 & H3).
    apply elem_of_matches_Group in H2 as (st0 & H0 & ->).
    apply elem_of_matches_Eol in H3 as [Hend _].
    unfold adv in H0. cbn [rest pos caps] in H0, Ht.
    rewrite Ht, drop_app_length in H0.
    assert (∀ w, st0 ∈ matches (word w) (MState (i + length (js "manage/")) t [])
              → drop i s = js "manage/" ++ w) as Hw.
    { intros w [[t' Ht'] ->]%elem_of_matches_word.
      cbn [rest adv] in Hend, Ht'. subst t. rewrite drop_app_length in Hend.
      subst t'. by rewrite app_nil_r in Ht. }
    exists (take i s). rewrite <- (take_drop i s) at 1 3 5.
    apply elem_of_matches_Alt in H0 as [H0|H0].
    { apply Hw in H0. rewrite H0. by left. }
    apply elem_of_matches_Alt in H0 as [H0|H0]; apply Hw in H0; rewrite H0; auto.
  - intros (u & Hs).
    exists (length u).
    assert (∃ name, s = u ++ js "manage/" ++ name ∧
              (name = js "category" ∨ name = js "group" ∨
               name = js "category-analytics")) as (name & -> & Hname).
    { destruct Hs as [-> | [-> | ->]]; eexists; (split; [reflexivity|]); auto. }
    split; [rewrite length_app; lia|]. rewrite drop_app_length.
    apply not_nil_elem_of. eexists.
    apply elem_of_matches_Seq. eexists. split.
    { apply elem_of_matches_word. split; [by eexists|done]. }
    apply elem_of_matches_Seq. eexists. split.
    { apply elem_of_matches_Group.
      exists (adv (length name) (adv (length (js "manage/"))
                (MState (length u) (js "manage/" ++ name) []))).
      split; [|done].
      assert (adv (length name) (adv (length (js "manage/"))
                (MState (length u) (js "manage/" ++ name) []))
              ∈ matches (word name) (adv (length (js "manage/"))
                (MState (length u) (js "manage/" ++ name) []))) as Hin.
      { apply elem_of_matches_word. split; [|done]. exists [].
        cbn [rest adv]. by rewrite drop_app_length, app_nil_r. }
      destruct Hname as [-> | [-> | ->]].
      - apply elem_of_matches_Alt. by left.
      - apply elem_of_matches_Alt. right. apply elem_of_matches_Alt. by left.
      - apply elem_of_matches_Alt. right. apply elem_of_matches_Alt. by right. }
    apply elem_of_matches_Eol. split; [|done]. cbn [rest adv].
    rewrite drop_app_length. apply drop_all.
Qed.

(** *** Separators *)

Lemma join_split_go_as c d s cur :
  join [d] (split_go [c] s 0 cur) = cur ++ ((λ x, if c =? x then d else x) <$> s).
Proof.
  revert cur. induction s as [|x t IH]; intros cur.
  - simpl. by rewrite app_nil_r.
  - cbn [split_go]. rewrite starts_with_1. cbn [head_is length Nat.sub].
    rewrite fmap_cons. destruct (c =? x) eqn:Hx.
    + rewrite join_cons by apply split_go_not_nil. by rewrite IH.
    + rewrite IH. by rewrite <- app_assoc.
Qed.

(** Splitting on one code unit and joining with another replaces the one by
    the other. *)
Lemma join_split_as c d s :
  join [d] (split [c] s) = (λ x, if c =? x then d else x) <$> s.
Proof. apply (join_split_go_as c d s []). Qed.

(** *** The pattern of the template paths *)

Lemma matches_Bol st :
  matches Bol st = if decide (pos st = O) then [st] else [].
Proof. done. Qed.

Lemma matches_dot st :
  matches dot st =
  match rest st with
  | c :: _ => if is_dot c then [adv 1 st] else []
  | [] => []
  end.
Proof. unfold dot. rewrite matches_Chr. done. Qed.

Lemma matches_star_dot st :
  matches (star dot) st =
  (λ k, adv k st) <$> counts true 0 (span_len is_dot (rest st)).
Proof. unfold star, dot. by rewrite matches_Quant_Chr. Qed.

(** The end of the pattern: one code unit, "tpl", the end of the text. *)
Lemma matches_tpl_end st :
  matches (Seq dot (Seq (word (js "tpl")) Eol)) st =
  match rest st with
  | c :: t => if is_dot c && bool_decide (t = js "tpl") then [adv 4 st] else []
  | [] => []
  end.
Proof.
  rewrite matches_Seq, matches_dot. destruct (rest st) as [|c t] eqn:Hr; [done|].
  destruct (is_dot c); [|done]. cbn [andb]. rewrite bind_singleton.
  rewrite matches_Seq, matches_word. cbn [rest adv]. rewrite Hr, skipn_cons, drop_0.
  destruct (starts_with (js "tpl") t) eqn:Hs.
  - apply starts_with_iff in Hs as [t' ->]. rewrite bind_singleton, matches_Eol.
    cbn [rest adv]. rewrite Hr, skipn_cons, drop_0, drop_app_length.
    destruct t' as [|x t'].
    + rewrite app_nil_r, bool_decide_eq_true_2 by done. by rewrite adv_adv.
    + rewrite bool_decide_eq_false_2; [done|].
      intros Heq. apply (f_equal length) in Heq. rewrite length_app in Heq.
      simpl in Heq. lia.
  - rewrite bool_decide_eq_false_2; [done|]. intros ->.
    pose proof (starts_with_app (js "tpl") []) as Hx.
    rewrite app_nil_r in Hx. congruence.
Qed.

Lemma is_dot_js_admin : Forall (λ c, is_dot c = true) (js "admin").
Proof. by repeat constructor. Qed.

Lemma is_dot_js_tpl : Forall (λ c, is_dot c = true) (js "tpl").
Proof. by repeat constructor. Qed.

(** "admin" does not start inside itself. *)
Lemma starts_with_admin_inside j (t : jsstring) :
  (1 ≤ j ≤ 4)%nat → starts_with (js "admin") (drop j (js "admin" ++ t)) = false.
Proof.
  intros Hj. change (js "admin") with [97; 100; 109; 105; 110].
  destruct j as [|[|[|[|[|j]]]]]; try lia; reflexivity.
Qed.

Lemma reverse_seq_split k n :
  (k ≤ n)%nat →
  reverse (seq 0 (S n)) =
  reverse (seq (S k) (n - k)) ++ k :: reverse (seq 0 k).
Proof.
  intros Hk. rewrite (seq_split 0 k (S n)) by lia.
  rewrite reverse_app, reverse_cons, <- app_assoc.
  replace (0 + S n - S k)%nat with (n - k)%nat by lia.
  by rewrite Nat.sub_0_r.
Qed.

Lemma search_here r at_pos s m :
  match_at r at_pos s = Some m →
  search r at_pos s = Some ([], m, drop (length (matched m)) s).
Proof. intros Hm. destruct s; simpl; by rewrite Hm. Qed.

Section TplPath.
Variables (pre mid : jsstring) (c : N).
Hypothesis Hdots : Forall (λ x, is_dot x = true) (pre ++ mid ++ [c]).
Hypothesis Hlast : includes (mid ++ [c] ++ js "tpl") (js "admin") = false.

Let dir : jsstring := pre ++ js "admin" ++ mid ++ [c] ++ js "tpl".

Lemma tpl_path_dots : Forall (λ x, is_dot x = true) dir.
Proof using Hdots.
  unfold dir. apply Forall_app in Hdots as [Hp [Hm Hc]%Forall_app].
  repeat (apply Forall_app; split);
    auto using is_dot_js_admin, is_dot_js_tpl.
Qed.

Lemma tpl_path_no_later_admin k :
  (length pre < k)%nat → starts_with (js "admin") (drop k dir) = false.
Proof using Hlast.
  intros Hk. unfold dir. rewrite drop_app_ge by lia.
  destruct (decide (k - length pre ≤ 4)%nat) as [Hj|Hj].
  - apply starts_with_admin_inside. lia.
  - rewrite drop_app_ge by (change (length (js "admin")) with 5%nat; lia).
    by apply includes_false_drop.
Qed.

Lemma matches_group_admin st :
  matches (Group 1 (Seq (word (js "admin")) (star_lazy dot))) st =
  if starts_with (js "admin") (rest st) then
    (λ j, MState (pos st + 5 + j) (drop (5 + j) (rest st))
            ((1%nat, take (5 + j) (rest st)) :: caps st))
      <$> seq 0 (S (span_len is_dot (drop 5 (rest st))))
  else [].
Proof.
  cbn [matches]. fold (matches (word (js "admin")) st).
  fold (matches (star_lazy dot)). rewrite matches_word.
  destruct (starts_with (js "admin") (rest st)); [|done].
  rewrite bind_singleton. unfold star_lazy, dot. rewrite matches_Quant_Chr.
  fold is_dot. unfold counts. rewrite Nat.sub_0_r, <- list_fmap_compose.
  change (length (js "admin")) with 5%nat. cbn [rest adv].
  apply list_fmap_ext. intros _ j _. unfold compose, adv. cbn [pos rest caps].
  rewrite drop_drop. f_equal.
  replace (pos st + 5 + j - pos st)%nat with (5 + j)%nat by lia. done.
Qed.

(** The first way to match the pattern on [dir]: the group starts at the
    last "admin" and ends before the last four code units. *)
Lemma match_at_re_tpl_path :
  match_at re_tpl_path 0 dir =
  Some (RMatch dir [(1%nat, js "admin" ++ mid)]).
Proof using Hdots Hlast.
  pose proof tpl_path_dots as Hd.
  rewrite match_at_head. unfold re_tpl_path. cbn [cat].
  rewrite matches_Seq, matches_Bol. cbn [pos]. rewrite decide_True by done.
  rewrite bind_singleton, matches_Seq, matches_star_dot. cbn [rest].
  rewrite (span_len_all _ _ Hd). unfold counts. rewrite Nat.sub_0_r.
  set (n := length dir). set (k0 := length pre).
  assert (Hn : n = (k0 + 5 + length mid + 4)%nat).
  { unfold n, dir, k0. rewrite !length_app.
    change (length (js "admin")) with 5%nat.
    change (length (js "tpl")) with 3%nat. simpl. lia. }
  rewrite (reverse_seq_split k0 n) by lia.
  rewrite fmap_app, fmap_cons.
  set (final := MState n [] [(1%nat, js "admin" ++ mid)]).
  rewrite (head_bind_first _ _ _ _ final).
  - cbn [fmap option_fmap option_map]. unfold final, n. cbn [pos caps].
    by rewrite Nat.sub_0_r, firstn_all.
  - intros st1 (k & -> & Hk%elem_of_reverse%elem_of_seq)%list_elem_of_fmap.
    rewrite matches_Seq, matches_group_admin. cbn [rest adv].
    rewrite tpl_path_no_later_admin by (fold k0; lia). done.
  - rewrite matches_Seq, matches_group_admin. cbn [rest adv pos caps].
    assert (Hr : drop k0 dir = js "admin" ++ mid ++ [c] ++ js "tpl")
      by apply drop_app_length.
    rewrite Hr, starts_with_app.
    assert (Hr5 : drop 5 (js "admin" ++ mid ++ [c] ++ js "tpl")
                  = mid ++ [c] ++ js "tpl")
      by apply (drop_app_length (js "admin")).
    rewrite Hr5.
    assert (Hd2 : Forall (λ x, is_dot x = true) (mid ++ [c] ++ js "tpl")).
    { rewrite <- Hr5, <- Hr. by apply Forall_drop, Forall_drop. }
    rewrite (span_len_all _ _ Hd2).
    set (j0 := length mid).
    assert (Hl2 : length (mid ++ [c] ++ js "tpl") = (j0 + 4)%nat).
    { rewrite !length_app. change (length (js "tpl")) with 3%nat. simpl. lia. }
    rewrite Hl2.
    rewrite (seq_split 0 j0 (S (j0 + 4))) by lia.
    rewrite fmap_app, fmap_cons. apply head_bind_first.
    + intros st2 (j & -> & Hj%elem_of_seq)%list_elem_of_fmap.
      rewrite matches_tpl_end. cbn [rest].
      rewrite <- drop_drop, Hr5.
      destruct (drop j (mid ++ [c] ++ js "tpl")) as [|x t] eqn:Hdj; [done|].
      rewrite bool_decide_eq_false_2, andb_false_r; [done|]. intros ->.
      apply (f_equal length) in Hdj. rewrite length_drop, Hl2 in Hdj.
      change (length (x :: js "tpl")) with 4%nat in Hdj. lia.
    + rewrite matches_tpl_end. cbn [rest].
      rewrite <- drop_drop, Hr5. unfold j0. rewrite drop_app_length.
      cbn [app]. apply Forall_app in Hdots as [_ [_ Hc]%Forall_app].
      rewrite Forall_singleton in Hc.
      rewrite Hc, bool_decide_eq_true_2 by done.
      cbn [andb head]. unfold final, adv. cbn [pos rest caps]. f_equal. f_equal.
      * rewrite Hn. unfold j0. lia.
      * do 2 f_equal. rewrite (app_assoc (js "admin")).
        replace (5 + length mid)%nat with (length (js "admin" ++ mid))
          by (rewrite length_app; done).
        apply take_app_length.
Qed.

(** The replace of "/^.*(admin.*?).tpl$/" by "$1" on [dir]. *)
Lemma replace_re_tpl_path :
  replace re_tpl_path [Ref 1] dir = js "admin" ++ mid.
Proof using Hdots Hlast.
  unfold replace. rewrite (search_here _ _ _ _ match_at_re_tpl_path).
  cbn [matched]. rewrite drop_all. unfold expand, group. cbn [groups].
  simpl. by rewrite !app_nil_r.
Qed.

End TplPath.

(** What the pattern of the template paths matches. *)
Lemma elem_of_matches_re_tpl_path st st' :
  st' ∈ matches re_tpl_path st →
  pos st = O ∧ ∃ pre mid c, rest st = pre ++ js "admin" ++ mid ++ [c] ++ js "tpl".
Proof.
  unfold re_tpl_path. cbn [cat]. intros H.
  apply elem_of_matches_Seq in H as (st1 & H1 & H).
  rewrite matches_Bol in H1. destruct (decide (pos st = O)) as [Hp|]; [|by apply elem_of_nil in H1].
  apply list_elem_of_singleton in H1 as ->. split; [done|].
  apply elem_of_matches_Seq in H as (st2 & H2 & H).
  apply elem_of_matches_star_dot in H2 as (k & _ & ->).
  apply elem_of_matches_Seq in H as (st3 & H3 & H).
  rewrite matches_group_admin in H3. cbn [rest adv] in H3.
  destruct (starts_with (js "admin") (drop k (rest st))) eqn:Hsw;
    [|by apply elem_of_nil in H3].
  apply starts_with_iff in Hsw as [t Ht].
  apply list_elem_of_fmap in H3 as (j & -> & _).
  rewrite matches_tpl_end in H. cbn [rest] in H.
  rewrite Ht in H. rewrite <- drop_drop in H.
  change (drop 5 (js "admin" ++ t)) with t in H.
  destruct (drop j t) as [|c t'] eqn:Hdj; [by apply elem_of_nil in H|].
  destruct (is_dot c); [|by apply elem_of_nil in H]. cbn [andb] in H.
  destruct (bool_decide (t' = js "tpl")) eqn:Ht'; [|by apply elem_of_nil in H].
  apply bool_decide_eq_true in Ht' as ->.
  exists (take k (rest st)), (take j t), c.
  rewrite <- (take_drop k (rest st)) at 1. rewrite Ht. do 2 f_equal.
  rewrite <- (take_drop j t) at 1. by rewrite Hdj.
Qed.

(** A text that the pattern does not match is left as it is. *)
Lemma replace_re_tpl_path_unchanged s :
  (¬ ∃ pre mid c, s = pre ++ js "admin" ++ mid ++ [c] ++ js "tpl") →
  replace re_tpl_path [Ref 1] s = s.
Proof.
  intros Hno. unfold replace.
  assert (search re_tpl_path 0 s = None) as ->; [|done].
  apply search_None_iff. intros i Hi. simpl.
  destruct (match_at re_tpl_path i (drop i s)) eqn:Hm; [|done].
  assert (is_Some (match_at re_tpl_path i (drop i s))) as Hsome by by eexists.
  apply match_at_Some_iff, not_nil_elem_of in Hsome as [st' Hst'].
  apply elem_of_matches_re_tpl_path in Hst' as [Hp (pre & mid & c & Hr)].
  cbn [pos rest] in Hp, Hr. subst i. rewrite drop_0 in Hr.
  destruct Hno. by exists pre, mid, c.
Qed.

(** *** The namespaces of [filterDirectories] *)

Section Directories.
Context `{Host}.

(** The conversion of the separators, by platform. *)
Lemma join_split_path_sep s :
  join (js "/") (split path_sep s) =
  match platform with
  | posix => s
  | win32 => (λ x, if BACKSLASH =? x then SLASH else x) <$> s
  end.
Proof.
  unfold path_sep. change (js "/") with [SLASH]. destruct platform.
  - apply join_split.
  - apply join_split_as.
Qed.

Lemma elem_of_filterDirectories dirs ns :
  ns ∈ filterDirectories dirs ↔
  ∃ dir, dir ∈ dirs ∧
    ns = join (js "/") (split path_sep (replace re_tpl_path [Ref 1] dir)) ∧
    endsWith ns (js ".js") = false ∧
    includes ns (js "/partials/") = false ∧
    test re_subpath ns = true ∧
    test re_manage_excluded ns = false.
Proof.
  unfold filterDirectories. rewrite list_elem_of_filter, list_elem_of_fmap.
  rewrite !andb_true_iff, !negb_true_iff. split.
  - intros ((((? & ?) & ?) & ?) & dir & ? & ?). by exists dir.
  - intros (dir & ? & ? & ? & ? & ? & ?). split; [done|]. by exists dir.
Qed.

Lemma filterDirectories_singleton dir :
  filterDirectories [dir] =
  let ns := join (js "/") (split path_sep (replace re_tpl_path [Ref 1] dir)) in
  if negb (endsWith ns (js ".js")) && negb (includes ns (js "/partials/"))
     && test re_subpath ns && negb (test re_manage_excluded ns)
  then [ns] else [].
Proof.
  unfold filterDirectories. cbn [fmap list_fmap]. rewrite filter_cons, filter_nil.
  cbv zeta.
  destruct (negb _ && negb _ && test _ _ && negb _) eqn:Hk.
  - by rewrite decide_True.
  - by rewrite decide_False by (by intros ?).
Qed.

End Directories.

(** A text without a slash does not pass the test for subpaths. *)
Lemma test_re_subpath_no_slash s : SLASH ∉ s → test re_subpath s = false.
Proof.
  intros Hs. apply not_true_is_false.
  intros (a & b & c & -> & _)%test_re_subpath.
  apply Hs. rewrite elem_of_app. right. by left.
Qed.

(** *** What is returned does not depend on the caches *)

Section Results.
Context `{Host}.

(** The namespaces that [filterDirectories] returns hold a slash: none is a
    name of [Object.prototype]. *)
Lemma filterDirectories_not_inherited dirs ns :
  ns ∈ filterDirectories dirs → ns ∉ Object_prototype.
Proof.
  intros (dir & _ & _ & _ & _ & Hsub & _)%elem_of_filterDirectories Hin.
  apply test_re_subpath in Hsub as (a & b & c & -> & _).
  apply (Object_prototype_no_slash _ Hin).
  rewrite elem_of_app. right. left.
Qed.

Lemma entry_of_Val translator ns :
  ns ∉ Object_prototype →
  ∃ e, entry_of translator ns = Val e ∧ namespace e = ns.
Proof.
  intros Hns. unfold entry_of, fallback_value.
  rewrite bool_decide_eq_false_2 by done.
  destruct (getTranslation translator ns) as [tbl|]; [|by eexists].
  destruct (no_translations tbl).
  - destruct (fallback_entry ns) as [e|] eqn:He; [|by eexists].
    cbn [mbind Result_bind]. exists e. split; [done|].
    by apply fallback_entry_Ok in He as (? & ? & _ & _ & ->).
  - destruct (translate translator _); by eexists.
Qed.

Lemma namespace_entries translator (nss : list jsstring) :
  Forall (λ ns, ns ∉ Object_prototype) nss →
  ∃ es, entry_of translator <$> nss = Val <$> es ∧ namespace <$> es = nss.
Proof.
  induction 1 as [|ns nss Hns _ (es & Hes & Hnss)]; [by exists []|].
  destruct (entry_of_Val translator ns Hns) as (e & He & Hn).
  exists (e :: es). by rewrite !fmap_cons, He, Hes, Hn, Hnss.
Qed.

Lemma fallback_result ns s :
  coherent s → fst (fallback ns s) = fallback_value ns.
Proof.
  intros Hs. rewrite fallback_run.
  destruct (get_property (fallbackCache s) ns) as [v|] eqn:Hc.
  - by rewrite (Hs _ _ Hc).
  - apply get_property_None in Hc as [_ Hns]. unfold fallback_value.
    rewrite bool_decide_eq_false_2 by done.
    by destruct (fallback_entry ns).
Qed.

Lemma buildNamespace_result language ns s :
  coherent s →
  fst (buildNamespace language ns s) =
  translator ← Translator_create language; Ok (entry_of translator ns).
Proof.
  intros Hs. destruct (Translator_create language) as [translator|err] eqn:Hc.
  - by apply buildNamespace_entry.
  - by rewrite (buildNamespace_rejects _ _ _ err).
Qed.

Lemma initDict_result language s :
  coherent s → fst (initDict language s) = dictionary language.
Proof.
  intros Hs. rewrite initDict_run. unfold dictionary.
  destruct (file_walk admin_dir) as [dirs|err]; [|done].
  cbn [mbind Result_bind].
  destruct (Translator_create language) as [translator|err] eqn:Hc.
  - rewrite (promise_all_builds _ translator) by done.
    by destruct (filterDirectories dirs).
  - rewrite (promise_all_builds_Throw _ _ _ err) by done.
    by destruct (filterDirectories dirs).
Qed.

Lemma getDictionary_result language s :
  coherent s → cache_coherent s →
  fst (getDictionary language s) = dictionary_value language.
Proof.
  intros Hs Hd. rewrite getDictionary_run.
  destruct (get_property (cache s) language) as [v|] eqn:Hc.
  - by rewrite (Hd _ _ Hc).
  - apply get_property_None in Hc as [_ Hl]. unfold dictionary_value.
    rewrite bool_decide_eq_false_2 by done.
    rewrite <- (initDict_result language s Hs).
    by destruct (initDict language s) as [[d|err] s'].
Qed.

Lemma cache_coherent_init : cache_coherent init.
Proof.
  intros language v [-> Hl]%get_property_empty. unfold dictionary_value.
  by rewrite bool_decide_eq_true_2.
Qed.

Lemma getDictionary_cache_coherent language s :
  coherent s → cache_coherent s →
  cache_coherent (snd (getDictionary language s)).
Proof.
  intros Hs Hd. rewrite getDictionary_run.
  destruct (get_property (cache s) language) as [v|] eqn:Hc; [done|].
  pose proof (initDict_result language s Hs) as Hr.
  destruct (initDict_inv language s) as (_ & Hca & _).
  apply get_property_None in Hc as [_ Hl].
  destruct (initDict language s) as [[d|err] s']; cbn [fst snd] in *.
  - intros l v. cbn [cache].
    destruct (decide (language = l)) as [<-|Hne].
    + rewrite get_property_insert. intros [= <-]. unfold dictionary_value.
      rewrite bool_decide_eq_false_2 by done. by rewrite <- Hr.
    + rewrite get_property_insert_ne, Hca by done. apply Hd.
  - intros l v. rewrite Hca. apply Hd.
Qed.

Lemma run_op_cache_coherent op s :
  coherent s → cache_coherent s → cache_coherent (run_op op s).
Proof.
  intros Hs Hd. destruct op as [language ns|language]; cbn [run_op].
  - destruct (buildNamespace_inv language ns s) as (_ & Hca & _).
    intros l d. rewrite Hca. apply Hd.
  - by apply getDictionary_cache_coherent.
Qed.

Lemma run_ops_cache_coherent ops s :
  coherent s → cache_coherent s → cache_coherent (run_ops ops s).
Proof.
  revert s. induction ops as [|op ops IH]; intros s Hs Hd; [done|].
  simpl. apply IH.
  - by apply run_op_inv.
  - by apply run_op_cache_coherent.
Qed.

Lemma run_ops_init_coherent ops :
  coherent (run_ops ops init) ∧ cache_coherent (run_ops ops init).
Proof.
  split.
  - apply run_ops_inv, coherent_init.
  - apply run_ops_cache_coherent; [apply coherent_init|apply cache_coherent_init].
Qed.

Lemma dictionary_namespaces language d :
  dictionary language = Ok d →
  ∃ dirs es, file_walk admin_dir = Ok dirs ∧ d = Val <$> es ∧
             namespace <$> es = filterDirectories dirs.
Proof.
  unfold dictionary. destruct (file_walk admin_dir) as [dirs|]; [|done].
  cbn [mbind Result_bind]. intros Hd. exists dirs.
  destruct (filterDirectories dirs) as [|ns nss] eqn:Hnss;
    [injection Hd as <-; by exists []|].
  destruct (Translator_create language) as [translator|]; [|done].
  injection Hd as <-.
  destruct (namespace_entries translator (ns :: nss)) as (es & Hes & Hn).
  { apply Forall_forall. intros ns' Hin.
    apply (filterDirectories_not_inherited dirs). by rewrite Hnss. }
  by exists es.
Qed.

(** *** What a call leaves as it is *)

Lemma fallback_frame ns s ns' :
  ns' ≠ ns →
  fallbackCache (snd (fallback ns s)) !! ns' = fallbackCache s !! ns'.
Proof.
  intros Hns. rewrite fallback_run.
  destruct (get_property (fallbackCache s) ns) as [v|]; [done|].
  destruct (fallback_entry ns) as [e|err]; [|done].
  cbn [snd fallbackCache]. by rewrite lookup_insert_ne.
Qed.

Lemma buildNamespace_frame language ns s ns' :
  ns' ≠ ns →
  fallbackCache (snd (buildNamespace language ns s)) !! ns' =
  fallbackCache s !! ns'.
Proof.
  intros Hns. rewrite buildNamespace_run. cbv zeta.
  destruct (Translator_create language) as [translator|err]; [|done].
  destruct (getTranslation translator ns) as [tbl|err];
    [|cbn [snd]; by rewrite fallbackCache_logged].
  destruct (no_translations tbl).
  - pose proof (fallback_frame ns
      (record (EvGetTranslation language ns) (record (EvCreate language) s))
      ns' Hns) as Hf.
    destruct (run (fallback ns) _) as [[e|err] s2]; cbn [snd] in *.
    + by rewrite Hf.
    + by rewrite fallbackCache_logged, Hf.
  - destruct (translate translator _); cbn [snd];
      [done|by rewrite fallbackCache_logged].
Qed.

(** *** Counting the calls *)

Lemma count_event_app ev tr1 tr2 :
  count_event ev (tr1 ++ tr2) = (count_event ev tr1 + count_event ev tr2)%nat.
Proof. unfold count_event. by rewrite filter_app, length_app. Qed.

Lemma count_event_record ev ev' s :
  count_event ev (trace (record ev' s)) =
  (count_event ev (trace s) + if decide (ev' = ev) then 1 else 0)%nat.
Proof.
  unfold record. cbn [trace]. rewrite count_event_app. f_equal.
  unfold count_event. rewrite filter_cons, filter_nil. by case_decide.
Qed.

Lemma count_event_record_ne ev ev' s :
  ev' ≠ ev → count_event ev (trace (record ev' s)) = count_event ev (trace s).
Proof. intros Hne. rewrite count_event_record, decide_False by done. lia. Qed.

(** A build that has been started asks for no further translator. *)
Lemma buildNamespace_resumed_counts language translator ns c s0 :
  Translator_create language = Ok translator →
  safe (λ s, count_event (EvCreate language) (trace s) = c) (λ _, True)
    (segment (buildNamespace language ns) s0).1.
Proof.
  intros Hcreate. eapply buildNamespace_resumed_safe; [done|..].
  - intros ev s _ Hev _ <-. apply count_event_record_ne, Hev.
  - by intros e s1 s _ _ _ <-.
  - destruct (getTranslation translator ns) as [tbl|]; [|done].
    destruct (no_translations tbl).
    + split; [done|]. intros s _ _. by destruct (fallback_entry ns).
    + by destruct (translate translator _).
Qed.

(** The builds that are started create a translator each. *)
Lemma start_builds_counts language nss e s :
  count_event (EvCreate language)
    (trace (start (buildNamespace language <$> nss) e s).2) =
  (count_event (EvCreate language) (trace s) + length nss)%nat ∧
  Forall (λ m, ∀ c,
            safe (λ s, count_event (EvCreate language) (trace s) = c)
              (λ _, True) m)
    (start (buildNamespace language <$> nss) e s).1.1.
Proof.
  revert e s. induction nss as [|ns nss IH]; intros e s.
  { split; [simpl; lia|done]. }
  rewrite fmap_cons. cbn [start].
  destruct (buildNamespace_segment language ns s) as [Hs1 Hm].
  pose proof (λ translator c,
    buildNamespace_resumed_counts language translator ns c s) as Hrest.
  destruct (segment (buildNamespace language ns) s) as [m s1].
  cbn [fst snd] in Hs1, Hm, Hrest.
  destruct (IH (or_rejection e m) s1) as [Hc Hms].
  destruct (start _ _ s1) as [[ms e'] s2]. cbn [fst snd length] in *.
  split.
  - rewrite Hc, Hs1.
    destruct (Translator_create language);
      rewrite ?count_event_record_ne by done;
      rewrite count_event_record, decide_True by done; lia.
  - constructor; [|done]. intros c.
    destruct (Translator_create language) as [translator|err].
    + by apply (Hrest translator).
    + by rewrite (Hm err).
Qed.

(** A [Promise.all] of builds creates one translator for each build and
    walks nothing, in whatever order the builds are resumed. *)
Lemma promise_all_builds_counts language nss s :
  let s' := snd (promise_all (buildNamespace language <$> nss) s) in
  count_event (EvCreate language) (trace s') =
    (count_event (EvCreate language) (trace s) + length nss)%nat ∧
  ∀ dir, count_event (EvWalk dir) (trace s') = count_event (EvWalk dir) (trace s).
Proof.
  cbv zeta. split.
  - unfold promise_all.
    destruct (start_builds_counts language nss None s) as [Hc Hms].
    destruct (start _ None s) as [[ms e] s1]. cbn [fst snd] in *.
    set (I := λ s', count_event (EvCreate language) (trace s') =
                    (count_event (EvCreate language) (trace s) + length nss)%nat).
    assert (Hall : Forall2 (safe I) ((λ _ _, True) <$> ms) ms).
    { apply Forall2_fmap_l, Forall_Forall2_diag.
      eapply Forall_impl; [done|]. intros m Hm. apply Hm. }
    destruct (resume_safe I _ (resume_order (trace s)) ms e s1 Hall Hc)
      as [Hall' Hc'].
    destruct (resume _ ms e s1) as [[ms' e'] s2]. cbn [fst snd] in *.
    destruct (finish_safe I _ ms' e' s2 Hall' Hc') as [_ Hc''].
    by destruct (finish ms' e' s2) as [[rs e''] s3].
  - intros dir.
    apply (promise_all_keeps
             (λ s', count_event (EvWalk dir) (trace s') =
                    count_event (EvWalk dir) (trace s))); [|done].
    intros ns _. apply buildNamespace_safe.
    + intros ev s1 Hev <-. apply count_event_record_ne, Hev.
    + by intros e s1 s2 _ _ _ <-.
    + done.
    + intros translator _.
      destruct (getTranslation translator ns) as [tbl|]; [|done].
      destruct (no_translations tbl).
      * split; [done|]. intros s1 _ _. by destruct (fallback_entry ns).
      * by destruct (translate translator _).
Qed.

End Results.

(** *** Where the title pattern is found *)

Lemma elem_of_matches_Group_plus_lazy_dot i st st' :
  st' ∈ matches (Group i (plus_lazy dot)) st ↔
  ∃ k, (1 ≤ k ≤ span_len is_dot (rest st))%nat ∧ st' = grp i k st.
Proof.
  rewrite matches_Group_plus_lazy_dot, list_elem_of_fmap. split.
  - intros (k & -> & Hk%elem_of_seq). exists k. split; [lia|done].
  - intros (k & Hk & ->). exists k. split; [done|]. apply elem_of_seq. lia.
Qed.

Lemma exec_is_Some r s : is_Some (exec r s) ↔ test r s = true.
Proof. unfold test. by rewrite bool_decide_eq_true. Qed.

(** "/admin\/(.+?)\/(.+?)$/" is found in a text exactly when the text holds
    "admin/", a section, a slash and a page up to its end, the section and
    the page not empty and without line terminators. *)
Lemma exec_re_title_is_Some ns :
  is_Some (exec re_title ns) ↔
  ∃ pre section page,
    ns = pre ++ js "admin/" ++ section ++ SLASH :: page ∧
    section ≠ [] ∧ page ≠ [] ∧
    Forall (λ x, is_line_terminator x = false) (section ++ page).
Proof.
  rewrite exec_is_Some, test_true_iff. unfold re_title. cbn [cat]. split.
  - intros (i & Hi & [st5 H]%not_nil_elem_of).
    apply elem_of_matches_Seq in H as (st1 & H1 & H).
    apply elem_of_matches_word in H1 as [[t Ht] ->].
    apply elem_of_matches_Seq in H as (st2 & H2 & H).
    apply elem_of_matches_Group_plus_lazy_dot in H2 as (k & [Hk1 Hk] & ->).
    apply elem_of_matches_Seq in H as (st3 & H3 & H).
    apply elem_of_matches_lit1 in H3 as [[t' Ht'] ->].
    apply elem_of_matches_Seq in H as (st4 & H4 & H).
    apply elem_of_matches_Group_plus_lazy_dot in H4 as (k' & [Hk1' Hk'] & ->).
    apply elem_of_matches_Eol in H as [Hend _].
    unfold adv, grp in *. cbn [rest pos caps] in *.
    rewrite Ht, drop_app_length in Hk, Ht', Hk', Hend.
    rewrite Ht' in Hk', Hend. rewrite skipn_cons, drop_0 in Hk', Hend.
    apply le_span_len in Hk as [Hkl Hkd]. apply le_span_len in Hk' as [Hkl' Hkd'].
    assert (Hpage : take k' t' = t').
    { apply take_ge. apply (f_equal length) in Hend.
      rewrite length_drop in Hend. simpl in Hend. lia. }
    rewrite Hpage in Hkd'.
    exists (take i ns), (take k t), t'. split_and!.
    + rewrite <- (take_drop i ns) at 1. rewrite Ht. do 2 f_equal.
      rewrite <- (take_drop k t) at 1. by rewrite Ht'.
    + intros Hnil. apply (f_equal length) in Hnil.
      rewrite length_take in Hnil. simpl in Hnil. lia.
    + intros ->. simpl in Hkl'. lia.
    + apply Forall_app. split; (eapply Forall_impl; [eassumption|]);
        intros x; unfold is_dot; by intros ?%negb_true_iff.
  - intros (pre & section & page & -> & Hs & Hp & [Hds Hdp]%Forall_app).
    assert (Hdot : ∀ l : jsstring, Forall (λ x, is_line_terminator x = false) l →
                     Forall (λ x, is_dot x = true) l).
    { intros l Hl. eapply Forall_impl; [exact Hl|].
      intros x Hx. unfold is_dot. by rewrite Hx. }
    exists (length pre). split; [rewrite length_app; lia|].
    rewrite drop_app_length. apply not_nil_elem_of. eexists.
    apply elem_of_matches_Seq. eexists. split.
    { apply elem_of_matches_word. split; [by eexists|done]. }
    apply elem_of_matches_Seq. eexists. split.
    { apply elem_of_matches_Group_plus_lazy_dot. exists (length section).
      split; [|done]. cbn [rest adv]. rewrite drop_app_length. split.
      - destruct section; [done|simpl; lia].
      - apply span_len_app_ge; auto. }
    apply elem_of_matches_Seq. eexists. split.
    { apply elem_of_matches_lit1. split; [|done]. exists page.
      cbn [rest adv grp]. by rewrite drop_app_length, drop_app_length. }
    apply elem_of_matches_Seq. eexists. split.
    { apply elem_of_matches_Group_plus_lazy_dot. exists (length page).
      split; [|done]. cbn [rest adv grp].
      rewrite drop_app_length, drop_app_length, skipn_cons, drop_0. split.
      - destruct page; [done|simpl; lia].
      - rewrite span_len_all by auto. done. }
    apply elem_of_matches_Eol. split; [|done]. cbn [rest adv grp].
    rewrite drop_app_length, drop_app_length, skipn_cons, drop_0.
    apply drop_all.
Qed.

(** The title key is empty only when the pattern is not found. *)
Lemma title_key_nil m : title_key m = [] ↔ m = None.
Proof.
  destruct m as [m|]; [|done]. split; [|done]. unfold title_key.
  change (js "[[admin/menu:section-") with (91 :: js "[admin/menu:section-").
  done.
Qed.

(** *** The first occurrence of a text *)

Lemma replace_first_absent pat rep s :
  includes s pat = false → replace_first pat rep s = s.
Proof.
  induction s as [|c s IH]; cbn [includes replace_first].
  - intros [-> _]%orb_false_iff. done.
  - intros [-> Hi]%orb_false_iff. by rewrite IH.
Qed.

Lemma replace_first_here pat rep s :
  starts_with pat s = true →
  replace_first pat rep s = rep ++ drop (length pat) s.
Proof. intros Hs. destruct s; cbn [replace_first]; by rewrite Hs. Qed.

(** The first occurrence of [pat] is the one after [pre] when [pat] does not
    start earlier: it does not start in [pre] followed by [pat] less its last
    code unit. *)
Lemma replace_first_at pat rep pre post :
  pat ≠ [] →
  includes (pre ++ take (length pat - 1) pat) pat = false →
  replace_first pat rep (pre ++ pat ++ post) = pre ++ rep ++ post.
Proof.
  intros Hpat. induction pre as [|c pre IH]; intros Hno.
  - cbn [app]. rewrite replace_first_here by apply starts_with_app.
    by rewrite drop_app_length.
  - cbn [app includes replace_first] in *.
    apply orb_false_iff in Hno as [Hhere Hno].
    assert (starts_with pat (c :: pre ++ pat ++ post) = false) as ->.
    { apply not_true_is_false. intros (t & Ht)%starts_with_iff.
      assert (starts_with pat (c :: pre ++ take (length pat - 1) pat) = true);
        [|congruence].
      apply starts_with_iff.
      assert (Hlen : (length pat ≤ length (c :: pre ++ take (length pat - 1) pat))%nat).
      { simpl. rewrite length_app, length_take. lia. }
      exists (drop (length pat) (c :: pre ++ take (length pat - 1) pat)).
      rewrite <- (take_drop (length pat) (c :: pre ++ take (length pat - 1) pat)) at 1.
      f_equal.
      assert (take (length pat) (c :: pre ++ pat ++ post) = pat) as Hp.
      { rewrite Ht. apply take_app_length. }
      assert (c :: pre ++ pat ++ post =
              (c :: pre ++ take (length pat - 1) pat)
                ++ drop (length pat - 1) pat ++ post) as Heq.
      { rewrite <- (take_drop (length pat - 1) pat) at 1.
        cbn [app]. by rewrite <- !app_assoc. }
      rewrite Heq, take_app_le in Hp by done. done. }
    by rewrite IH.
Qed.

(** *** Text made of white space *)

Lemma open_then_close_ws s :
  Forall (λ c, is_ws c = true) s → open_then_close s = false.
Proof.
  intros Hs. rewrite <- open_then_close_filter.
  by rewrite filter_brace_ws.
Qed.

Lemma mustache_ws s :
  Forall (λ c, is_ws c = true) s →
  replace_all re_mustache [Lit []] s = s.
Proof.
  intros Hs. apply replace_all_from_no_match.
  by apply test_false_search, test_mustache_false, open_then_close_ws.
Qed.

Lemma span_len_lt p (s : jsstring) c :
  c ∈ s → p c = false → (span_len p s < length s)%nat.
Proof.
  induction s as [|x t IH]; [by intros ?%elem_of_nil|].
  intros [->|Hin]%elem_of_cons Hc; simpl.
  - rewrite Hc. lia.
  - destruct (p x); [|lia]. specialize (IH Hin Hc). lia.
Qed.

Lemma replace_all_from_whole r tpl s m :
  s ≠ [] → match_at r 0 s = Some m → matched m = s →
  match_at r (length s) [] = None →
  replace_all r tpl s = expand tpl m.
Proof.
  intros Hs Hm Hall Hend. unfold replace_all.
  destruct s as [|c t]; [done|].
  rewrite (replace_all_from_Some r tpl 0 (c :: t) m (length t)) by (by rewrite ?Hall).
  change (S (length t)) with (length (c :: t)).
  rewrite drop_all. cbn [replace_all_from Nat.add]. rewrite Hend.
  by rewrite app_nil_r.
Qed.

(** Blanks without a line break become one space. *)
Lemma simplify_blanks s :
  s ≠ [] → Forall (λ c, is_blank c = true) s → simplify s = [SPACE].
Proof.
  intros Hne Hs.
  assert (Hws : Forall (λ c, is_ws c = true) s).
  { eapply Forall_impl; [exact Hs|]. intros c Hc. apply is_ws_cases. by left. }
  unfold simplify. rewrite mustache_ws by done.
  assert (replace_all re_line_breaks [Lit [LF]] s = s) as ->.
  { apply replace_all_from_no_match, search_None_iff. intros i Hi.
    rewrite match_at_line_breaks'. rewrite decide_True; [done|].
    unfold breaks_after_blanks.
    rewrite (span_len_all is_blank) by by apply Forall_drop.
    by rewrite drop_all. }
  rewrite (replace_all_from_whole _ _ _ (RMatch s [])); [done|done| |done|].
  - rewrite match_at_blanks, (span_len_all _ _ Hs).
    destruct s as [|c t]; [done|]. cbn [length].
    change (S (length t)) with (length (c :: t)). by rewrite firstn_all.
  - by rewrite match_at_blanks.
Qed.

(** White space with a line break becomes one line feed. *)
Lemma simplify_breaks s c :
  Forall (λ c, is_ws c = true) s → c ∈ s → is_nl c = true →
  simplify s = [LF].
Proof.
  intros Hws Hin Hc.
  assert (Hne : s ≠ []) by (intros ->; by apply elem_of_nil in Hin).
  unfold simplify. rewrite mustache_ws by done.
  assert (replace_all re_line_breaks [Lit [LF]] s = [LF]) as ->; [|reflexivity].
  rewrite (replace_all_from_whole _ _ _ (RMatch s [])); [done|done| |done|].
  - rewrite match_at_line_breaks', (span_len_all _ _ Hws), firstn_all.
    rewrite decide_False; [done|].
    unfold breaks_after_blanks.
    pose proof (span_len_lt is_blank s c Hin (is_nl_not_blank _ Hc)) as Hlt.
    pose proof (head_is_drop_span is_blank s) as Hh.
    destruct (drop (span_len is_blank s) s) as [|x t] eqn:Hd.
    { apply (f_equal length) in Hd. rewrite length_drop in Hd. simpl in Hd. lia. }
    cbn [head_is] in Hh.
    assert (Hx : is_ws x = true).
    { eapply (proj1 (Forall_forall _ _) Hws).
      apply (subseteq_drop (span_len is_blank s) s). rewrite Hd. by left. }
    apply is_ws_cases in Hx as [Hx|Hx]; [congruence|].
    cbn [span_len]. by rewrite Hx.
  - by rewrite match_at_line_breaks'.
Qed.

(** *** Template paths and other paths *)

Lemma Forall_is_dot (l : jsstring) :
  Forall (λ x, is_line_terminator x = false) l ↔
  Forall (λ x, is_dot x = true) l.
Proof.
  apply Forall_proper; [|done]. intros x. unfold is_dot.
  by rewrite negb_true_iff.
Qed.

Section Paths.
Context `{Host}.

Lemma join_split_to_slashes s :
  join (js "/") (split path_sep s) = to_slashes s.
Proof. apply join_split_path_sep. Qed.

Lemma not_elem_of_to_slashes s :
  SLASH ∉ s → BACKSLASH ∉ s → SLASH ∉ to_slashes s.
Proof.
  intros Hs Hb. unfold to_slashes. destruct platform; [done|].
  rewrite list_elem_of_fmap. intros (x & Hx & Hin).
  destruct (BACKSLASH =? x) eqn:Hbx.
  - apply N.eqb_eq in Hbx as <-. done.
  - by subst.
Qed.

Lemma to_slashes_win32 s : platform = win32 → BACKSLASH ∉ to_slashes s.
Proof.
  intros Hp. unfold to_slashes. rewrite Hp.
  rewrite list_elem_of_fmap. intros (x & Hx & Hin).
  destruct (BACKSLASH =? x) eqn:Hbx; [done|].
  apply N.eqb_neq in Hbx. by subst.
Qed.

(** What [filterDirectories] makes of one path, given what the replace makes
    of it. *)
Lemma filterDirectories_one dir name :
  replace re_tpl_path [Ref 1] dir = name →
  filterDirectories [dir] =
  let ns := to_slashes name in
  if negb (endsWith ns (js ".js")) && negb (includes ns (js "/partials/"))
     && test re_subpath ns && negb (test re_manage_excluded ns)
  then [ns] else [].
Proof.
  intros <-. rewrite filterDirectories_singleton. cbv zeta.
  by rewrite join_split_to_slashes.
Qed.

End Paths.

(** *** The title key *)

Lemma title_key_standard section page :
  section ≠ [] → page ≠ [] → SLASH ∉ section →
  Forall (λ x, is_line_terminator x = false) (section ++ page) →
  title_key (exec re_title (js "admin/" ++ section ++ SLASH :: page)) =
  js "[[admin/menu:section-"
    ++ (if bool_decide (section = js "development") then js "advanced"
        else section)
    ++ js "]]"
    ++ js " > [[admin/menu:" ++ section ++ js "/" ++ page ++ js "]]".
Proof.
  intros Hs Hp Hslash [Hds Hdp]%Forall_app.
  rewrite exec_re_title_standard by (by try apply Forall_is_dot).
  unfold title_key, group. cbn [groups capture].
  rewrite decide_False by done. rewrite decide_True by done.
  rewrite decide_True by done. cbn [default]. by destruct page.
Qed.

Lemma title_key_no_match ns :
  (¬ ∃ pre section page,
       ns = pre ++ js "admin/" ++ section ++ SLASH :: page ∧
       section ≠ [] ∧ page ≠ [] ∧
       Forall (λ x, is_line_terminator x = false) (section ++ page)) →
  title_key (exec re_title ns) = [].
Proof.
  intros Hno. apply title_key_nil.
  destruct (exec re_title ns) as [m|] eqn:Hm; [|done].
  destruct Hno. apply exec_re_title_is_Some. by rewrite Hm.
Qed.

Section Builds.
Context `{Host}.

Lemma buildNamespace_translated_key language ns translator tbl t s :
  Translator_create language = Ok translator →
  getTranslation translator ns = Ok (Some tbl) →
  tbl ≠ [] →
  translate translator (title_key (exec re_title ns)) = Ok t →
  buildNamespace language ns s =
  (Ok (Val (MkEntry ns (sanitize (join [LF] (snd <$> tbl)) ++ [LF]
                          ++ title_key (exec re_title ns)) (Some t))),
   record (EvTranslate language (title_key (exec re_title ns)))
     (record (EvGetTranslation language ns) (record (EvCreate language) s))).
Proof.
  intros Hcreate Hget Htbl Ht.
  rewrite buildNamespace_run, Hcreate. cbv zeta. rewrite Hget.
  destruct tbl as [|kv tbl']; [done|]. cbn [no_translations]. by rewrite Ht.
Qed.

(** *** Failures and the log *)

Lemma trace_logged_events err s :
  trace (logged err s) = trace s ++ log_events err.
Proof.
  unfold logged, log_events. destruct (instanceof_Error err); [done|].
  by rewrite app_nil_r.
Qed.

Lemma promise_all_rejects language nss s err :
  Translator_create language = Throw err →
  fallbackCache (snd (promise_all (buildNamespace language <$> nss) s)) =
  fallbackCache s.
Proof.
  intros Hcreate.
  apply (promise_all_keeps (λ s', fallbackCache s' = fallbackCache s)); [|done].
  intros ns _. eapply safe_mono; [|by apply (buildNamespace_throws _ _ _ err)].
  done.
Qed.

(** Once the translator is created a build returns an entry. *)
Lemma buildNamespace_Ok language translator ns s :
  Translator_create language = Ok translator →
  ∃ v, fst (buildNamespace language ns s) = Ok v.
Proof.
  intros Hcreate.
  by destruct (run_safe (λ _, True) _ (buildNamespace language ns) s
                 (buildNamespace_fulfilled language translator ns Hcreate) I).
Qed.

Lemma promise_all_builds_Ok language translator nss s :
  Translator_create language = Ok translator →
  ∃ d, fst (promise_all (buildNamespace language <$> nss) s) = Ok d.
Proof.
  intros Hcreate. apply (promise_all_fulfilled (λ _, True)); [|done].
  intros ns _. by eapply buildNamespace_fulfilled.
Qed.

Lemma getDictionary_rejected language s err s' :
  getDictionary language s = (Throw err, s') →
  get_property (cache s) language = None ∧
  (file_walk admin_dir = Throw err ∨
   ∃ dirs, file_walk admin_dir = Ok dirs ∧ filterDirectories dirs ≠ [] ∧
           Translator_create language = Throw err).
Proof.
  rewrite getDictionary_run.
  destruct (get_property (cache s) language) as [v|]; [done|]. intros Hrun.
  split; [done|].
  destruct (initDict language s) as [[d|err'] s0] eqn:Hinit; [done|].
  injection Hrun as -> ->. rewrite initDict_run in Hinit.
  destruct (file_walk admin_dir) as [dirs|err']; [|left; congruence].
  right. exists dirs.
  destruct (Translator_create language) as [translator|err'] eqn:Hcreate.
  - destruct (promise_all_builds_Ok language translator (filterDirectories dirs)
                (record (EvWalk admin_dir) s) Hcreate) as [d Hd].
    rewrite Hinit in Hd. done.
  - pose proof (promise_all_builds_Throw language (filterDirectories dirs)
      (record (EvWalk admin_dir) s) err' Hcreate) as Hd.
    rewrite Hinit in Hd. cbn [fst] in Hd.
    destruct (filterDirectories dirs); [done|].
    split_and!; [done..|congruence].
Qed.

Lemma getDictionary_rejects language s err :
  get_property (cache s) language = None →
  (file_walk admin_dir = Throw err ∨
   ∃ dirs, file_walk admin_dir = Ok dirs ∧ filterDirectories dirs ≠ [] ∧
           Translator_create language = Throw err) →
  ∃ s', getDictionary language s = (Throw err, s') ∧
        cache s' = cache s ∧ fallbackCache s' = fallbackCache s.
Proof.
  intros Hmiss Hwhy. rewrite getDictionary_run, Hmiss, initDict_run.
  destruct Hwhy as [->|(dirs & -> & Hne & Hcreate)].
  - by eexists.
  - pose proof (promise_all_builds_Throw language (filterDirectories dirs)
      (record (EvWalk admin_dir) s) err Hcreate) as Hr.
    pose proof (promise_all_builds_inv language (filterDirectories dirs)
      (record (EvWalk admin_dir) s)) as (_ & Hca & _).
    pose proof (promise_all_rejects language (filterDirectories dirs)
      (record (EvWalk admin_dir) s) err Hcreate) as Hfa.
    destruct (promise_all _ _) as [r s']. cbn [fst snd] in *.
    destruct (filterDirectories dirs); [done|]. subst r.
    by eexists.
Qed.

End Builds.

(** *** Matching does not depend on the position *)

Lemma fmap_bind_list {A B C} (f : B → C) (g : A → list B) (l : list A) :
  f <$> (l ≫= g) = l ≫= λ x, f <$> g x.
Proof.
  induction l as [|x l IH]; [done|].
  by rewrite !bind_cons, fmap_app, IH.
Qed.

Lemma filter_fmap_list {A B} (f : A → B) (P : B → Prop) `{!∀ x, Decision (P x)}
    (l : list A) :
  filter P (f <$> l) = f <$> filter (P ∘ f) l.
Proof.
  induction l as [|x l IH]; [done|].
  rewrite fmap_cons, !filter_cons, IH. unfold compose.
  by destruct (decide (P (f x))).
Qed.

Lemma rep_shift (m : mstate → list mstate) k g fuel lo hi st :
  (∀ st, m (shift k st) = shift k <$> m st) →
  rep m g fuel lo hi (shift k st) = shift k <$> rep m g fuel lo hi st.
Proof.
  intros Hm. revert lo hi st. induction fuel as [|fuel IH]; intros lo hi st; [done|].
  cbn [rep]. destruct lo as [|lo].
  - assert (Hmore :
      filter (λ st', pos st' ≠ pos (shift k st)) (m (shift k st))
        ≫= rep m g fuel 0 (Nat.pred <$> hi) =
      shift k <$> (filter (λ st', pos st' ≠ pos st) (m st)
                     ≫= rep m g fuel 0 (Nat.pred <$> hi))).
    { rewrite Hm, filter_fmap_list, list_fmap_bind, fmap_bind_list.
      apply list_bind_ext.
      - intros st'. apply IH.
      - apply list_filter_iff. intros st'. unfold compose, shift. cbn [pos].
        lia. }
    destruct hi as [[|hi]|]; [done|..]; rewrite Hmore;
      destruct g; by rewrite ?fmap_app, ?fmap_cons.
  - rewrite Hm, list_fmap_bind, fmap_bind_list.
    apply list_bind_ext; [|done]. intros st'. apply IH.
Qed.

Lemma matches_shift r k st :
  bol_free r = true → matches r (shift k st) = shift k <$> matches r st.
Proof.
  revert st. induction r as [|p|r1 IH1 r2 IH2|r1 IH1 r2 IH2|g lo hi r IH|i r IH| |];
    intros st Hr; cbn [bol_free] in Hr.
  - done.
  - cbn [matches shift rest]. destruct (rest st) as [|c t]; [done|].
    by destruct (p c).
  - apply andb_true_iff in Hr as [Hr1 Hr2].
    rewrite !matches_Seq, IH1, list_fmap_bind, fmap_bind_list by done.
    apply list_bind_ext; [|done]. intros st'. by apply IH2.
  - apply andb_true_iff in Hr as [Hr1 Hr2].
    cbn [matches]. by rewrite IH1, IH2, fmap_app.
  - cbn [matches]. cbn [shift rest]. apply rep_shift. intros st'. by apply IH.
  - cbn [matches]. rewrite IH by done. rewrite <- !list_fmap_compose.
    apply list_fmap_ext. intros _ st' _. unfold compose, shift.
    cbn [pos rest caps].
    by replace (pos st' + k - (pos st + k))%nat with (pos st' - pos st)%nat
      by lia.
  - done.
  - cbn [matches shift rest]. by destruct (rest st).
Qed.

Lemma match_at_shift r p k s :
  bol_free r = true → match_at r (p + k) s = match_at r p s.
Proof.
  intros Hr. rewrite !match_at_head.
  change (MState (p + k) s []) with (shift k (MState p s [])).
  rewrite matches_shift by done.
  destruct (matches r (MState p s [])) as [|st l]; [done|].
  cbn [fmap list_fmap head option_fmap option_map shift pos caps].
  do 3 f_equal. lia.
Qed.

Lemma match_at_0 r p s : bol_free r = true → match_at r p s = match_at r 0 s.
Proof. intros Hr. apply (match_at_shift r 0 p s Hr). Qed.

(** A global replace with a pattern without the anchor is the same wherever
    the text stands. *)
Lemma replace_all_from_0 r tpl p s skip :
  bol_free r = true →
  replace_all_from r tpl p s skip = replace_all_from r tpl 0 s skip.
Proof.
  intros Hr. revert p skip. induction s as [|c t IH]; intros p skip.
  - cbn [replace_all_from]. by rewrite (match_at_0 r p).
  - cbn [replace_all_from]. destruct skip as [|skip].
    + rewrite (match_at_0 r p) by done.
      destruct (match_at r 0 (c :: t)) as [m|].
      * destruct (length (matched m)); by rewrite (IH (S p)), (IH 1%nat).
      * by rewrite (IH (S p)), (IH 1%nat).
    + by rewrite (IH (S p)), (IH 1%nat).
Qed.

Lemma bol_free_re_mustache : bol_free re_mustache = true.
Proof. reflexivity. Qed.

(** *** The first mustache *)

Lemma span_len_until p (b : jsstring) x t :
  Forall (λ c, p c = true) b → p x = false → span_len p (b ++ x :: t) = length b.
Proof.
  intros Hb Hx. induction Hb as [|c b Hc Hb IH]; simpl.
  - by rewrite Hx.
  - by rewrite Hc, IH.
Qed.

Lemma not_rbrace_Forall (b : jsstring) :
  RBRACE ∉ b → Forall (λ c, negb (c =? RBRACE) = true) b.
Proof.
  intros Hb. apply Forall_forall. intros c Hc. apply negb_true_iff, N.eqb_neq.
  by intros ->.
Qed.

(** After the opening braces: the text up to the first closing brace, that
    brace and one more if there is one. *)
Lemma head_matches_mustache_tail st b c :
  rest st = b ++ RBRACE :: c → RBRACE ∉ b →
  head (matches (Seq (star_lazy (ncls [One RBRACE]))
                     (between 1 2 (lit1 RBRACE))) st) =
  Some (adv (length b + 1 + (length c - length (drop_rbrace c))) st).
Proof.
  intros Hr Hb. rewrite matches_Seq, matches_not_rbrace_star, Hr.
  rewrite (span_len_until _ b) by (by try apply not_rbrace_Forall).
  rewrite (seq_split 0 (length b) (S (length b))) by lia.
  rewrite fmap_app, fmap_cons. apply head_bind_first.
  - intros st' (k & -> & Hk%elem_of_seq)%list_elem_of_fmap.
    rewrite matches_between_1_2_eq, rest_adv, Hr.
    rewrite drop_app_le by lia.
    destruct (drop k b) as [|x t] eqn:Hd.
    { apply (f_equal length) in Hd. rewrite length_drop in Hd. simpl in Hd. lia. }
    cbn [app head_is].
    assert (x ≠ RBRACE) as Hx.
    { intros ->. apply Hb. apply (subseteq_drop k b). rewrite Hd. by left. }
    apply N.eqb_neq in Hx. rewrite N.eqb_sym in Hx. by rewrite Hx.
  - rewrite matches_between_1_2_eq, !rest_adv, Hr, drop_app_length.
    cbn [head_is]. rewrite N.eqb_refl, skipn_cons, drop_0. unfold drop_rbrace.
    destruct c as [|x t]; cbn [head_is head length].
    + rewrite adv_adv. do 2 f_equal. lia.
    + rewrite (N.eqb_sym RBRACE x). destruct (x =? RBRACE); cbn [head length].
      * rewrite adv_adv. do 2 f_equal. lia.
      * rewrite adv_adv. do 2 f_equal. lia.
Qed.

Lemma match_at_mustache_first at_pos b c :
  RBRACE ∉ b →
  match_at re_mustache at_pos (LBRACE :: b ++ RBRACE :: c) =
  Some (RMatch (LBRACE :: b ++ RBRACE :: take (length c - length (drop_rbrace c)) c)
          []).
Proof.
  intros Hb. rewrite match_at_head. unfold re_mustache. cbn [cat].
  rewrite matches_Seq, matches_between_1_2_eq. cbn [rest head_is].
  rewrite N.eqb_refl, rest_adv. cbn [rest drop]. rewrite drop_0.
  set (st := MState at_pos (LBRACE :: b ++ RBRACE :: c) []).
  assert (Hfinal : ∀ st1 b1,
    rest st1 = b1 ++ RBRACE :: c → RBRACE ∉ b1 → caps st1 = [] →
    (pos st1 + length b1 = at_pos + 1 + length b)%nat →
    (λ st', RMatch (take (pos st' - at_pos) (LBRACE :: b ++ RBRACE :: c)) (caps st'))
      <$> head (matches (Seq (star_lazy (ncls [One RBRACE]))
                             (between 1 2 (lit1 RBRACE))) st1) =
    Some (RMatch (LBRACE :: b ++ RBRACE ::
                    take (length c - length (drop_rbrace c)) c) [])).
  { intros st1 b1 Hr1 Hb1 Hc1 Hp1.
    rewrite (head_matches_mustache_tail st1 b1 c) by done.
    cbn [fmap option_fmap option_map]. rewrite pos_adv, caps_adv, Hc1.
    do 2 f_equal.
    replace (pos st1 + (length b1 + 1 + (length c - length (drop_rbrace c)))
             - at_pos)%nat
      with (S (length b + S (length c - length (drop_rbrace c)))) by lia.
    cbn [take]. f_equal. rewrite take_app_ge by lia.
    f_equal. replace (length b + S (length c - length (drop_rbrace c))
                      - length b)%nat
      with (S (length c - length (drop_rbrace c))) by lia.
    done. }
  destruct b as [|x b'].
  - cbn [app head_is].
    assert ((LBRACE =? RBRACE) = false) as -> by reflexivity.
    rewrite bind_singleton.
    apply (Hfinal (adv 1 st) []); try done; cbn [pos adv st length]; lia.
  - cbn [app head_is]. destruct (LBRACE =? x) eqn:Hx.
    + apply N.eqb_eq in Hx as <-.
      assert (Hf := Hfinal (adv 2 st) b' eq_refl).
      assert (Hb' : RBRACE ∉ b') by (intros Hin; apply Hb; by right).
      assert (Hp : (pos (adv 2 st) + length b'
                    = at_pos + 1 + length (LBRACE :: b'))%nat)
        by (cbn [pos adv st length]; lia).
      specialize (Hf Hb' eq_refl Hp).
      destruct (head (matches _ (adv 2 st))) as [st'|] eqn:Hh; [|done].
      by rewrite (head_bind_cons _ _ _ st' Hh).
    + rewrite bind_singleton.
      apply (Hfinal (adv 1 st) (x :: b')); try done; cbn [pos adv st length]; lia.
Qed.

Lemma mustache_pass_prefix a s at_pos :
  LBRACE ∉ a →
  replace_all_from re_mustache [Lit []] at_pos (a ++ s) 0 =
  a ++ replace_all re_mustache [Lit []] s.
Proof.
  revert at_pos. induction a as [|x a IH]; intros at_pos Ha.
  - cbn [app]. apply replace_all_from_0, bol_free_re_mustache.
  - apply not_elem_of_cons in Ha as [Hx Ha]. cbn [app].
    rewrite replace_all_from_None; [by rewrite IH|].
    destruct (match_at re_mustache at_pos (x :: a ++ s)) as [m|] eqn:Hm; [|done].
    apply match_at_mustache_Some in Hm as [(t & [= -> _] & _) _]. done.
Qed.

Lemma drop_rbrace_drop c :
  drop (length c - length (drop_rbrace c)) c = drop_rbrace c.
Proof.
  destruct c as [|x t]; [done|]. unfold drop_rbrace.
  destruct (x =? RBRACE); cbn [length].
  - replace (S (length t) - length t)%nat with 1%nat by lia. done.
  - by rewrite Nat.sub_diag.
Qed.

(** The pass that removes the mustaches, at an opening brace that has a
    closing brace after it. *)
Lemma mustache_pass_first b c :
  RBRACE ∉ b →
  replace_all re_mustache [Lit []] (LBRACE :: b ++ RBRACE :: c) =
  replace_all re_mustache [Lit []] (drop_rbrace c).
Proof.
  intros Hb. unfold replace_all.
  pose proof (match_at_mustache_first 0 b c Hb) as Hm.
  set (n := (length c - length (drop_rbrace c))%nat) in *.
  assert (Hn : (n ≤ length c)%nat) by (unfold n; lia).
  rewrite (replace_all_from_Some _ _ 0 _ _ (length b + 1 + n) Hm).
  2:{ cbn [matched length]. rewrite length_app. cbn [length].
      rewrite length_take. lia. }
  cbn [expand mbind list_bind app].
  rewrite replace_all_from_0 by apply bol_free_re_mustache.
  f_equal. cbn [drop]. rewrite drop_app_ge by lia.
  replace (length b + 1 + n - length b)%nat with (S n) by lia.
  cbn [drop]. apply drop_rbrace_drop.
Qed.

(** ** The claims of the specification

    One theorem for each claim, in the order of the specification; a claim
    that the code does not satisfy as it is worded comes with the input that
    shows it and is proved in an amended form.  The theorems hold for every
    host, and so for every order in which the builds of a dictionary are
    resumed; the calls of a client run one after the other. *)

(** *** C1: the example of [simplify] *)

(** C1, as stated, fails: on the specification's example [simplify] does not
    return "a  c", a line feed, "d e" with two spaces between "a" and "c". *)
Lemma simplify_example_not_two_spaces :
  simplify simplify_input ≠ js "a  c" ++ [LF] ++ js "d e".
Proof. vm_compute. discriminate. Qed.

(** C1 (amended): [simplify] applied to "a {{b}} c", two line feeds,
    "  d ", a tab, " e" returns exactly "a c", a line feed, "d e": the
    mustache is removed, the blank lines collapse to one line feed and every
    run of tabs and spaces, among them the two spaces left around the
    removed mustache, collapses to one space. *)
Theorem simplify_example :
  simplify simplify_input = js "a c" ++ [LF] ++ js "d e".
Proof. vm_compute. reflexivity. Qed.

(** *** C2: a translator that throws *)

(** C2: when the translator's lookup or its translate step throws,
    [buildNamespace] returns the entry with empty translations and no title;
    nothing is thrown, no template is read and the fallback cache is left as
    it was, whatever it holds; and in a dictionary build every entry is the
    one [buildNamespace] returns for its namespace on its own. *)
Theorem buildNamespace_translator_throws `{Host}
    (language ns : jsstring) (translator : Translator) (err : Exn) (s : State) :
  Translator_create language = Ok translator →
  getTranslation translator ns = Throw err ∨
  (∃ tbl, getTranslation translator ns = Ok tbl ∧ no_translations tbl = false ∧
          translate translator (title_key (exec re_title ns)) = Throw err) →
  (∃ s', buildNamespace language ns s = (Ok (Val (MkEntry ns [] None)), s') ∧
         fallbackCache s' = fallbackCache s ∧ cache s' = cache s ∧
         ∃ evs, trace s' = trace s ++ evs ∧ ∀ path, EvReadFile path ∉ evs) ∧
  (∀ dirs, coherent s → file_walk admin_dir = Ok dirs →
     ∃ d s', initDict language s = (Ok d, s') ∧
       length d = length (filterDirectories dirs) ∧
       ∀ i ns', filterDirectories dirs !! i = Some ns' →
         ∃ e', d !! i = Some e' ∧
               (ns' = ns → e' = Val (MkEntry ns [] None)) ∧
               ∀ s0, coherent s0 →
                 fst (buildNamespace language ns' s0) = Ok e').
Proof.
  intros Hcreate Hthrow.
  assert (He : entry_of translator ns = Val (degraded ns)).
  { unfold entry_of. destruct Hthrow as [->|(tbl & -> & -> & ->)]; done. }
  split.
  - rewrite buildNamespace_run, Hcreate. cbv zeta.
    destruct Hthrow as [->|(tbl & -> & -> & ->)].
    + eexists. split; [done|]. rewrite fallbackCache_logged, cache_logged.
      split_and!; [done..|].
      destruct (trace_logged err
        (record (EvGetTranslation language ns) (record (EvCreate language) s)))
        as (evs & -> & Hevs).
      eexists ([_; _] ++ evs). split; [simpl; by rewrite <- !app_assoc|].
      intros path. rewrite elem_of_app, !elem_of_cons, elem_of_nil.
      intros [[[=]|[[=]|[]]]|?]. by eapply Hevs.
    + eexists. split; [done|]. rewrite fallbackCache_logged, cache_logged.
      split_and!; [done..|].
      destruct (trace_logged err
        (record (EvTranslate language (title_key (exec re_title ns)))
           (record (EvGetTranslation language ns) (record (EvCreate language) s))))
        as (evs & -> & Hevs).
      eexists ([_; _; _] ++ evs). split; [simpl; by rewrite <- !app_assoc|].
      intros path. rewrite elem_of_app, !elem_of_cons, elem_of_nil.
      intros [[[=]|[[=]|[[=]|[]]]]|?]. by eapply Hevs.
  - intros dirs Hs Hwalk. rewrite initDict_run, Hwalk.
    pose proof (promise_all_builds language translator (filterDirectories dirs)
      (record (EvWalk admin_dir) s) Hs Hcreate) as Hd.
    destruct (promise_all _ _) as [r s']. simpl in Hd. subst r.
    eexists _, s'. split; [done|]. split; [by rewrite length_fmap|].
    intros i ns' Hi. exists (entry_of translator ns').
    split_and!.
    + by rewrite list_lookup_fmap, Hi.
    + by intros ->.
    + intros s0 Hs0. by apply buildNamespace_entry.
Qed.

(** On a host whose translator throws at the lookup. *)
Lemma buildNamespace_translator_throws_witness :
  let H := host_throwing in
  ∃ s', buildNamespace en_GB users_ns init
          = (Ok (Val (MkEntry users_ns [] None)), s') ∧
        fallbackCache s' = fallbackCache init ∧ cache s' = cache init ∧
        ∃ evs, trace s' = trace init ++ evs ∧ ∀ path, EvReadFile path ∉ evs.
Proof.
  intros H.
  destruct (buildNamespace_translator_throws en_GB users_ns
              (example_translator (λ _, Throw (MkExn true (js "Error: lookup"))))
              (MkExn true (js "Error: lookup")) init) as [Hb _].
  - reflexivity.
  - left. reflexivity.
  - exact Hb.
Defined.

(** *** C3: a template that cannot be read *)

(** C3, as stated, fails: with a template that cannot be read the build of
    the dictionary reads on the fallback path, the read throws, and yet
    [getDictionary] returns a dictionary and caches it. *)
Lemma getDictionary_template_unreadable_not_rejected :
  let H := host_unreadable in
  readFile (template_path users_ns) = Throw ENOENT ∧
  EvReadFile (template_path users_ns) ∈ trace (snd (getDictionary en_GB init)) ∧
  fst (getDictionary en_GB init) = Ok (Val [Val (MkEntry users_ns [] None)]) ∧
  cache (snd (getDictionary en_GB init)) !! en_GB
    = Some [Val (MkEntry users_ns [] None)] ∧
  ¬ ∃ err s', getDictionary en_GB init = (Throw err, s') ∧
              cache s' !! en_GB = None.
Proof.
  intros H.
  destruct (getDictionary en_GB init) as [r s'] eqn:Hrun.
  vm_compute in Hrun. injection Hrun as <- <-.
  split_and!.
  - reflexivity.
  - refine (bool_decide_unpack _ _). vm_compute. exact I.
  - reflexivity.
  - vm_compute. reflexivity.
  - intros (err & s' & [=] & _).
Qed.

(** C3 (amended): when the read of a namespace's template fails on the
    fallback path of a dictionary build, [buildNamespace] catches the error:
    the entry of that namespace has empty translations and no title, the
    [getDictionary] call returns the dictionary and stores it in the
    dictionary cache under the language, and the fallback cache gets no entry
    for the namespace. *)
Theorem getDictionary_template_unreadable `{Host}
    (language ns : jsstring) (translator : Translator) (tbl : option Table)
    (dirs : list jsstring) (i : nat) (err : Exn) (s : State) :
  coherent s →
  get_property (cache s) language = None →
  file_walk admin_dir = Ok dirs →
  filterDirectories dirs !! i = Some ns →
  Translator_create language = Ok translator →
  getTranslation translator ns = Ok tbl →
  no_translations tbl = true →
  readFile (template_path ns) = Throw err →
  ∃ d s', getDictionary language s = (Ok (Val d), s') ∧
          d !! i = Some (Val (MkEntry ns [] None)) ∧
          cache s' !! language = Some d ∧
          fallbackCache s' !! ns = None.
Proof.
  intros Hs Hmiss Hwalk Hi Hcreate Hget Hempty Hread.
  assert (Hfe : fallback_entry ns = Throw err).
  { unfold fallback_entry. by rewrite Hread. }
  assert (Hns : ns ∉ Object_prototype).
  { apply (filterDirectories_not_inherited dirs). by eapply list_elem_of_lookup_2. }
  rewrite getDictionary_run, Hmiss.
  destruct (initDict_inv language s) as (_ & _ & Hco). specialize (Hco Hs).
  rewrite initDict_run, Hwalk in Hco |- *.
  pose proof (promise_all_builds language translator (filterDirectories dirs)
    (record (EvWalk admin_dir) s) Hs Hcreate) as Hd.
  destruct (promise_all _ _) as [r s']. simpl in Hd, Hco. subst r.
  eexists _, _. split; [done|]. split_and!.
  - rewrite list_lookup_fmap, Hi. simpl. unfold entry_of, fallback_value.
    by rewrite Hget, Hempty, bool_decide_eq_false_2, Hfe.
  - simpl. by rewrite lookup_insert_eq.
  - simpl. by eapply coherent_no_entry.
Qed.

(** On a host without translations and without a readable template. *)
Lemma getDictionary_template_unreadable_witness :
  let H := host_unreadable in
  ∃ d s', getDictionary en_GB init = (Ok (Val d), s') ∧
          d !! O = Some (Val (MkEntry users_ns [] None)) ∧
          cache s' !! en_GB = Some d ∧
          fallbackCache s' !! users_ns = None.
Proof.
  intros H.
  apply (getDictionary_template_unreadable en_GB users_ns
           (example_translator (λ _, Ok None)) None [users_tpl] 0 ENOENT init).
  - apply coherent_init.
  - reflexivity.
  - reflexivity.
  - vm_compute. reflexivity.
  - reflexivity.
  - reflexivity.
  - reflexivity.
  - vm_compute. reflexivity.
Defined.

(** *** C4: the fallback entry *)

(** C4, as stated, fails, in two ways.  With no translations and a template
    that cannot be read the Fallback Builder yields no entry,
    [buildNamespace] returns the entry with empty translations, and two
    calls in a row read the template twice.  And with a template that can be
    read, two builds for the same namespace that are started together (here
    the builds of one dictionary, for two paths with the same namespace)
    both find the fallback cache empty and both read the template. *)
Lemma buildNamespace_fallback_reads_twice :
  (let H := host_unreadable in
   getTranslation (example_translator (λ _, Ok None)) users_ns = Ok None ∧
   fst (fallback users_ns init) = Throw ENOENT ∧
   fst (buildNamespace en_GB users_ns init)
     = Ok (Val (MkEntry users_ns [] None)) ∧
   reads_of (template_path users_ns)
     (trace (run_ops [Build en_GB users_ns; Build (js "de") users_ns] init))
     = 2%nat) ∧
  (let H := host_together in
   filterDirectories [users_tpl; users_copy_tpl] = [users_ns; users_ns] ∧
   resume_order [EvWalk admin_dir] = [0; 1]%nat ∧
   (∃ e, fst (getDictionary en_GB init) = Ok (Val [Val e; Val e]) ∧
         fallbackCache (snd (getDictionary en_GB init)) !! users_ns = Some e) ∧
   reads_of (template_path users_ns) (trace (snd (getDictionary en_GB init)))
     = 2%nat).
Proof.
  split; intros H.
  - split_and!; vm_compute; reflexivity.
  - split_and!; [vm_compute; reflexivity..| |vm_compute; reflexivity].
    eexists. split; vm_compute; reflexivity.
Qed.

(** C4 (amended): when the translator returns no table or an empty one,
    what [buildNamespace] does follows the Fallback Builder.  If the
    Fallback Builder returns, [buildNamespace] returns exactly what it
    returns; the template is read only if the read of the fallback cache
    found nothing, and then once; afterwards the read of the fallback cache
    finds what was returned, and so does every call that is made later, after
    whatever other calls: it returns the same and reads no file.  If the
    Fallback Builder throws, [buildNamespace] returns the entry with empty
    translations and no title, the fallback cache is left as it was, and the
    next call reads the template again and fails in the same way. *)
Theorem buildNamespace_fallback `{Host}
    (language ns : jsstring) (translator : Translator) (tbl : option Table)
    (s : State) :
  Translator_create language = Ok translator →
  getTranslation translator ns = Ok tbl →
  no_translations tbl = true →
  match fst (fallback ns s) with
  | Ok v =>
      ∃ s',
        buildNamespace language ns s = (Ok v, s') ∧
        trace s' =
          trace s ++ [EvCreate language; EvGetTranslation language ns] ++
          match get_property (fallbackCache s) ns with
          | Some _ => []
          | None => [EvReadFile (template_path ns)]
          end ∧
        get_property (fallbackCache s') ns = Some v ∧
        ∀ ops language' translator' tbl',
          Translator_create language' = Ok translator' →
          getTranslation translator' ns = Ok tbl' →
          no_translations tbl' = true →
          buildNamespace language' ns (run_ops ops s') =
          (Ok v, record (EvGetTranslation language' ns)
                   (record (EvCreate language') (run_ops ops s')))
  | Throw err =>
      ∃ s',
        buildNamespace language ns s = (Ok (Val (MkEntry ns [] None)), s') ∧
        fallbackCache s' = fallbackCache s ∧
        trace s' =
          trace s ++ [EvCreate language; EvGetTranslation language ns;
                      EvReadFile (template_path ns)] ++ log_events err ∧
        ∀ language' translator' tbl',
          Translator_create language' = Ok translator' →
          getTranslation translator' ns = Ok tbl' →
          no_translations tbl' = true →
          ∃ s'',
            buildNamespace language' ns s'
              = (Ok (Val (MkEntry ns [] None)), s'') ∧
            fallbackCache s'' = fallbackCache s ∧
            trace s'' =
              trace s' ++ [EvCreate language'; EvGetTranslation language' ns;
                           EvReadFile (template_path ns)] ++ log_events err
  end.
Proof.
  intros Hcreate Hget Hempty.
  assert (Hfails : ∀ language' translator' tbl' s0 err,
    Translator_create language' = Ok translator' →
    getTranslation translator' ns = Ok tbl' →
    no_translations tbl' = true →
    get_property (fallbackCache s0) ns = None →
    fallback_entry ns = Throw err →
    ∃ s', buildNamespace language' ns s0
            = (Ok (Val (MkEntry ns [] None)), s') ∧
          fallbackCache s' = fallbackCache s0 ∧
          trace s' =
            trace s0 ++ [EvCreate language'; EvGetTranslation language' ns;
                         EvReadFile (template_path ns)] ++ log_events err).
  { intros language' translator' tbl' s0 err Hcreate' Hget' Hempty' Hmiss Hfe.
    rewrite buildNamespace_run, Hcreate'. cbv zeta. rewrite Hget', Hempty'.
    rewrite fallback_run. cbn [record fallbackCache]. rewrite Hmiss, Hfe.
    eexists. split; [done|]. rewrite fallbackCache_logged, trace_logged_events.
    split; [done|]. unfold record. cbn [trace]. by rewrite <- !app_assoc. }
  rewrite fallback_run.
  destruct (get_property (fallbackCache s) ns) as [v|] eqn:Hc;
    [|destruct (fallback_entry ns) as [e|err] eqn:Hfe]; cbn [fst].
  - assert (Hrun : buildNamespace language ns s =
                   (Ok v, record (EvGetTranslation language ns)
                            (record (EvCreate language) s))).
    { rewrite buildNamespace_run, Hcreate. cbv zeta. rewrite Hget, Hempty.
      rewrite fallback_run. cbn [record fallbackCache]. by rewrite Hc. }
    eexists. split; [exact Hrun|]. split; [cbn; by rewrite <- app_assoc|].
    split; [done|].
    intros ops language' translator' tbl' Hcreate' Hget' Hempty'.
    destruct (run_ops_inv ops
      (record (EvGetTranslation language ns) (record (EvCreate language) s)))
      as [(Hsub & _) _].
    rewrite buildNamespace_run, Hcreate'. cbv zeta. rewrite Hget', Hempty'.
    rewrite fallback_run. cbn [record fallbackCache].
    by rewrite (Hsub ns v Hc).
  - assert (Hrun : buildNamespace language ns s =
      (Ok (Val e),
       MkState (<[ns := e]> (fallbackCache s)) (cache s)
         (trace s ++ [EvCreate language; EvGetTranslation language ns;
                      EvReadFile (template_path ns)]))).
    { rewrite buildNamespace_run, Hcreate. cbv zeta. rewrite Hget, Hempty.
      rewrite fallback_run. cbn [record fallbackCache cache trace].
      rewrite Hc, Hfe. by rewrite <- !app_assoc. }
    eexists. split; [exact Hrun|]. split; [done|].
    split; [apply get_property_insert|].
    intros ops language' translator' tbl' Hcreate' Hget' Hempty'.
    match goal with |- context [run_ops ops ?s1] =>
      destruct (run_ops_inv ops s1) as [(Hsub & _) _];
      pose proof (Hsub ns (Val e) (get_property_insert _ _ _)) as Hin
    end.
    rewrite buildNamespace_run, Hcreate'. cbv zeta. rewrite Hget', Hempty'.
    rewrite fallback_run. cbn [record fallbackCache]. by rewrite Hin.
  - destruct (Hfails language translator tbl s err) as (s' & Hrun & Hfc & Htr);
      [done..|].
    exists s'. split_and!; [done..|].
    intros language' translator' tbl' Hcreate' Hget' Hempty'.
    destruct (Hfails language' translator' tbl' s' err)
      as (s'' & Hrun' & Hfc' & Htr'); [done..|by rewrite Hfc|done|].
    exists s''. split_and!; [done|congruence|done].
Qed.

(** On a host without translations whose template is readable: a later
    call, for another language and after other calls, returns the entry and
    records no read; and on a host whose template cannot be read. *)
Lemma buildNamespace_fallback_witness :
  (let H := host_template in
   ∃ v s',
     buildNamespace en_GB users_ns init = (Ok v, s') ∧
     trace s' = [EvCreate en_GB; EvGetTranslation en_GB users_ns;
                 EvReadFile (template_path users_ns)] ∧
     get_property (fallbackCache s') users_ns = Some v ∧
     buildNamespace (js "de") users_ns
       (run_ops [GetDictionary (js "fr"); Build en_GB users_ns] s') =
     (Ok v, record (EvGetTranslation (js "de") users_ns)
              (record (EvCreate (js "de"))
                 (run_ops [GetDictionary (js "fr"); Build en_GB users_ns] s')))) ∧
  (let H := host_unreadable in
   ∃ s' s'',
     buildNamespace en_GB users_ns init
       = (Ok (Val (MkEntry users_ns [] None)), s') ∧
     fallbackCache s' = ∅ ∧
     buildNamespace (js "de") users_ns s'
       = (Ok (Val (MkEntry users_ns [] None)), s'') ∧
     trace s'' =
       trace s' ++ [EvCreate (js "de"); EvGetTranslation (js "de") users_ns;
                    EvReadFile (template_path users_ns)] ++ log_events ENOENT).
Proof.
  split; intros H.
  - pose proof (buildNamespace_fallback en_GB users_ns
                  (example_translator (λ _, Ok None)) None init
                  eq_refl eq_refl eq_refl) as Hw.
    destruct (fst (fallback users_ns init)) as [v|err] eqn:Hf;
      [|vm_compute in Hf; discriminate].
    destruct Hw as (s' & Hb & Htr & Hin & Hlater).
    exists v, s'. split_and!; [exact Hb|exact Htr|exact Hin|].
    apply (Hlater _ (js "de") (example_translator (λ _, Ok None)) None);
      reflexivity.
  - pose proof (buildNamespace_fallback en_GB users_ns
                  (example_translator (λ _, Ok None)) None init
                  eq_refl eq_refl eq_refl) as Hw.
    destruct (fst (fallback users_ns init)) as [v|err] eqn:Hf;
      [vm_compute in Hf; discriminate|].
    vm_compute in Hf. injection Hf as <-.
    destruct Hw as (s' & Hb & Hfc & Htr & Hnext).
    destruct (Hnext (js "de") (example_translator (λ _, Ok None)) None)
      as (s'' & Hb' & _ & Htr'); [reflexivity..|].
    exists s', s''. split_and!; [exact Hb|exact Hfc|exact Hb'|exact Htr'].
Defined.

(** *** C5: the dictionary cache *)

(** C5: once [getDictionary] has returned a dictionary for a language, every
    later call for that language, directly after it or after other calls,
    returns the same dictionary and leaves the state, and so the trace of the
    calls to the collaborators, as it is. *)
Theorem getDictionary_cached `{Host}
    (language : jsstring) (d : Value (list (Value Entry))) (s s1 : State) :
  getDictionary language s = (Ok d, s1) →
  ∀ ops, getDictionary language (run_ops ops s1) = (Ok d, run_ops ops s1).
Proof.
  intros Hfirst ops.
  assert (Hin : get_property (cache s1) language = Some d).
  { rewrite getDictionary_run in Hfirst.
    destruct (get_property (cache s) language) as [d'|] eqn:Hc.
    - by injection Hfirst as <- <-.
    - destruct (initDict language s) as [[d'|] s']; [|done].
      injection Hfirst as <- <-. cbn [cache]. apply get_property_insert. }
  destruct (run_ops_inv ops s1) as [(_ & Hsub & _) _].
  rewrite getDictionary_run. by rewrite (Hsub _ _ Hin).
Qed.

(** On a host without translations whose template is readable. *)
Lemma getDictionary_cached_witness :
  let H := host_template in
  ∃ d s1,
    getDictionary en_GB init = (Ok d, s1) ∧
    getDictionary en_GB s1 = (Ok d, s1) ∧
    getDictionary en_GB (run_ops [GetDictionary (js "de")] s1)
      = (Ok d, run_ops [GetDictionary (js "de")] s1).
Proof.
  intros H.
  destruct (getDictionary en_GB init) as [[d|err] s1] eqn:Hrun;
    [|vm_compute in Hrun; discriminate].
  exists d, s1. split_and!; [done|..].
  - apply (getDictionary_cached en_GB d init s1 Hrun []).
  - apply (getDictionary_cached en_GB d init s1 Hrun [GetDictionary (js "de")]).
Defined.

(** *** C6: the example of [filterDirectories] *)

(** C6: [filterDirectories] maps the five paths of the example to the single
    namespace "admin/manage/users", and the empty list to the empty list, on
    either platform. *)
Theorem filterDirectories_example `{Host} :
  filterDirectories example_paths = [js "admin/manage/users"] ∧
  filterDirectories [] = [].
Proof.
  unfold filterDirectories, path_sep.
  destruct platform; split; vm_compute; reflexivity.
Qed.

(** *** C7: the entry of a translated namespace *)

(** C7, as stated, fails: for "admin/development/info" the second reference
    of the title key is "development/info", not "advanced/info". *)
Lemma title_key_keeps_development :
  let H := host_translated in
  fst (buildNamespace en_GB info_ns init) =
    Ok (Val (MkEntry info_ns
               (js "Info" ++ [LF] ++ js "Logs" ++ [LF] ++ info_key)
               (Some info_key))) ∧
  title_key_as_claimed (js "development") (js "info") =
    js "[[admin/menu:section-advanced]] > [[admin/menu:advanced/info]]" ∧
  info_key ≠ title_key_as_claimed (js "development") (js "info").
Proof. intros H. split_and!; vm_compute; [done..|discriminate]. Qed.

(** C7 (amended): for a namespace that the title pattern matches with the
    groups [section] and [page], a non-empty translation table and a
    translate step that returns, the entry's translations are the sanitized
    values of the table, joined by line feeds in table order, then a line
    feed and the title key itself; its title is what the translator makes of
    the key.  The key is "[[admin/menu:section-S]] > [[admin/menu:section/page]]"
    where S is "advanced" when the section is "development" and the section
    otherwise: the second reference keeps the section as it is matched. *)
Theorem buildNamespace_translated `{Host}
    (language ns : jsstring) (translator : Translator) (tbl : Table)
    (m : rmatch) (section page t : jsstring) (s : State) :
  Translator_create language = Ok translator →
  getTranslation translator ns = Ok (Some tbl) →
  tbl ≠ [] →
  exec re_title ns = Some m →
  group 1 m = Some section →
  group 2 m = Some page →
  let key :=
    js "[[admin/menu:section-"
      ++ (if bool_decide (section = js "development") then js "advanced"
          else section)
      ++ js "]]"
      ++ js " > [[admin/menu:" ++ section ++ js "/" ++ page ++ js "]]" in
  translate translator key = Ok t →
  fst (buildNamespace language ns s) =
  Ok (Val (MkEntry ns (sanitize (join [LF] (snd <$> tbl)) ++ [LF] ++ key)
             (Some t))).
Proof.
  intros Hcreate Hget Htbl Hm H1 H2 key Ht.
  assert (Hkey : title_key (exec re_title ns) = key).
  { rewrite Hm. unfold title_key.
    destruct (exec_re_title_groups ns m Hm) as (sec & pg & _ & Hpg & Hg).
    assert (group 1 m = Some sec) as H1'
      by (unfold group; rewrite Hg; reflexivity).
    assert (group 2 m = Some pg) as H2'
      by (unfold group; rewrite Hg; reflexivity).
    rewrite H1 in H1'. rewrite H2 in H2'.
    injection H1' as ->. injection H2' as ->.
    rewrite H1, H2. cbn [default]. by destruct pg. }
  rewrite buildNamespace_run, Hcreate. cbv zeta. rewrite Hget.
  destruct tbl as [|kv tbl']; [done|]. cbn [no_translations].
  rewrite Hkey, Ht. unfold translated_entry, values. cbn [fst default].
  by rewrite Hkey.
Qed.

(** On a host with translations, for "admin/development/info". *)
Lemma buildNamespace_translated_witness :
  let H := host_translated in
  fst (buildNamespace en_GB info_ns init) =
  Ok (Val (MkEntry info_ns
             (js "Info" ++ [LF] ++ js "Logs" ++ [LF] ++ info_key)
             (Some info_key))).
Proof.
  intros H.
  etrans;
    [apply (buildNamespace_translated en_GB info_ns
              (example_translator
                 (λ _, Ok (Some [(js "a", js "Info"); (js "b", js "Logs")])))
              [(js "a", js "Info"); (js "b", js "Logs")]
              (RMatch info_ns [(2%nat, js "info"); (1%nat, js "development")])
              (js "development") (js "info") info_key init)|].
  - reflexivity.
  - reflexivity.
  - discriminate.
  - vm_compute. reflexivity.
  - reflexivity.
  - reflexivity.
  - vm_compute. reflexivity.
  - vm_compute. reflexivity.
Defined.

(** *** C8: the fallback title *)

(** C8, as stated, fails: for "admin/manage/admins-mods" the title has a
    space where the claim removes the hyphen. *)
Lemma nsToTitle_not_stripped :
  let H := host_template in
  nsToTitle (js "admin/manage/admins-mods") = Ok (js "Manage > Admins mods") ∧
  nsToTitle_as_claimed (js "admin/manage/admins-mods")
    = js "Manage > Adminsmods" ∧
  nsToTitle (js "admin/manage/admins-mods")
    ≠ Ok (nsToTitle_as_claimed (js "admin/manage/admins-mods")).
Proof. intros H. split_and!; vm_compute; [done..|discriminate]. Qed.

(** C8 (amended): for every namespace without an empty segment the fallback
    title is produced by removing the first "admin/" (the prefix, when the
    namespace starts with it), splitting the rest on slashes, title-casing
    each segment, joining the segments with " > " and replacing every code
    unit other than a letter, [>] or the space by a space; the title holds
    no other code unit; what the Fallback Builder returns is an entry, unless
    the namespace is a name of [Object.prototype] (it then returns what the
    read of the cache finds under it); the entry's translations end with a
    line feed and this title, and its title field is this title. *)
Theorem nsToTitle_title `{Host} (ns : jsstring) :
  [] ∉ segments_of ns →
  let t :=
    (λ c, if is_title_char c then c else SPACE)
      <$> join (js " > ") (title_case <$> segments_of ns) in
  nsToTitle ns = Ok t ∧
  Forall (λ c, is_title_char c = true) t ∧
  (starts_with (js "admin/") ns = true →
   segments_of ns = split (js "/") (drop 6 ns)) ∧
  ∀ s v s', coherent s → fallback ns s = (Ok v, s') →
    if bool_decide (ns ∈ Object_prototype) then v = Inherited ns
    else ∃ e, v = Val e ∧ title e = Some t ∧
              ∃ body, translations e = body ++ [LF] ++ t.
Proof.
  intros Hne t. pose proof (nsToTitle_Ok ns Hne) as Ht. fold t in Ht.
  split_and!; [done|apply is_title_char_fmap|..].
  - intros Hsw. unfold segments_of, replace_first.
    destruct ns as [|c ns']; [done|]. by rewrite Hsw.
  - intros s v s' Hs Hf.
    apply fallback_Ok, fallback_value_Ok in Hf; [|done].
    case_bool_decide; [done|]. destruct Hf as (e & -> & He).
    apply fallback_entry_Ok in He as (template & t' & _ & Ht' & ->).
    rewrite Ht in Ht'. injection Ht' as <-.
    eexists. split; [done|]. split; [done|]. by eexists.
Qed.

(** For "admin/manage/users". *)
Lemma nsToTitle_title_witness :
  let H := host_template in
  nsToTitle users_ns = Ok (js "Manage > Users") ∧
  ∃ e s', fallback users_ns init = (Ok (Val e), s') ∧
          title e = Some (js "Manage > Users") ∧
          ∃ body, translations e = body ++ [LF] ++ js "Manage > Users".
Proof.
  intros H.
  destruct (nsToTitle_title users_ns) as (Ht & _ & _ & Hf).
  { refine (bool_decide_unpack _ _). vm_compute. exact I. }
  split; [exact Ht|].
  destruct (run (fallback users_ns) init) as [[v|err] s'] eqn:Hrun;
    [|vm_compute in Hrun; discriminate].
  specialize (Hf init v s' coherent_init Hrun).
  rewrite bool_decide_eq_false_2 in Hf
    by (refine (bool_decide_unpack _ _); vm_compute; exact I).
  destruct Hf as (e & -> & He). by exists e, s'.
Defined.

(** *** C9: [simplify] is idempotent *)

(** C9: [simplify] is idempotent on every text whose simplified form holds
    no mustache. *)
Theorem simplify_idempotent (x : jsstring) :
  test re_mustache (simplify x) = false →
  simplify (simplify x) = simplify x.
Proof.
  intros Hm%test_false_search. unfold simplify at 1, replace_all.
  rewrite (replace_all_from_no_match re_mustache) by done.
  rewrite line_breaks_tidy_id by apply simplify_tidy.
  apply blanks_tidy_id, simplify_tidy.
Qed.

(** On the text of the example of C1. *)
Lemma simplify_idempotent_witness :
  test re_mustache (simplify simplify_input) = false ∧
  simplify (simplify simplify_input) = simplify simplify_input.
Proof.
  split; [vm_compute; reflexivity|].
  apply (simplify_idempotent simplify_input). vm_compute. reflexivity.
Defined.

(** *** C10: [nsToTitle] is partial *)

(** C10: [nsToTitle] throws a [TypeError] exactly on the namespaces that,
    once the first "admin/" is removed, have an empty segment between
    slashes, that is, are empty, start or end with a slash or hold two
    slashes in a row; the Fallback Builder then throws too; on every other
    namespace [nsToTitle] returns a string. *)
Theorem nsToTitle_partial `{Host} (ns : jsstring) :
  let remainder := replace_first (js "admin/") [] ns in
  ([] ∈ split (js "/") remainder ↔
   remainder = [] ∨ head remainder = Some SLASH ∨ last remainder = Some SLASH ∨
   ∃ pre post, remainder = pre ++ SLASH :: SLASH :: post) ∧
  ([] ∈ split (js "/") remainder →
   nsToTitle ns = Throw (TypeError_undefined "toUpperCase") ∧
   ∀ s, coherent s → ∃ err, fst (fallback ns s) = Throw err) ∧
  ([] ∉ split (js "/") remainder → ∃ title, nsToTitle ns = Ok title).
Proof.
  intros remainder. split_and!.
  - apply (empty_segment_iff SLASH).
  - intros Hin. pose proof (nsToTitle_Throw ns Hin) as Ht. split; [done|].
    intros s Hs.
    assert (Hfe : ∃ err, fallback_entry ns = Throw err).
    { unfold fallback_entry. rewrite Ht.
      destruct (readFile (template_path ns)); by eexists. }
    destruct Hfe as [err Hfe].
    assert (Hmiss : get_property (fallbackCache s) ns = None).
    { apply get_property_None. split; [by eapply coherent_no_entry|].
      intros Hns. by apply (Object_prototype_segments ns Hns). }
    rewrite fallback_run, Hmiss, Hfe. by eexists.
  - intros Hin. eexists. by apply nsToTitle_Ok.
Qed.

(** For "admin/manage/", which ends with a slash, and for
    "admin/manage/users". *)
Lemma nsToTitle_partial_witness :
  let H := host_template in
  (nsToTitle (js "admin/manage/") = Throw (TypeError_undefined "toUpperCase") ∧
   ∃ err, fst (fallback (js "admin/manage/") init) = Throw err) ∧
  ∃ title, nsToTitle users_ns = Ok title.
Proof.
  intros H. split.
  - destruct (nsToTitle_partial (js "admin/manage/")) as (_ & Hthrow & _).
    destruct Hthrow as [Ht Hf];
      [refine (bool_decide_unpack _ _); vm_compute; exact I|].
    split; [done|]. apply Hf, coherent_init.
  - destruct (nsToTitle_partial users_ns) as (_ & _ & Hok).
    apply Hok. refine (bool_decide_unpack _ _). vm_compute. exact I.
Defined.

(** ** Further properties of the code

    Properties of the functions of [search.ts] beyond the claims of the
    specification, read off the code: what [simplify] and
    [filterDirectories] do with every text, what the title pattern
    matches, what the caches keep and what a failure leaves behind.  As
    before the collaborators answer the same whenever they are asked the
    same, the calls of a client run one after the other, and the builds of
    a dictionary are resumed in the order that the host decides. *)

(** *** [simplify] *)

(** X1: whatever the text, the result of [simplify] holds no tab and no
    carriage return, and no two white-space code units (space, tab, line
    feed, carriage return) stand next to each other in it. *)
Theorem simplify_white_space (x : jsstring) :
  (TAB ∉ simplify x) ∧ (CR ∉ simplify x) ∧
  (∀ i c d, simplify x !! i = Some c → simplify x !! S i = Some d →
     is_ws c = true → is_ws d = false).
Proof. apply tidy_positions, simplify_tidy. Qed.

(** X2: whatever the text, the result of [simplify] holds no mustache: the
    mustache pattern is not found in it, and no opening brace in it has a
    closing brace anywhere after it. *)
Theorem simplify_removes_mustaches (x : jsstring) :
  test re_mustache (simplify x) = false ∧
  ∀ i t, drop i (simplify x) = LBRACE :: t → RBRACE ∉ t.
Proof.
  split; [apply simplify_no_mustache|].
  apply open_then_close_false, open_then_close_simplify.
Qed.

(** X3: [simplify] is idempotent on every text, with no condition on the
    mustaches. *)
Theorem simplify_idempotent_everywhere (x : jsstring) :
  simplify (simplify x) = simplify x.
Proof.
  apply simplify_id; [apply simplify_tidy|apply open_then_close_simplify].
Qed.

(** X4: the texts that [simplify] leaves as they are are exactly those
    without a tab, without a carriage return, without two white-space code
    units next to each other and without an opening brace that has a closing
    brace after it. *)
Theorem simplify_fixed_points (x : jsstring) :
  simplify x = x ↔
  (TAB ∉ x) ∧ (CR ∉ x) ∧
  (∀ i c d, x !! i = Some c → x !! S i = Some d →
     is_ws c = true → is_ws d = false) ∧
  (∀ i t, drop i x = LBRACE :: t → RBRACE ∉ t).
Proof.
  split.
  - intros Hx.
    pose proof (proj1 (tidy_positions _) (simplify_tidy x)) as (Ht & Hc & Ha).
    pose proof (proj1 (open_then_close_false _) (open_then_close_simplify x))
      as Hm.
    rewrite Hx in Ht, Hc, Ha, Hm. done.
  - intros (Ht & Hc & Ha & Hm). apply simplify_id.
    + by apply tidy_positions.
    + by apply open_then_close_false.
Qed.

(** X5: [simplify] never makes a text longer. *)
Theorem simplify_length (x : jsstring) :
  (length (simplify x) ≤ length x)%nat.
Proof.
  unfold simplify, replace_all.
  etrans; [apply length_replace_all_from|].
  { intros at_pos s m. rewrite match_at_blanks.
    destruct (span_len is_blank s) as [|n] eqn:Hn; [done|].
    intros [= <-]. cbn [matched expand]. split.
    - intros Hnil. apply (f_equal length) in Hnil.
      rewrite <- Hn, length_take_span in Hnil. simpl in Hnil. lia.
    - rewrite <- Hn, length_take_span. simpl. lia. }
  etrans; [apply length_replace_all_from|].
  { intros at_pos s m. rewrite match_at_line_breaks'.
    destruct (decide (breaks_after_blanks s = O)) as [|Hb]; [done|].
    intros [= <-]. cbn [matched expand].
    apply span_len_ws_breaks in Hb. rewrite length_take_span. split.
    - intros Hnil. apply (f_equal length) in Hnil.
      rewrite length_take_span in Hnil. simpl in Hnil. lia.
    - simpl. lia. }
  apply length_replace_all_from.
  intros at_pos s m Hm. split.
  - by eapply match_at_mustache_Some.
  - simpl. lia.
Qed.

(** X6: [simplify] does not trim.  A text that is not empty and holds only
    white space becomes a single line feed when it holds a line feed or a
    carriage return, and a single space otherwise. *)
Theorem simplify_only_white_space (x : jsstring) :
  x ≠ [] → Forall (λ c, is_ws c = true) x →
  simplify x = if bool_decide (LF ∈ x ∨ CR ∈ x) then [LF] else [SPACE].
Proof.
  intros Hne Hws. case_bool_decide as Hnl.
  - destruct Hnl as [Hin|Hin]; by eapply simplify_breaks.
  - apply simplify_blanks; [done|].
    apply Forall_forall. intros c Hc.
    pose proof (proj1 (Forall_forall _ _) Hws c Hc) as Hw.
    apply is_ws_cases in Hw as [Hb|Hn]; [done|].
    destruct Hnl. apply is_nl_cases in Hn as [->| ->]; auto.
Qed.

Lemma simplify_only_white_space_witness :
  simplify (js "  " ++ [LF; TAB]) = [LF] ∧ simplify [SPACE; TAB; SPACE] = [SPACE].
Proof.
  split.
  - apply (simplify_only_white_space (js "  " ++ [LF; TAB])).
    + vm_compute. discriminate.
    + refine (bool_decide_unpack _ _). vm_compute. exact I.
  - apply (simplify_only_white_space [SPACE; TAB; SPACE]).
    + discriminate.
    + refine (bool_decide_unpack _ _). vm_compute. exact I.
Defined.

(** X7: a mustache is removed as if it had not been there.  The first
    opening brace of a text, the text up to the first closing brace after
    it, that brace and one more closing brace, if there is one, leave no
    trace in the result; what comes before and after is simplified as one
    text.  Of three closing braces the third is left. *)
Theorem simplify_mustache (a b c : jsstring) :
  LBRACE ∉ a → RBRACE ∉ b →
  simplify (a ++ LBRACE :: b ++ RBRACE :: c) = simplify (a ++ drop_rbrace c).
Proof.
  intros Ha Hb. unfold simplify. do 2 f_equal. unfold replace_all at 1 2.
  rewrite !mustache_pass_prefix by done. f_equal.
  by apply mustache_pass_first.
Qed.

Lemma simplify_mustache_witness :
  simplify (js "Hello {{user.name}}!") = js "Hello !" ∧
  simplify (js "x{{{raw}}}y") = js "x}y".
Proof.
  split.
  - etrans; [apply (simplify_mustache (js "Hello ") (js "{user.name") (js "}!"))|].
    + refine (bool_decide_unpack _ _). vm_compute. exact I.
    + refine (bool_decide_unpack _ _). vm_compute. exact I.
    + vm_compute. reflexivity.
  - etrans; [apply (simplify_mustache (js "x") (js "{{raw") (js "}}y"))|].
    + refine (bool_decide_unpack _ _). vm_compute. exact I.
    + refine (bool_decide_unpack _ _). vm_compute. exact I.
    + vm_compute. reflexivity.
Defined.

(** *** [filterDirectories] *)

(** X8: a namespace is in the result of [filterDirectories] exactly when it
    comes from one of the paths by the replace and the conversion of the
    separators and it does not end with ".js", does not hold "/partials/",
    holds two slashes with no line terminator between them, and does not end
    with "manage/category", "manage/group" or "manage/category-analytics". *)
Theorem filterDirectories_spec `{Host} (dirs : list jsstring) (ns : jsstring) :
  ns ∈ filterDirectories dirs ↔
  ∃ dir, dir ∈ dirs ∧
    ns = join (js "/") (split path_sep (replace re_tpl_path [Ref 1] dir)) ∧
    (¬ ∃ u, ns = u ++ js ".js") ∧
    (¬ ∃ u v, ns = u ++ js "/partials/" ++ v) ∧
    (∃ a b c, ns = a ++ SLASH :: b ++ SLASH :: c ∧
              Forall (λ x, is_line_terminator x = false) b) ∧
    (¬ ∃ u, ns = u ++ js "manage/category" ∨ ns = u ++ js "manage/group" ∨
            ns = u ++ js "manage/category-analytics").
Proof.
  rewrite elem_of_filterDirectories. split.
  - intros (dir & Hin & Hns & Hjs & Hpart & Hsub & Hman). exists dir.
    split_and!; [done..| | |by apply test_re_subpath|].
    + rewrite <- endsWith_iff. by rewrite Hjs.
    + rewrite <- includes_iff. by rewrite Hpart.
    + rewrite <- test_re_manage_excluded. by rewrite Hman.
  - intros (dir & Hin & Hns & Hjs & Hpart & Hsub & Hman). exists dir.
    split_and!; [done..| | |by apply test_re_subpath|];
      apply not_true_is_false.
    + by rewrite endsWith_iff.
    + by rewrite includes_iff.
    + by rewrite test_re_manage_excluded.
Qed.

(** X9: for a path that ends with "admin", some text, one code unit and
    "tpl", without line terminators and without another "admin" after that
    one, the namespace is the part from that last "admin" up to the code
    unit before "tpl", with the separators of the platform turned into
    slashes; it is kept or dropped by the four tests.  The code unit before
    "tpl" need not be a dot. *)
Theorem filterDirectories_last_admin `{Host} (pre mid : jsstring) (c : N) :
  Forall (λ x, is_line_terminator x = false) (pre ++ mid ++ [c]) →
  includes (mid ++ [c] ++ js "tpl") (js "admin") = false →
  filterDirectories [pre ++ js "admin" ++ mid ++ [c] ++ js "tpl"] =
  let ns := to_slashes (js "admin" ++ mid) in
  if negb (endsWith ns (js ".js")) && negb (includes ns (js "/partials/"))
     && test re_subpath ns && negb (test re_manage_excluded ns)
  then [ns] else [].
Proof.
  intros Hd%Forall_is_dot Hlast.
  by apply filterDirectories_one, replace_re_tpl_path.
Qed.

Lemma filterDirectories_last_admin_witness :
  let H := host_template in
  filterDirectories [js "/srv/admin/views/admin/manage/usersXtpl"] =
  [js "admin/manage/users"].
Proof.
  intros H.
  etrans;
    [apply (filterDirectories_last_admin (js "/srv/admin/views/")
              (js "/manage/users") 88)|].
  - refine (bool_decide_unpack _ _). vm_compute. exact I.
  - vm_compute. reflexivity.
  - vm_compute. reflexivity.
Defined.

(** X10: a template whose file name holds "admin" is dropped.  When the last
    "admin" of the path is followed by no separator, the namespace holds no
    slash and fails the test for subpaths: "admin/manage/admins-mods.tpl"
    gives "admins-mods" and no namespace. *)
Theorem filterDirectories_admin_in_file_name `{Host}
    (pre mid : jsstring) (c : N) :
  Forall (λ x, is_line_terminator x = false) (pre ++ mid ++ [c]) →
  includes (mid ++ [c] ++ js "tpl") (js "admin") = false →
  SLASH ∉ mid → BACKSLASH ∉ mid →
  filterDirectories [pre ++ js "admin" ++ mid ++ [c] ++ js "tpl"] = [].
Proof.
  intros Hd%Forall_is_dot Hlast Hs Hb.
  rewrite (filterDirectories_one _ (js "admin" ++ mid))
    by by apply replace_re_tpl_path.
  cbv zeta. rewrite (test_re_subpath_no_slash (to_slashes _)).
  - by rewrite andb_false_r.
  - apply not_elem_of_to_slashes; rewrite not_elem_of_app; (split; [|done]);
      refine (bool_decide_unpack _ _); vm_compute; exact I.
Qed.

Lemma filterDirectories_admin_in_file_name_witness :
  let H := host_template in
  filterDirectories [js "/views/admin/manage/admins-mods.tpl"] = [].
Proof.
  intros H.
  apply (filterDirectories_admin_in_file_name (js "/views/admin/manage/")
           (js "s-mods") 46).
  - refine (bool_decide_unpack _ _). vm_compute. exact I.
  - vm_compute. reflexivity.
  - refine (bool_decide_unpack _ _). vm_compute. exact I.
  - refine (bool_decide_unpack _ _). vm_compute. exact I.
Defined.

(** X11: a path that the pattern of the templates does not match, such as
    one that does not end with "tpl", is not cut: its namespace is the whole
    path, with the separators of the platform turned into slashes, kept or
    dropped by the four tests. *)
Theorem filterDirectories_not_template `{Host} (dir : jsstring) :
  (¬ ∃ pre mid c, dir = pre ++ js "admin" ++ mid ++ [c] ++ js "tpl") →
  filterDirectories [dir] =
  let ns := to_slashes dir in
  if negb (endsWith ns (js ".js")) && negb (includes ns (js "/partials/"))
     && test re_subpath ns && negb (test re_manage_excluded ns)
  then [ns] else [].
Proof.
  intros Hno. by apply filterDirectories_one, replace_re_tpl_path_unchanged.
Qed.

Lemma filterDirectories_not_template_witness :
  let H := host_template in
  filterDirectories [js "/views/admin/manage/README.md"] =
  [js "/views/admin/manage/README.md"].
Proof.
  intros H.
  etrans;
    [apply (filterDirectories_not_template (js "/views/admin/manage/README.md"))|].
  - intros (pre & mid & c & Heq).
    apply (f_equal reverse) in Heq.
    rewrite !reverse_app in Heq. vm_compute in Heq. discriminate.
  - vm_compute. reflexivity.
Defined.

(** X12: on Windows no namespace of the result holds a backslash. *)
Theorem filterDirectories_win32 `{Host} (dirs : list jsstring) (ns : jsstring) :
  platform = win32 → ns ∈ filterDirectories dirs → BACKSLASH ∉ ns.
Proof.
  intros Hp (dir & _ & -> & _)%elem_of_filterDirectories.
  rewrite join_split_to_slashes. by apply to_slashes_win32.
Qed.

Lemma filterDirectories_win32_witness :
  let H := host_win32 in
  filterDirectories
    [js "C:" ++ [BACKSLASH] ++ js "views" ++ [BACKSLASH] ++ js "admin"
       ++ [BACKSLASH] ++ js "manage" ++ [BACKSLASH] ++ js "users.tpl"]
    = [js "admin/manage/users"] ∧
  BACKSLASH ∉ js "admin/manage/users".
Proof.
  intros H. split; [vm_compute; reflexivity|].
  apply (filterDirectories_win32
           [js "C:" ++ [BACKSLASH] ++ js "views" ++ [BACKSLASH] ++ js "admin"
              ++ [BACKSLASH] ++ js "manage" ++ [BACKSLASH] ++ js "users.tpl"]).
  - reflexivity.
  - refine (bool_decide_unpack _ _). vm_compute. exact I.
Defined.

(** *** [nsToTitle] and the title key *)

(** X13: [nsToTitle] removes "admin/" where it first occurs, not only at the
    start: a namespace with one "admin/" in it has the title of the
    namespace without it. *)
Theorem nsToTitle_admin_anywhere `{Host} (pre post : jsstring) :
  includes (pre ++ js "admin") (js "admin/") = false →
  includes (pre ++ post) (js "admin/") = false →
  nsToTitle (pre ++ js "admin/" ++ post) = nsToTitle (pre ++ post).
Proof.
  intros Hpre Hno. unfold nsToTitle.
  rewrite (replace_first_at (js "admin/") [] pre post) by done.
  by rewrite (replace_first_absent _ _ (pre ++ post)).
Qed.

Lemma nsToTitle_admin_anywhere_witness :
  let H := host_template in
  nsToTitle (js "plugins/admin/users") = nsToTitle (js "plugins/users") ∧
  nsToTitle (js "plugins/users") = Ok (js "Plugins > Users").
Proof.
  intros H. split; [|vm_compute; reflexivity].
  apply (nsToTitle_admin_anywhere (js "plugins/") (js "users"));
    vm_compute; reflexivity.
Defined.

(** X14: for a namespace "admin/", a section without a slash, a slash and a
    page, the section and the page not empty and without line terminators,
    with a table that is not empty and a translate step that returns, the
    section of the title key is the text up to the second slash and the page
    is all the rest, further slashes included. *)
Theorem buildNamespace_section_and_page `{Host}
    (language section page : jsstring) (translator : Translator) (tbl : Table)
    (t : jsstring) (s : State) :
  section ≠ [] → page ≠ [] → SLASH ∉ section →
  Forall (λ x, is_line_terminator x = false) (section ++ page) →
  Translator_create language = Ok translator →
  let ns := js "admin/" ++ section ++ SLASH :: page in
  let key :=
    js "[[admin/menu:section-"
      ++ (if bool_decide (section = js "development") then js "advanced"
          else section)
      ++ js "]]"
      ++ js " > [[admin/menu:" ++ section ++ js "/" ++ page ++ js "]]" in
  getTranslation translator ns = Ok (Some tbl) →
  tbl ≠ [] →
  translate translator key = Ok t →
  fst (buildNamespace language ns s) =
  Ok (Val (MkEntry ns (sanitize (join [LF] (snd <$> tbl)) ++ [LF] ++ key)
             (Some t))).
Proof.
  intros Hs Hp Hslash Hd Hcreate ns key Hget Htbl Ht.
  pose proof (title_key_standard section page Hs Hp Hslash Hd) as Hkey.
  fold ns key in Hkey.
  rewrite (buildNamespace_translated_key language ns translator tbl t)
    by (by rewrite ?Hkey).
  cbn [fst]. by rewrite Hkey.
Qed.

Lemma buildNamespace_section_and_page_witness :
  let H := host_translated in
  fst (buildNamespace en_GB (js "admin/settings/api/tokens") init) =
  Ok (Val (MkEntry (js "admin/settings/api/tokens")
        (js "Info" ++ [LF] ++ js "Logs" ++ [LF]
           ++ js "[[admin/menu:section-settings]] > [[admin/menu:settings/api/tokens]]")
        (Some (js "[[admin/menu:section-settings]] > [[admin/menu:settings/api/tokens]]")))).
Proof.
  intros H.
  etrans;
    [apply (buildNamespace_section_and_page en_GB (js "settings")
              (js "api/tokens")
              (example_translator
                 (λ _, Ok (Some [(js "a", js "Info"); (js "b", js "Logs")])))
              [(js "a", js "Info"); (js "b", js "Logs")]
              (js "[[admin/menu:section-settings]] > [[admin/menu:settings/api/tokens]]")
              init)|].
  - discriminate.
  - discriminate.
  - refine (bool_decide_unpack _ _). vm_compute. exact I.
  - refine (bool_decide_unpack _ _). vm_compute. exact I.
  - reflexivity.
  - reflexivity.
  - discriminate.
  - vm_compute. reflexivity.
  - vm_compute. reflexivity.
Defined.

(** X15: when the namespace holds no "admin/" followed by a section, a slash
    and a page up to its end (not empty, without line terminators), the
    title pattern does not match: the title key is the empty string, the
    translations of the entry end with a line feed and the title is what the
    translator makes of the empty string. *)
Theorem buildNamespace_no_title_key `{Host}
    (language ns : jsstring) (translator : Translator) (tbl : Table)
    (t : jsstring) (s : State) :
  (¬ ∃ pre section page,
       ns = pre ++ js "admin/" ++ section ++ SLASH :: page ∧
       section ≠ [] ∧ page ≠ [] ∧
       Forall (λ x, is_line_terminator x = false) (section ++ page)) →
  Translator_create language = Ok translator →
  getTranslation translator ns = Ok (Some tbl) →
  tbl ≠ [] →
  translate translator [] = Ok t →
  buildNamespace language ns s =
  (Ok (Val (MkEntry ns (sanitize (join [LF] (snd <$> tbl)) ++ [LF]) (Some t))),
   MkState (fallbackCache s) (cache s)
     (trace s ++ [EvCreate language; EvGetTranslation language ns;
                  EvTranslate language []])).
Proof.
  intros Hno Hcreate Hget Htbl Ht.
  pose proof (title_key_no_match ns Hno) as Hkey.
  rewrite (buildNamespace_translated_key language ns translator tbl t)
    by (by rewrite ?Hkey).
  rewrite Hkey, app_nil_r. unfold record. cbn [fallbackCache cache trace].
  by rewrite <- !app_assoc.
Qed.

Lemma buildNamespace_no_title_key_witness :
  let H := host_translated in
  fst (buildNamespace en_GB (js "admin/dashboard") init) =
  Ok (Val (MkEntry (js "admin/dashboard")
             (js "Info" ++ [LF] ++ js "Logs" ++ [LF]) (Some []))).
Proof.
  intros H.
  rewrite (buildNamespace_no_title_key en_GB (js "admin/dashboard")
             (example_translator
                (λ _, Ok (Some [(js "a", js "Info"); (js "b", js "Logs")])))
             [(js "a", js "Info"); (js "b", js "Logs")] [] init).
  - reflexivity.
  - intros Hex%exec_re_title_is_Some. vm_compute in Hex.
    by destruct Hex as [? [=]].
  - reflexivity.
  - reflexivity.
  - discriminate.
  - reflexivity.
Defined.

(** *** The caches *)

(** X16: the caches do not change what is returned.  After any calls of
    [buildNamespace] and [getDictionary], [getDictionary], [buildNamespace]
    and [fallback] return what they return in the initial state, with both
    caches empty. *)
Theorem results_do_not_depend_on_history `{Host}
    (ops : list Op) (language ns : jsstring) :
  fst (getDictionary language (run_ops ops init)) =
    fst (getDictionary language init) ∧
  fst (buildNamespace language ns (run_ops ops init)) =
    fst (buildNamespace language ns init) ∧
  fst (fallback ns (run_ops ops init)) = fst (fallback ns init).
Proof.
  destruct (run_ops_init_coherent ops) as [Hs Hd].
  split_and!.
  - rewrite !getDictionary_result;
      auto using coherent_init, cache_coherent_init.
  - rewrite !buildNamespace_result; auto using coherent_init.
  - rewrite !fallback_result; auto using coherent_init.
Qed.

(** X17: for a language that is not a name of [Object.prototype], what
    [getDictionary] returns is a dictionary with one entry for each
    namespace that [filterDirectories] makes of the walk of the views, in
    the same order, with that namespace in its namespace field; this holds
    for a dictionary that is built, in whatever order its builds are
    resumed, and for one that comes from the cache. *)
Theorem getDictionary_namespaces `{Host}
    (ops : list Op) (language : jsstring) (v : Value (list (Value Entry)))
    (s' : State) :
  language ∉ Object_prototype →
  getDictionary language (run_ops ops init) = (Ok v, s') →
  ∃ dirs es, file_walk admin_dir = Ok dirs ∧ v = Val (Val <$> es) ∧
             namespace <$> es = filterDirectories dirs.
Proof.
  intros Hl Hrun. destruct (run_ops_init_coherent ops) as [Hs Hd].
  pose proof (getDictionary_result language (run_ops ops init) Hs Hd) as Hr.
  rewrite Hrun in Hr. cbn [fst] in Hr. unfold dictionary_value in Hr.
  rewrite bool_decide_eq_false_2 in Hr by done.
  destruct (dictionary language) as [d|] eqn:Hdict; [|done].
  injection Hr as ->.
  destruct (dictionary_namespaces language d Hdict) as (dirs & es & ? & -> & ?).
  by exists dirs, es.
Qed.

Lemma getDictionary_namespaces_witness :
  let H := host_template in
  ∃ es s', getDictionary en_GB (run_ops [Build (js "de") users_ns] init)
             = (Ok (Val (Val <$> es)), s') ∧
           namespace <$> es = [users_ns].
Proof.
  intros H.
  destruct (getDictionary en_GB (run_ops [Build (js "de") users_ns] init))
    as [[v|err] s'] eqn:Hrun; [|vm_compute in Hrun; discriminate].
  destruct (getDictionary_namespaces [Build (js "de") users_ns] en_GB v s')
    as (dirs & es & Hwalk & -> & Hes).
  - refine (bool_decide_unpack _ _). vm_compute. exact I.
  - exact Hrun.
  - exists es, s'. split; [done|].
    injection Hwalk as <-. etrans; [exact Hes|]. vm_compute. reflexivity.
Defined.

(** X18: [buildNamespace] never writes the dictionary cache and leaves the
    fallback entries of the other namespaces as they are. *)
Theorem buildNamespace_frame_other `{Host}
    (language ns ns' : jsstring) (s : State) :
  ns' ≠ ns →
  cache (snd (buildNamespace language ns s)) = cache s ∧
  fallbackCache (snd (buildNamespace language ns s)) !! ns' =
    fallbackCache s !! ns'.
Proof.
  intros Hns. split.
  - apply buildNamespace_inv.
  - by apply buildNamespace_frame.
Qed.

Lemma buildNamespace_frame_other_witness :
  let H := host_template in
  cache (snd (buildNamespace en_GB users_ns init)) = cache init ∧
  fallbackCache (snd (buildNamespace en_GB users_ns init)) !! info_ns =
    fallbackCache init !! info_ns.
Proof.
  intros H. apply (buildNamespace_frame_other en_GB users_ns info_ns init).
  vm_compute. discriminate.
Defined.

(** X19: [getDictionary] leaves the dictionaries of the other languages as
    they are. *)
Theorem getDictionary_frame_other `{Host}
    (language language' : jsstring) (s : State) :
  language' ≠ language →
  cache (snd (getDictionary language s)) !! language' = cache s !! language'.
Proof.
  intros Hl. rewrite getDictionary_run.
  destruct (get_property (cache s) language) as [v|]; [done|].
  destruct (initDict_inv language s) as (_ & Hca & _).
  destruct (initDict language s) as [[d|err] s']; cbn [snd cache] in *.
  - by rewrite lookup_insert_ne, Hca.
  - by rewrite Hca.
Qed.

Lemma getDictionary_frame_other_witness :
  let H := host_template in
  cache (snd (getDictionary en_GB init)) !! js "de" = cache init !! js "de".
Proof.
  intros H. apply (getDictionary_frame_other en_GB (js "de") init).
  vm_compute. discriminate.
Defined.

(** X20: nothing is ever removed from the caches or replaced in them, and
    nothing is removed from the trace: after any calls, whatever a cache held
    before is still there, unchanged. *)
Theorem caches_only_grow `{Host} (ops : list Op) (s : State) :
  (∀ language d, cache s !! language = Some d →
     cache (run_ops ops s) !! language = Some d) ∧
  (∀ ns e, fallbackCache s !! ns = Some e →
     fallbackCache (run_ops ops s) !! ns = Some e) ∧
  trace s `prefix_of` trace (run_ops ops s).
Proof.
  destruct (run_ops_inv ops s) as [(Hf & Hc & Ht) _]. split_and!; [| |done].
  - intros language d Hd. by eapply grows_lookup.
  - intros ns e He. by eapply grows_lookup.
Qed.

(** X21: what the fallback cache holds.  In every state that calls of
    [buildNamespace] and [getDictionary] lead to, an entry of the fallback
    cache is stored under its own namespace, has the title that [nsToTitle]
    gives for it, and its translations are the simplified text of the
    template, a line feed and that title; an entry without a title is never
    stored. *)
Theorem fallbackCache_entries `{Host}
    (ops : list Op) (ns : jsstring) (e : Entry) :
  fallbackCache (run_ops ops init) !! ns = Some e →
  ∃ template t,
    readFile (template_path ns) = Ok template ∧ nsToTitle ns = Ok t ∧
    namespace e = ns ∧ title e = Some t ∧
    translations e =
      simplify (Translator_removePatterns (sanitize template)) ++ [LF] ++ t.
Proof.
  intros He. destruct (run_ops_init_coherent ops) as [Hs _].
  apply get_property_Val, Hs, fallback_value_Ok in He.
  case_bool_decide; [done|]. destruct He as (e' & [= <-] & He).
  apply fallback_entry_Ok in He as (template & t & Hread & Ht & ->).
  by exists template, t.
Qed.

Lemma fallbackCache_entries_witness :
  let H := host_template in
  ∃ e, fallbackCache (run_ops [GetDictionary en_GB] init) !! users_ns = Some e ∧
       namespace e = users_ns ∧ title e = Some (js "Manage > Users") ∧
       translations e = js "Users" ++ [LF] ++ js "Search " ++ [LF]
                          ++ js "Manage > Users".
Proof.
  intros H.
  destruct (fallbackCache (run_ops [GetDictionary en_GB] init) !! users_ns)
    as [e|] eqn:He; [|vm_compute in He; discriminate].
  exists e. split; [done|].
  destruct (fallbackCache_entries [GetDictionary en_GB] users_ns e He)
    as (template & t & Hread & Ht & Hns & Htitle & Htr).
  vm_compute in Hread. injection Hread as <-.
  vm_compute in Ht. injection Ht as <-.
  split_and!; [exact Hns|exact Htitle|].
  etrans; [exact Htr|]. vm_compute. reflexivity.
Defined.

(** *** Rejections and the log *)

(** X22: [buildNamespace] rejects exactly when the creation of the translator
    throws, with that error and before anything else is asked; whatever the
    lookup, the translate step, the read of the template or the title do, it
    returns an entry. *)
Theorem buildNamespace_rejects_iff `{Host}
    (language ns : jsstring) (err : Exn) (s : State) :
  ((∃ s', buildNamespace language ns s = (Throw err, s')) ↔
   Translator_create language = Throw err) ∧
  (∀ s', buildNamespace language ns s = (Throw err, s') →
     s' = MkState (fallbackCache s) (cache s) (trace s ++ [EvCreate language])).
Proof.
  assert (Hwhy : ∀ s', buildNamespace language ns s = (Throw err, s') →
                   Translator_create language = Throw err).
  { intros s' Hrun.
    destruct (Translator_create language) as [translator|err'] eqn:Hcreate.
    - destruct (buildNamespace_Ok language translator ns s Hcreate) as [e He].
      rewrite Hrun in He. done.
    - rewrite (buildNamespace_rejects _ _ _ err') in Hrun by done. congruence. }
  split; [split|].
  - intros [s' Hrun]. by eapply Hwhy.
  - intros Hcreate. eexists. by apply buildNamespace_rejects.
  - intros s' Hrun. pose proof (Hwhy s' Hrun) as Hcreate.
    rewrite (buildNamespace_rejects _ _ _ err) in Hrun by done.
    by injection Hrun as <-.
Qed.

(** X23: [getDictionary] rejects exactly when the read of the dictionary
    cache finds nothing under the language (nothing is stored under it and it
    is not a name of [Object.prototype]) and either the walk of the views
    throws or there is a namespace and the creation of the translator throws;
    it rejects with that error and leaves both caches as they are, so that
    the next call builds again. *)
Theorem getDictionary_rejects_iff `{Host}
    (language : jsstring) (err : Exn) (s : State) :
  ((∃ s', getDictionary language s = (Throw err, s')) ↔
   get_property (cache s) language = None ∧
   (file_walk admin_dir = Throw err ∨
    ∃ dirs, file_walk admin_dir = Ok dirs ∧ filterDirectories dirs ≠ [] ∧
            Translator_create language = Throw err)) ∧
  (∀ s', getDictionary language s = (Throw err, s') →
     cache s' = cache s ∧ fallbackCache s' = fallbackCache s).
Proof.
  split; [split|].
  - intros [s' Hrun]. by eapply getDictionary_rejected.
  - intros [Hmiss Hw].
    destruct (getDictionary_rejects language s err Hmiss Hw) as (s' & ? & _).
    by exists s'.
  - intros s' Hrun.
    destruct (getDictionary_rejected language s err s' Hrun) as [Hmiss Hw].
    destruct (getDictionary_rejects language s err Hmiss Hw)
      as (s'' & Hrun' & ? & ?).
    rewrite Hrun in Hrun'. by injection Hrun' as ->.
Qed.

Lemma getDictionary_rejects_iff_witness :
  (let H := host_no_views in
   ∃ s', getDictionary en_GB init = (Throw ENOENT, s') ∧
         cache s' = cache init ∧ fallbackCache s' = fallbackCache init) ∧
  (let H := host_no_translator in
   ∃ s', getDictionary en_GB init =
           (Throw (MkExn true (js "Error: no such language")), s')).
Proof.
  split; intros H.
  - destruct (getDictionary_rejects_iff en_GB ENOENT init)
      as [[_ Hif] Hstate].
    destruct Hif as [s' Hrun].
    { split; [reflexivity|]. left. reflexivity. }
    exists s'. split; [done|]. by apply Hstate.
  - destruct (getDictionary_rejects_iff en_GB
                (MkExn true (js "Error: no such language")) init)
      as [[_ Hif] _].
    apply Hif. split; [reflexivity|]. right. exists [users_tpl].
    split_and!; [reflexivity| |reflexivity].
    vm_compute. discriminate.
Defined.

(** X24: what a failed build logs and asks.  When the lookup throws, when
    the translate step throws, or when there are no translations and the
    read of the template throws, the trace grows by the calls made up to the
    failure and then by one log entry, with the stack of the error, if the
    error is an [Error], and by nothing if it is not; a failed read leaves
    the fallback cache as it is. *)
Theorem buildNamespace_failure_trace `{Host}
    (language ns : jsstring) (translator : Translator) (err : Exn) (s : State) :
  Translator_create language = Ok translator →
  let s' := snd (buildNamespace language ns s) in
  let log := if instanceof_Error err then [EvLogError (stack err)] else [] in
  (getTranslation translator ns = Throw err →
   trace s' =
     trace s ++ [EvCreate language; EvGetTranslation language ns] ++ log) ∧
  (∀ tbl, getTranslation translator ns = Ok tbl →
     no_translations tbl = false →
     translate translator (title_key (exec re_title ns)) = Throw err →
     trace s' =
       trace s ++ [EvCreate language; EvGetTranslation language ns;
                   EvTranslate language (title_key (exec re_title ns))]
         ++ log) ∧
  (∀ tbl, getTranslation translator ns = Ok tbl →
     no_translations tbl = true →
     get_property (fallbackCache s) ns = None →
     readFile (template_path ns) = Throw err →
     trace s' =
       trace s ++ [EvCreate language; EvGetTranslation language ns;
                   EvReadFile (template_path ns)] ++ log ∧
     fallbackCache s' = fallbackCache s).
Proof.
  intros Hcreate s' log. subst s'.
  rewrite buildNamespace_run, Hcreate. cbv zeta. split_and!.
  - intros ->. cbn [snd]. rewrite trace_logged_events.
    unfold record. cbn [trace]. by rewrite <- !app_assoc.
  - intros tbl -> -> ->. cbn [snd]. rewrite trace_logged_events.
    unfold record. cbn [trace]. by rewrite <- !app_assoc.
  - intros tbl -> -> Hmiss Hread.
    set (s1 := record (EvGetTranslation language ns)
                 (record (EvCreate language) s)).
    assert (Hf : run (fallback ns) s1 =
                 (Throw err, record (EvReadFile (template_path ns)) s1)).
    { rewrite fallback_run.
      change (fallbackCache s1) with (fallbackCache s). rewrite Hmiss.
      unfold fallback_entry. by rewrite Hread. }
    rewrite Hf. cbn [snd]. rewrite trace_logged_events, fallbackCache_logged.
    unfold s1, record. cbn [trace fallbackCache]. by rewrite <- !app_assoc.
Qed.

Lemma buildNamespace_failure_trace_witness :
  (let H := host_throwing in
   trace (snd (buildNamespace en_GB users_ns init)) =
   [EvCreate en_GB; EvGetTranslation en_GB users_ns;
    EvLogError (js "Error: lookup")]) ∧
  (let H := host_unreadable in
   trace (snd (buildNamespace en_GB users_ns init)) =
   [EvCreate en_GB; EvGetTranslation en_GB users_ns;
    EvReadFile (template_path users_ns);
    EvLogError (js "Error: ENOENT: no such file or directory")]).
Proof.
  split; intros H.
  - destruct (buildNamespace_failure_trace en_GB users_ns
                (example_translator (λ _, Throw (MkExn true (js "Error: lookup"))))
                (MkExn true (js "Error: lookup")) init) as (Hlookup & _ & _);
      [reflexivity|].
    apply Hlookup. reflexivity.
  - destruct (buildNamespace_failure_trace en_GB users_ns
                (example_translator (λ _, Ok None)) ENOENT init)
      as (_ & _ & Hread); [reflexivity|].
    destruct (Hread None) as [Htr _]; [reflexivity..|exact Htr].
Defined.

(** X25: when the read of the dictionary cache finds nothing under the
    language, a walk that finds no namespace gives the empty dictionary: the
    dictionary is built without a translator, it is stored in the cache, and
    the next call for the language returns it from the cache. *)
Theorem getDictionary_no_namespaces `{Host}
    (language : jsstring) (dirs : list jsstring) (s : State) :
  get_property (cache s) language = None →
  file_walk admin_dir = Ok dirs →
  filterDirectories dirs = [] →
  let s' := MkState (fallbackCache s) (<[language := []]> (cache s))
              (trace s ++ [EvWalk admin_dir]) in
  getDictionary language s = (Ok (Val []), s') ∧
  getDictionary language s' = (Ok (Val []), s').
Proof.
  intros Hmiss Hwalk Hnone s'. split.
  - rewrite getDictionary_run, Hmiss, initDict_run, Hwalk, Hnone.
    by rewrite fmap_nil, promise_all_nil.
  - rewrite getDictionary_run. unfold s'. cbn [cache].
    by rewrite get_property_insert.
Qed.

Lemma getDictionary_no_namespaces_witness :
  let H := example_host [js "/views/admin/dashboard.tpl"] ∅
             (example_translator (λ _, Ok None)) in
  ∃ s', getDictionary en_GB init = (Ok (Val []), s') ∧
        getDictionary en_GB s' = (Ok (Val []), s') ∧
        trace s' = [EvWalk (js "/views/admin")].
Proof.
  intros H.
  destruct (getDictionary_no_namespaces en_GB [js "/views/admin/dashboard.tpl"]
              init) as [Hfirst Hnext].
  - reflexivity.
  - reflexivity.
  - vm_compute. reflexivity.
  - eexists. split_and!; [exact Hfirst|exact Hnext|reflexivity].
Defined.

(** X26: when the read of the dictionary cache finds nothing under the
    language, [getDictionary] walks the views once and creates a translator
    once for each namespace, not once for the language, in whatever order
    the builds are resumed. *)
Theorem getDictionary_calls `{Host}
    (language : jsstring) (dirs : list jsstring) (s : State) :
  get_property (cache s) language = None →
  file_walk admin_dir = Ok dirs →
  let s' := snd (getDictionary language s) in
  count_event (EvWalk admin_dir) (trace s') =
    S (count_event (EvWalk admin_dir) (trace s)) ∧
  count_event (EvCreate language) (trace s') =
    (count_event (EvCreate language) (trace s)
     + length (filterDirectories dirs))%nat.
Proof.
  intros Hmiss Hwalk s'. subst s'.
  rewrite getDictionary_run, Hmiss, initDict_run, Hwalk.
  destruct (promise_all_builds_counts language (filterDirectories dirs)
              (record (EvWalk admin_dir) s)) as [Hc Hw].
  cbv zeta in Hc, Hw. specialize (Hw admin_dir).
  rewrite count_event_record in Hc, Hw.
  rewrite decide_False in Hc by done. rewrite decide_True in Hw by done.
  destruct (promise_all _ _) as [[d|err] s']; cbn [snd trace] in *; split; lia.
Qed.

Lemma getDictionary_calls_witness :
  let H := host_template in
  count_event (EvWalk admin_dir) (trace (snd (getDictionary en_GB init))) = 1%nat ∧
  count_event (EvCreate en_GB) (trace (snd (getDictionary en_GB init))) = 1%nat.
Proof.
  intros H.
  destruct (getDictionary_calls en_GB [users_tpl] init) as [Hw Hc];
    [reflexivity..|].
  split; (etrans; [eassumption|vm_compute; reflexivity]).
Defined.

(** *** The names of [Object.prototype] *)

(** X27: under a name of [Object.prototype] ("constructor", "toString",
    "__proto__", ...) no dictionary is ever built.  In every state that
    calls lead to from the initial state, [getDictionary] returns what the
    read of the cache finds on the prototype, asks nothing of the
    collaborators and leaves the state as it is. *)
Theorem getDictionary_inherited `{Host} (ops : list Op) (language : jsstring) :
  language ∈ Object_prototype →
  getDictionary language (run_ops ops init) =
  (Ok (Inherited language), run_ops ops init).
Proof.
  intros Hl.
  assert (Hin : get_property (cache init) language = Some (Inherited language)).
  { apply get_property_Inherited. by split_and!. }
  destruct (run_ops_inv ops init) as [(_ & Hsub & _) _].
  by rewrite getDictionary_run, (Hsub _ _ Hin).
Qed.

Lemma getDictionary_inherited_witness :
  let H := host_template in
  getDictionary (js "constructor") (run_ops [GetDictionary en_GB] init) =
  (Ok (Inherited (js "constructor")), run_ops [GetDictionary en_GB] init).
Proof.
  intros H.
  apply (getDictionary_inherited [GetDictionary en_GB] (js "constructor")).
  refine (bool_decide_unpack _ _). vm_compute. exact I.
Defined.
